(** * spyderlib/widgets/sourcecode/base.py

    A shallow embedding of the two toolkit-independent algorithms of
    [base.py]:

    - [TextEditBaseWidget.get_selection_as_executable_code], the transform
      that re-indents a selection and closes top-level compound statements
      (the specification calls it [reindent]);
    - [QtANSIEscapeCodeHandler] and the colour branch of
      [ConsoleBaseWidget.append_text_to_shell], the ANSI decoder.

    and of the methods around them that compute on text, positions and
    lists: the search for the matching brace, the dict of the extra
    selections, the order and the current row of the completion list, the
    HOME key and the selection of the shell, and the [error] branch of
    [append_text_to_shell].

    Text is a list of characters with code points 0..255.  Python exceptions
    are values of [exn]; a call either returns or raises. *)

From Stdlib Require Import Ascii String.
From Stdlib Require Import List ZArith Lia Bool Arith PeanoNat Sorted.
Import ListNotations.

(** ** Python values *)

Abbreviation str := (list ascii) (only parsing).

Definition lit (s : string) : str := list_ascii_of_string s.

Inductive exn : Set :=
| ValueError
| IndexError
| AssertionError
| AttributeError.

Inductive result (A : Type) : Type :=
| Ok (a : A)
| Raise (e : exn).

Arguments Ok {A} a.
Arguments Raise {A} e.

Definition bind {A B} (r : result A) (k : A -> result B) : result B :=
  match r with
  | Ok a => k a
  | Raise e => Raise e
  end.

Notation "x <- r ;; k" := (bind r (fun x => k))
  (at level 61, r at next level, right associativity).

(** ** String primitives of Python used by the source *)

Module Py.

Definition eqc (a b : ascii) : bool := Ascii.eqb a b.

Definition str_eqb (a b : str) : bool :=
  if list_eq_dec ascii_dec a b then true else false.

(** [str.isspace] on a one-character text, for code points below 256. *)
Definition isspace (c : ascii) : bool :=
  let n := nat_of_ascii c in
  ((9 <=? n) && (n <=? 13)) || ((28 <=? n) && (n <=? 32))
  || (n =? 133) || (n =? 160).

Fixpoint lstrip (s : str) : str :=
  match s with
  | [] => []
  | c :: s' => if isspace c then lstrip s' else s
  end.

Definition rstrip (s : str) : str := rev (lstrip (rev s)).

Definition strip (s : str) : str := rstrip (lstrip s).

(** [sep * n]; a count that is not positive gives the empty text, which
    truncated subtraction on [nat] provides at the call sites. *)
Definition times (c : ascii) (n : nat) : str := repeat c n.

Fixpoint startswith (p s : str) : bool :=
  match p, s with
  | [], _ => true
  | _ :: _, [] => false
  | a :: p', b :: s' => eqc a b && startswith p' s'
  end.

(** [text.split(sep)]: the pieces between the leftmost, non-overlapping
    occurrences of [sep].  [skip] counts the characters of an occurrence
    that are still to be passed over. *)
Fixpoint split_from (sep : str) (skip : nat) (s : str) : list str :=
  match s with
  | [] => [[]]
  | c :: s' =>
      match skip with
      | S k => split_from sep k s'
      | O =>
          if startswith sep s
          then [] :: split_from sep (length sep - 1) s'
          else match split_from sep 0 s' with
               | piece :: pieces => (c :: piece) :: pieces
               | [] => [[c]]
               end
      end
  end.

Definition split (text sep : str) : result (list str) :=
  match sep with
  | [] => Raise ValueError
  | _ :: _ => Ok (split_from sep 0 text)
  end.

Fixpoint join (sep : str) (pieces : list str) : str :=
  match pieces with
  | [] => []
  | [p] => p
  | p :: rest => p ++ sep ++ join sep rest
  end.

(** No occurrence of [sep] begins within [p] when [t] follows [p]. *)
Definition clear_before (sep p t : str) : Prop :=
  forall i, i < length p -> startswith sep (skipn i (p ++ t)) = false.

(** Pieces that [sep.join] puts together and [split(sep)] takes apart
    again: within a piece that another follows, and in the separator
    after it, the first occurrence of [sep] is that separator, and the
    last piece has no occurrence. *)
Fixpoint pieces_ok (sep : str) (pieces : list str) : Prop :=
  match pieces with
  | [] => True
  | p :: rest =>
      match rest with
      | [] => clear_before sep p []
      | _ :: _ => clear_before sep p sep /\ pieces_ok sep rest
      end
  end.

Definition slice_from (n : nat) (s : str) : str := skipn n s.

Definition mem (w : str) (ws : list str) : bool := existsb (str_eqb w) ws.

End Py.

(** ** get_selection_as_executable_code *)

Module Reindent.

Import Py.

Definition SPACE : ascii := ascii_of_nat 32.
Definition HASH : ascii := ascii_of_nat 35.
Definition LF : ascii := ascii_of_nat 10.

(** [_indent = lambda line: len(line)-len(line.lstrip())] *)
Definition _indent (line : str) : nat := length line - length (lstrip line).

(** [if line.strip():] *)
Definition nonblank (line : str) : bool :=
  match strip line with
  | [] => false
  | _ :: _ => true
  end.

(** The loop [for i in range(len(lines)-1, -1, -1)]: the last line is
    visited first, so the recursion returns from the end of the list.
    The result is [(min_indent, current_indent, lines)]. *)
Fixpoint indent_scan (lines : list str) : nat * nat * list str :=
  match lines with
  | [] => (999, 0, [])
  | line :: below =>
      let '(min_indent, current_indent, below') := indent_scan below in
      if nonblank line
      then (Nat.min (_indent line) min_indent, _indent line, line :: below')
      else (min_indent, current_indent, times SPACE current_indent :: below')
  end.

(** [if min_indent: lines = [line[min_indent:] for line in lines]] *)
Definition dedent (min_indent : nat) (lines : list str) : list str :=
  match min_indent with
  | O => lines
  | S _ => map (slice_from min_indent) lines
  end.

(** [first_line == '' or first_line[0] == '#'] *)
Definition blank_or_comment (line : str) : bool :=
  match lstrip line with
  | [] => true
  | c :: _ => eqc c HASH
  end.

(** The loop that pops leading blank and comment lines; [lines[0]] raises
    [IndexError] on the empty list. *)
Fixpoint drop_leading (lines : list str) : result (list str) :=
  match lines with
  | [] => Raise IndexError
  | first :: rest =>
      if blank_or_comment first then drop_leading rest else Ok lines
  end.

(** [re.compile('[a-zA-Z0-9_]*')] *)
Definition is_varchar (c : ascii) : bool :=
  let n := nat_of_ascii c in
  ((97 <=? n) && (n <=? 122)) || ((65 <=? n) && (n <=? 90))
  || ((48 <=? n) && (n <=? 57)) || (n =? 95).

(** [varname.match(line).group()] *)
Fixpoint varname_match (line : str) : str :=
  match line with
  | [] => []
  | c :: rest => if is_varchar c then c :: varname_match rest else []
  end.

Record scan_state : Type := {
  lines_of : list str;
  maybe : bool;
  nextexcept : list str
}.

(** [lines[i] += ls] *)
Fixpoint append_at (i : nat) (ls : str) (lines : list str) : list str :=
  match lines, i with
  | [], _ => []
  | l :: rest, O => (l ++ ls) :: rest
  | l :: rest, S j => l :: append_at j ls rest
  end.

(** The index [n-1] of Python: [-1] is the last element. *)
Definition index_before (n len : nat) : nat :=
  match n with
  | O => len - 1
  | S m => m
  end.

(** First [if] of the loop body: [if maybe and word not in nextexcept]. *)
Definition close_block (ls : str) (n : nat) (word : str) (st : scan_state)
  : scan_state :=
  if maybe st && negb (mem word (nextexcept st))
  then {| lines_of := append_at (index_before n (length (lines_of st))) ls
                                (lines_of st);
          maybe := false;
          nextexcept := nextexcept st |}
  else st.

(** Second [if] of the loop body: [if word: ...]. *)
Definition open_block (word : str) (st : scan_state) : scan_state :=
  match word with
  | [] => st
  | _ :: _ =>
      if mem word [lit "def"; lit "for"; lit "while"; lit "with"; lit "class"]
      then {| lines_of := lines_of st; maybe := true; nextexcept := [] |}
      else if str_eqb word (lit "if")
      then {| lines_of := lines_of st; maybe := true;
              nextexcept := [lit "elif"; lit "else"] |}
      else if str_eqb word (lit "try")
      then {| lines_of := lines_of st; maybe := true;
              nextexcept := [lit "except"; lit "finally"] |}
      else st
  end.

(** Body of [for n, line in enumerate(lines)]. *)
Definition scan_line (ls : str) (n : nat) (st : scan_state) : scan_state :=
  let line := nth n (lines_of st) [] in
  match _indent line with
  | O => let word := varname_match line in
         open_block word (close_block ls n word st)
  | S _ => st
  end.

Definition keyword_scan (ls : str) (lines : list str) : scan_state :=
  fold_left (fun st n => scan_line ls n st) (seq 0 (length lines))
            {| lines_of := lines; maybe := false; nextexcept := [] |}.

(** [if maybe: if lines[-1].strip() == '': lines[-1] += ls
               else: lines.append(ls)] *)
Definition terminate (ls : str) (st : scan_state) : result (list str) :=
  if maybe st then
    match rev (lines_of st) with
    | [] => Raise IndexError
    | last :: _ =>
        if nonblank last
        then Ok (lines_of st ++ [ls])
        else Ok (append_at (length (lines_of st) - 1) ls (lines_of st))
    end
  else Ok (lines_of st).

(** The first lines of the method: the selection is split, a selection
    of several lines gets the indentation of its first line in the buffer
    back, and the text is split again. *)
Definition selected_lines (ls text_line_from text : str)
  : result (list str) :=
  lines <- split text ls ;;
  let text :=
    if 1 <? length lines
    then times SPACE (_indent text_line_from - _indent (nth 0 lines []))
           ++ text
    else text in
  split text ls.

(** The method itself.  [ls] is [self.get_line_separator()],
    [text_line_from] is [self.get_text_line(line_from)] and [text] is
    [self.get_selected_text()].  [None] is the bare [return]. *)
Definition get_selection_as_executable_code
           (ls text_line_from text : str) : result (option str) :=
  match text with
  | [] => Ok None
  | _ :: _ =>
      lines <- selected_lines ls text_line_from text ;;
      let '(min_indent, _, lines) := indent_scan lines in
      let lines := dedent min_indent lines in
      lines <- drop_leading lines ;;
      lines <- terminate ls (keyword_scan ls lines) ;;
      Ok (Some (join ls lines))
  end.

(** The number of lines of a text: the pieces of [text.split(ls)]. *)
Definition line_count (ls text : str) : nat := length (split_from ls 0 text).

(** The number of lines at the head of [lines] that are blank or a
    comment. *)
Fixpoint leading_junk (lines : list str) : nat :=
  match lines with
  | [] => 0
  | l :: rest => if blank_or_comment l then S (leading_junk rest) else 0
  end.

(** The contract of the specification: the selection, the indentation of
    its first line in the buffer, and the separator. *)
Definition reindent (text : str) (original_line_indent : nat) (ls : str)
  : result (option str) :=
  get_selection_as_executable_code ls (times SPACE original_line_indent) text.

(** [reindent(reindent(x))], with the same indentation and separator. *)
Definition reindent_twice (text : str) (original_line_indent : nat)
           (ls : str) : result (option str) :=
  once <- reindent text original_line_indent ls ;;
  match once with
  | None => Ok None
  | Some text' => reindent text' original_line_indent ls
  end.

(** The words at which [open_block] sets the pending flag. *)
Definition opens_block (word : str) : bool :=
  mem word [lit "def"; lit "for"; lit "while"; lit "with"; lit "class"]
  || str_eqb word (lit "if") || str_eqb word (lit "try").

(** What the bottom-up loop leaves behind: every line is blank or
    indented by [min_indent] at least. *)
Definition scanned (min_indent : nat) (l : str) : Prop :=
  lstrip l = [] \/ min_indent <= _indent l.

(** The lines after the first lines of the method, when [k] spaces are
    put before the selection. *)
Definition pad_first (k : nat) (lines : list str) : list str :=
  match lines with
  | [] => [times SPACE k]
  | x :: xs => (times SPACE k ++ x) :: xs
  end.

(** No pending flag is ever set on lines of which none opens a block at
    indentation zero. *)
Definition no_top_level_block (l : str) : Prop :=
  _indent l = 0 -> opens_block (varname_match l) = false.

(** The allowed continuations of a compound statement (step 6 of the
    specification): [elif] and [else] after [if], [except] and [finally]
    after [try], none after the others. *)
Definition allowed_continuations (word : str) : list str :=
  if str_eqb word (lit "if") then [lit "elif"; lit "else"]
  else if str_eqb word (lit "try") then [lit "except"; lit "finally"]
  else [].

End Reindent.

(** ** QtANSIEscapeCodeHandler *)

Module Ansi.

Import Py.

(** Toolkit values, reduced to what the source reads and writes. *)
Inductive QColor : Set :=
| ColorName (cstr : str)
| ColorRgb (rgb : Z)
(** what [inverse_color] turns a colour into: same hue and saturation,
    value [255 - value] *)
| ColorInverse (c : QColor).

Record QFont : Set := {
  family : str;
  font_italic : bool;
  font_bold : bool;
  font_underline : bool
}.

Record QTextCharFormat : Set := {
  foreground : QColor;
  background : QColor;
  font : QFont
}.

Definition setForeground (c : QColor) (f : QTextCharFormat) :=
  {| foreground := c; background := background f; font := font f |}.
Definition setBackground (c : QColor) (f : QTextCharFormat) :=
  {| foreground := foreground f; background := c; font := font f |}.
Definition setFont (q : QFont) (f : QTextCharFormat) :=
  {| foreground := foreground f; background := background f; font := q |}.
Definition setItalic (b : bool) (q : QFont) :=
  {| family := family q; font_italic := b; font_bold := font_bold q;
     font_underline := font_underline q |}.
Definition setBold (b : bool) (q : QFont) :=
  {| family := family q; font_italic := font_italic q; font_bold := b;
     font_underline := font_underline q |}.
Definition setUnderline (b : bool) (q : QFont) :=
  {| family := family q; font_italic := font_italic q;
     font_bold := font_bold q; font_underline := b |}.

(** The attributes of one handler object.  [base_format] and
    [current_format] are those [__init__] sets.  The others are inherited
    from the base class [ANSIEscapeCodeHandler] of [terminal.py] and read
    here through [self]: the current colour codes, the intensity and the
    three optional flags of the decoder state (section 3 of the
    specification), the two default codes [set_light_background] assigns,
    and [ANSI_COLORS], the table of (normal, bright) colour names. *)
Record handler : Set := {
  ANSI_COLORS : list (str * str);
  intensity : Z;
  italic : option bool;
  bold : option bool;
  underline : option bool;
  foreground_color : option Z;
  background_color : option Z;
  default_foreground_color : Z;
  default_background_color : Z;
  base_format : option QTextCharFormat;
  current_format : option QTextCharFormat
}.

(** A call that mutates an object: it returns or raises, and in both
    cases leaves a state behind. *)
Inductive outcome (S A : Type) : Type :=
| Return (a : A) (s : S)
| Throw (e : exn) (s : S).

Arguments Return {S A} a s.
Arguments Throw {S A} e s.

Definition M (S A : Type) : Type := S -> outcome S A.

Definition ret {S A} (a : A) : M S A := fun s => Return a s.
Definition throw {S A} (e : exn) : M S A := fun s => Throw e s.
Definition mbind {S A B} (m : M S A) (k : A -> M S B) : M S B :=
  fun s => match m s with
           | Return a s' => k a s'
           | Throw e s' => Throw e s'
           end.
Definition get {S} : M S S := fun s => Return s s.
Definition modify {S} (f : S -> S) : M S unit := fun s => Return tt (f s).
Definition lift_result {S A} (r : result A) : M S A :=
  match r with
  | Ok a => ret a
  | Raise e => throw e
  end.

Declare Scope monad_scope.
Delimit Scope monad_scope with monad.
Notation "x <~ m ;; k" := (mbind m (fun x => k))
  (at level 61, m at next level, right associativity) : monad_scope.
Notation "m ;;; k" := (mbind m (fun _ => k))
  (at level 61, right associativity) : monad_scope.
Local Open Scope monad_scope.
Local Open Scope Z_scope.

(** [seq[i]] with Python's negative indices. *)
Definition py_nth {A} (l : list A) (i : Z) : result A :=
  let len := Z.of_nat (length l) in
  let j := if i <? 0 then i + len else i in
  if (0 <=? j) && (j <? len)
  then match nth_error l (Z.to_nat j) with
       | Some a => Ok a
       | None => Raise IndexError
       end
  else Raise IndexError.

(** [pair[i]] on a 2-tuple. *)
Definition py_pair_nth {A} (p : A * A) (i : Z) : result A :=
  py_nth [fst p; snd p] i.

Definition set_current_format (f : option QTextCharFormat) (h : handler) :=
  {| ANSI_COLORS := ANSI_COLORS h; intensity := intensity h;
     italic := italic h; bold := bold h; underline := underline h;
     foreground_color := foreground_color h;
     background_color := background_color h;
     default_foreground_color := default_foreground_color h;
     default_background_color := default_background_color h;
     base_format := base_format h; current_format := f |}.

(** [__init__], after the base class's [__init__] produced [h]. *)
Definition __init__ (h : handler) : handler :=
  {| ANSI_COLORS := ANSI_COLORS h; intensity := intensity h;
     italic := italic h; bold := bold h; underline := underline h;
     foreground_color := foreground_color h;
     background_color := background_color h;
     default_foreground_color := default_foreground_color h;
     default_background_color := default_background_color h;
     base_format := None; current_format := None |}.

Definition set_light_background (state : bool) (h : handler) : handler :=
  {| ANSI_COLORS := ANSI_COLORS h; intensity := intensity h;
     italic := italic h; bold := bold h; underline := underline h;
     foreground_color := foreground_color h;
     background_color := background_color h;
     default_foreground_color := if state then 30 else 37;
     default_background_color := if state then 47 else 40;
     base_format := base_format h; current_format := current_format h |}.

Definition set_base_format (f : option QTextCharFormat) (h : handler)
  : handler :=
  {| ANSI_COLORS := ANSI_COLORS h; intensity := intensity h;
     italic := italic h; bold := bold h; underline := underline h;
     foreground_color := foreground_color h;
     background_color := background_color h;
     default_foreground_color := default_foreground_color h;
     default_background_color := default_background_color h;
     base_format := f; current_format := current_format h |}.

Definition get_format (h : handler) : option QTextCharFormat :=
  current_format h.

(** An attribute of [self.base_format]; on [None] the access raises. *)
Definition base_attr {A} (get_attr : QTextCharFormat -> A) : M handler A :=
  h <~ get ;;
  match base_format h with
  | None => throw AttributeError
  | Some b => ret (get_attr b)
  end.

(** A method call on [self.current_format], which updates that object. *)
Definition on_current (f : QTextCharFormat -> QTextCharFormat)
  : M handler unit :=
  h <~ get ;;
  match current_format h with
  | None => throw AttributeError
  | Some c => modify (set_current_format (Some (f c)))
  end.

(** [QColor(self.ANSI_COLORS[color - offset][self.intensity])] *)
Definition ansi_color (color offset : Z) : M handler QColor :=
  h <~ get ;;
  entry <~ lift_result (py_nth (ANSI_COLORS h) (color - offset)) ;;
  cstr <~ lift_result (py_pair_nth entry (intensity h)) ;;
  ret (ColorName cstr).

Definition set_style : M handler unit :=
  h <~ get ;;
  match current_format h with
  | None =>
      match base_format h with
      | None => throw AssertionError
      | Some b => modify (set_current_format (Some b))
      end
  | Some _ => ret tt
  end ;;;
  (* Foreground color *)
  qcolor <~ match foreground_color h with
            | None => base_attr foreground
            | Some c => ansi_color c 30
            end ;;
  on_current (setForeground qcolor) ;;;
  (* Background color *)
  qcolor <~ match background_color h with
            | None => base_attr background
            | Some c => ansi_color c 40
            end ;;
  on_current (setBackground qcolor) ;;;
  h' <~ get ;;
  match current_format h' with
  | None => throw AttributeError
  | Some cur =>
      let font0 := font cur in
      (* Italic *)
      i <~ match italic h with
           | None => base_attr (fun b => font_italic (font b))
           | Some v => ret v
           end ;;
      let font1 := setItalic i font0 in
      (* Bold *)
      b <~ match bold h with
           | None => base_attr (fun b => font_bold (font b))
           | Some v => ret v
           end ;;
      let font2 := setBold b font1 in
      (* Underline *)
      u <~ match underline h with
           | None => base_attr (fun b => font_underline (font b))
           | Some v => ret v
           end ;;
      let font3 := setUnderline u font2 in
      on_current (setFont font3)
  end.

(** Modelled from the spec: the effect of one SGR parameter on the
    attributes, which [ANSIEscapeCodeHandler.set_code] of [terminal.py]
    computes; that file is not part of the sources at hand.  The
    parameter semantics are those of section 4.1: [0] clears foreground,
    background, bold, italic and underline to "inherit"; [1], [3], [4]
    set bold, italic, underline and [22], [23], [24] clear them;
    [30..37] and [90..97] select the foreground hue with normal and bright
    intensity, [40..47] and [100..107] the background hue; [39] and [49]
    return the foreground and the background to "inherit"; any other code
    leaves the attributes alone. *)
Definition apply_code (code : Z) (h : handler) : handler :=
  let upd it bo un fg bg inten :=
    {| ANSI_COLORS := ANSI_COLORS h; intensity := inten;
       italic := it; bold := bo; underline := un;
       foreground_color := fg; background_color := bg;
       default_foreground_color := default_foreground_color h;
       default_background_color := default_background_color h;
       base_format := base_format h; current_format := current_format h |} in
  let it := italic h in
  let bo := bold h in
  let un := underline h in
  let fg := foreground_color h in
  let bg := background_color h in
  let inten := intensity h in
  if code =? 0 then upd None None None None None inten
  else if code =? 1 then upd it (Some true) un fg bg inten
  else if code =? 3 then upd (Some true) bo un fg bg inten
  else if code =? 4 then upd it bo (Some true) fg bg inten
  else if code =? 22 then upd it (Some false) un fg bg inten
  else if code =? 23 then upd (Some false) bo un fg bg inten
  else if code =? 24 then upd it bo (Some false) fg bg inten
  else if (30 <=? code) && (code <=? 37) then upd it bo un (Some code) bg 0
  else if (90 <=? code) && (code <=? 97)
       then upd it bo un (Some (code - 60)) bg 1
  else if (40 <=? code) && (code <=? 47) then upd it bo un fg (Some code) 0
  else if (100 <=? code) && (code <=? 107)
       then upd it bo un fg (Some (code - 60)) 1
  else if code =? 39 then upd it bo un None bg inten
  else if code =? 49 then upd it bo un fg None inten
  else h.

(** Modelled from the spec: [ANSIEscapeCodeHandler.set_code] of
    [terminal.py], the method [append_text_to_shell] calls for each code.
    The code is applied as [apply_code] says, then the resolved style is
    recomputed ("recomputed lazily after each code application") by the
    [set_style] of the subclass. *)
Definition set_code (code : Z) : M handler unit :=
  modify (apply_code code) ;;; set_style.

(** ** ConsoleFontStyle *)

(** [inverse_color(color)] *)
Definition inverse_color (color : QColor) : QColor := ColorInverse color.

(** The arguments of the constructor; the attribute [format] is kept in
    the console, where it is shared with the handler. *)
Record ConsoleFontStyle : Set := {
  foregroundcolor : Z;
  backgroundcolor : Z;
  style_bold : bool;
  style_italic : bool;
  style_underline : bool
}.

(** [apply_style]: the value of the fresh format it leaves in
    [self.format]. *)
Definition apply_style (style : ConsoleFontStyle) (font0 : QFont)
           (light_background is_default : bool) : QTextCharFormat :=
  let fg := ColorRgb (foregroundcolor style) in
  let fg := if negb light_background && is_default
            then inverse_color fg else fg in
  let bg := ColorRgb (backgroundcolor style) in
  let bg := if negb light_background then inverse_color bg else bg in
  let format := {| foreground := fg; background := bg; font := font0 |} in
  setFont (setUnderline (style_underline style)
             (setItalic (style_italic style)
                (setBold (style_bold style) (font format))))
          format.

(** ** ConsoleBaseWidget *)

(** The four styles of [__init__]. *)
Definition default_style : ConsoleFontStyle :=
  {| foregroundcolor := 0x000000; backgroundcolor := 0xFFFFFF;
     style_bold := false; style_italic := false; style_underline := false |}.
Definition error_style : ConsoleFontStyle :=
  {| foregroundcolor := 0xFF0000; backgroundcolor := 0xFFFFFF;
     style_bold := false; style_italic := false; style_underline := false |}.
Definition traceback_link_style : ConsoleFontStyle :=
  {| foregroundcolor := 0x0000FF; backgroundcolor := 0xFFFFFF;
     style_bold := true; style_italic := false; style_underline := true |}.
Definition prompt_style : ConsoleFontStyle :=
  {| foregroundcolor := 0x00AA00; backgroundcolor := 0xFFFFFF;
     style_bold := true; style_italic := false; style_underline := false |}.

(** [QFont()], the font of the application. *)
Definition application_font : QFont :=
  {| family := lit "default"; font_italic := false; font_bold := false;
     font_underline := false |}.

Definition SOH : ascii := ascii_of_nat 1.
Definition STX : ascii := ascii_of_nat 2.
Definition LF : ascii := ascii_of_nat 10.
Definition VT : ascii := ascii_of_nat 11.
Definition FF : ascii := ascii_of_nat 12.
Definition CR : ascii := ascii_of_nat 13.
Definition ESC : ascii := ascii_of_nat 27.
Definition SEMICOLON : ascii := ascii_of_nat 59.
Definition LBRACKET : ascii := ascii_of_nat 91.
Definition LETTER_m : ascii := ascii_of_nat 109.
Definition DQUOTE : ascii := ascii_of_nat 34.
Definition LESS : ascii := ascii_of_nat 60.

(** [(.*?)m]: the shortest run of characters other than the newline that
    is followed by [m].  The result is the run and the text after [m]. *)
Fixpoint until_m (s : str) : option (str * str) :=
  match s with
  | [] => None
  | c :: s' =>
      if eqc c LETTER_m then Some ([], s')
      else if eqc c LF then None
      else match until_m s' with
           | Some (g, rest) => Some (c :: g, rest)
           | None => None
           end
  end.

(** [\x1b\[(.*?)m\x02?] at the head of [s]: the length of the match and
    group 1. *)
Definition match_csi (s : str) : option (nat * str) :=
  match s with
  | e :: b :: s' =>
      if eqc e ESC && eqc b LBRACKET then
        match until_m s' with
        | Some (g, rest) =>
            let stx := match rest with
                       | c :: _ => if eqc c STX then 1%nat else 0%nat
                       | [] => 0%nat
                       end in
            Some ((2 + length g + 1 + stx)%nat, g)
        | None => None
        end
      else None
  | _ => None
  end.

(** [COLOR_PATTERN = re.compile('\x01?\x1b\[(.*?)m\x02?')] matched at the
    head of [s]: the greedy [\x01?] first takes the marker, and gives it
    back when the rest fails. *)
Definition COLOR_PATTERN_match (s : str) : option (nat * str) :=
  match s with
  | c :: s' =>
      if eqc c SOH then
        match match_csi s' with
        | Some (n, g) => Some (S n, g)
        | None => match_csi s
        end
      else match_csi s
  | [] => match_csi s
  end.

Record Match : Set := {
  m_start : nat;
  m_end : nat;
  m_group1 : str
}.

(** [COLOR_PATTERN.finditer(text)]: the leftmost matches, none overlapping
    another.  [pos] is the index of the head of [s] in the text, [skip]
    the number of characters of the last match still to be passed over. *)
Fixpoint finditer_from (skip pos : nat) (s : str) : list Match :=
  match s with
  | [] => []
  | _ :: s' =>
      match skip with
      | S k => finditer_from k (S pos) s'
      | O =>
          match COLOR_PATTERN_match s with
          | Some (n, g) =>
              {| m_start := pos; m_end := (pos + n)%nat; m_group1 := g |}
                :: finditer_from (n - 1) (S pos) s'
          | None => finditer_from 0 (S pos) s'
          end
      end
  end.

Definition finditer (text : str) : list Match := finditer_from 0 0 text.

(** [text[i:j]] and [text[i:]] for indices within the text. *)
Definition slice (text : str) (i j : nat) : str :=
  firstn (j - i) (skipn i text).

Definition is_digit (c : ascii) : bool :=
  let n := nat_of_ascii c in (48 <=? n)%nat && (n <=? 57)%nat.

Definition UNDERSCORE : ascii := ascii_of_nat 95.

(** The white space [int] skips before and behind the number: the six
    white space characters of ASCII, and the two of Latin-1 above them
    (133 and 160), which it reads as a space.  The separators 28..31,
    which [str.strip] removes, are not among them. *)
Definition int_space (c : ascii) : bool :=
  let n := nat_of_ascii c in
  ((9 <=? n)%nat && (n <=? 13)%nat) || (n =? 32)%nat || (n =? 133)%nat
  || (n =? 160)%nat.

Fixpoint skip_int_space (s : str) : str :=
  match s with
  | [] => []
  | c :: s' => if int_space c then skip_int_space s' else s
  end.

(** The digits of the literal, read from the left: decimal digits, with
    single underscores between them.  The result is the value, the number
    of digits and the text behind them; [None] when two underscores
    follow each other or the digits end in one. *)
Fixpoint digits_value (acc digits : Z) (after_underscore : bool) (s : str)
  : option (Z * Z * str) :=
  match s with
  | [] => if after_underscore then None else Some (acc, digits, [])
  | c :: s' =>
      if is_digit c
      then digits_value (10 * acc + Z.of_nat (nat_of_ascii c - 48))
                        (digits + 1) false s'
      else if eqc c UNDERSCORE
      then if after_underscore then None
           else digits_value acc digits true s'
      else if after_underscore then None else Some (acc, digits, s)
  end.

(** [sys.int_info.default_max_str_digits]: a literal with more digits
    raises [ValueError]. *)
Definition int_max_str_digits : Z := 4300.

(** [int(s)] on a text, as Python 3 has it: white space, an optional
    sign, then one decimal digit or more with single underscores allowed
    between digits, then white space; anything else raises
    [ValueError], and so does a literal of more than
    [int_max_str_digits] digits. *)
Definition py_int (s : str) : result Z :=
  let t := skip_int_space s in
  let '(sign, body) :=
    match t with
    | c :: r =>
        if eqc c (ascii_of_nat 45) then (-1, r)
        else if eqc c (ascii_of_nat 43) then (1, r)
        else (1, t)
    | [] => (1, t)
    end in
  match body with
  | [] => Raise ValueError
  | c :: _ =>
      if eqc c UNDERSCORE then Raise ValueError
      else
        match digits_value 0 0 false body with
        | Some (v, digits, rest) =>
            if digits =? 0 then Raise ValueError
            else if int_max_str_digits <? digits then Raise ValueError
            else match skip_int_space rest with
                 | [] => Ok (sign * v)
                 | _ :: _ => Raise ValueError
                 end
        | None => Raise ValueError
        end
  end.

(** [[int(_c) for _c in group.split(';')]] *)
Fixpoint ints (entries : list str) : result (list Z) :=
  match entries with
  | [] => Ok []
  | e :: rest =>
      match py_int e with
      | Raise x => Raise x
      | Ok v => match ints rest with
                | Raise x => Raise x
                | Ok vs => Ok (v :: vs)
                end
      end
  end.

Definition parse_codes (group : str) : result (list Z) :=
  ints (split_from [SEMICOLON] 0 group).

Inductive signal : Set := traceback_available.

(** The object [self.default_style.format] refers to: nothing, a format
    object of its own, or the very object [ansi_handler.current_format]
    (after [self.default_style.format = self.ansi_handler.get_format()]),
    which [set_style] updates in place. *)
Inductive format_ref : Set :=
| NoFormat
| OwnFormat (f : QTextCharFormat)
| HandlerFormat.

Record console : Set := {
  light_background : bool;
  ansi_handler : handler;
  default_style_format : format_ref;
  error_style_format : option QTextCharFormat;
  traceback_link_style_format : option QTextCharFormat;
  prompt_style_format : option QTextCharFormat;
  (** what [cursor.insertText] wrote since the last [clear], oldest first *)
  document : list (str * option QTextCharFormat);
  (** the argument of the last [setCurrentCharFormat] *)
  current_char_format : option QTextCharFormat;
  emitted : list signal
}.

Definition with_handler (h : handler) (w : console) : console :=
  {| light_background := light_background w;
     ansi_handler := h; default_style_format := default_style_format w;
     error_style_format := error_style_format w;
     traceback_link_style_format := traceback_link_style_format w;
     prompt_style_format := prompt_style_format w;
     document := document w;
     current_char_format := current_char_format w;
     emitted := emitted w |}.

Definition with_default (r : format_ref) (w : console) : console :=
  {| light_background := light_background w;
     ansi_handler := ansi_handler w; default_style_format := r;
     error_style_format := error_style_format w;
     traceback_link_style_format := traceback_link_style_format w;
     prompt_style_format := prompt_style_format w;
     document := document w;
     current_char_format := current_char_format w;
     emitted := emitted w |}.

Definition with_document (d : list (str * option QTextCharFormat))
           (w : console) : console :=
  {| light_background := light_background w;
     ansi_handler := ansi_handler w;
     default_style_format := default_style_format w;
     error_style_format := error_style_format w;
     traceback_link_style_format := traceback_link_style_format w;
     prompt_style_format := prompt_style_format w;
     document := d;
     current_char_format := current_char_format w;
     emitted := emitted w |}.

Definition with_char_format (f : option QTextCharFormat) (w : console)
  : console :=
  {| light_background := light_background w;
     ansi_handler := ansi_handler w;
     default_style_format := default_style_format w;
     error_style_format := error_style_format w;
     traceback_link_style_format := traceback_link_style_format w;
     prompt_style_format := prompt_style_format w;
     document := document w;
     current_char_format := f;
     emitted := emitted w |}.

Definition emit (sg : signal) (w : console) : console :=
  {| light_background := light_background w;
     ansi_handler := ansi_handler w;
     default_style_format := default_style_format w;
     error_style_format := error_style_format w;
     traceback_link_style_format := traceback_link_style_format w;
     prompt_style_format := prompt_style_format w;
     document := document w;
     current_char_format := current_char_format w;
     emitted := emitted w ++ [sg] |}.

(** The value of [self.default_style.format] now. *)
Definition default_format (w : console) : option QTextCharFormat :=
  match default_style_format w with
  | NoFormat => None
  | OwnFormat f => Some f
  | HandlerFormat => current_format (ansi_handler w)
  end.

(** [cursor.insertText(text, format)]: the run is appended with the value
    the format has at the call. *)
Definition insertText (text : str) (fmt : option QTextCharFormat)
  : M console unit :=
  modify (fun w => with_document (document w ++ [(text, fmt)]) w).

Definition insert_default (text : str) : M console unit :=
  w <~ get ;; insertText text (default_format w).

(** [self.clear()] *)
Definition clear (w : console) : console := with_document [] w.

(** A method of [self.ansi_handler] called from the widget. *)
Definition on_handler {A} (m : M handler A) : M console A :=
  fun w => match m (ansi_handler w) with
           | Return a h => Return a (with_handler h w)
           | Throw e h => Throw e (with_handler h w)
           end.

(** [self.default_style.format = self.ansi_handler.get_format()] *)
Definition take_handler_format : M console unit :=
  modify (fun w => match get_format (ansi_handler w) with
                   | Some _ => with_default HandlerFormat w
                   | None => with_default NoFormat w
                   end).

Fixpoint for_each {S A} (body : A -> M S unit) (l : list A) : M S unit :=
  match l with
  | [] => ret tt
  | a :: rest => body a ;;; for_each body rest
  end.

(** The body of [for match in self.COLOR_PATTERN.finditer(text)] with
    [last_end] threaded through; the result is the last [last_end]. *)
Fixpoint color_loop (text : str) (matches : list Match) (last_end : nat)
  : M console nat :=
  match matches with
  | [] => ret last_end
  | m :: rest =>
      insert_default (slice text last_end (m_start m)) ;;;
      codes <~ lift_result (parse_codes (m_group1 m)) ;;
      for_each (fun code => on_handler (set_code code)) codes ;;;
      take_handler_format ;;;
      color_loop text rest (m_end m)
  end.

(** The last branch of [append_text_to_shell], "Show other outputs". *)
Definition decode (text : str) : M console unit :=
  last_end <~ color_loop text (finditer text) 0 ;;
  insert_default (skipn last_end text).

(** [text.find(ch)] *)
Fixpoint find (ch : ascii) (text : str) : option nat :=
  match text with
  | [] => None
  | c :: rest =>
      if eqc c ch then Some 0%nat
      else match find ch rest with
           | Some i => Some (S i)
           | None => None
           end
  end.

(** The loop [while True: index = text.find(chr(12)) ...]; every round
    shortens the text, so [length text] rounds and one are enough. *)
Fixpoint form_feed_loop (fuel : nat) (text : str) (w : console)
  : str * console :=
  match fuel with
  | O => (text, w)
  | S fuel' =>
      match find FF text with
      | None => (text, w)
      | Some index =>
          form_feed_loop fuel' (skipn (index + 1) text) (clear w)
      end
  end.

(** A line boundary of [str.splitlines] at [c], given the text after it:
    a carriage return directly before a line feed is not one, the line
    feed after it is. *)
Definition ends_line (c : ascii) (after : str) : bool :=
  let n := nat_of_ascii c in
  if eqc c CR
  then match after with
       | d :: _ => negb (eqc d LF)
       | [] => true
       end
  else ((10 <=? n) && (n <=? 12))%nat || ((28 <=? n) && (n <=? 30))%nat
       || (n =? 133)%nat.

(** [text.splitlines(True)] *)
Fixpoint splitlines_keepends (s : str) : list str :=
  match s with
  | [] => []
  | c :: s' =>
      if ends_line c s' then [c] :: splitlines_keepends s'
      else match splitlines_keepends s' with
           | line :: lines => (c :: line) :: lines
           | [] => [[c]]
           end
  end.

(** Body of the loop of the [error] branch; the result tells whether the
    line is a traceback link. *)
Definition error_line (text : str) : M console bool :=
  w <~ get ;;
  if startswith (lit "  File") text
     && negb (startswith (lit "  File " ++ [DQUOTE; LESS]) text)
  then insert_default (lit "  ") ;;;
       insertText (skipn 2 text) (traceback_link_style_format w) ;;;
       ret true
  else insertText text (error_style_format w) ;;; ret false.

Fixpoint error_loop (lines : list str) (is_traceback : bool)
  : M console bool :=
  match lines with
  | [] => ret is_traceback
  | text :: rest =>
      t <~ error_line text ;;
      error_loop rest (is_traceback || t)
  end.

Definition append_text_to_shell (text : str) (error prompt : bool)
  : M console unit :=
  w <~ get ;;
  let '(text, w) := form_feed_loop (S (length text)) text w in
  modify (fun _ => w) ;;;
  (if error then
     is_traceback <~ error_loop (splitlines_keepends text) false ;;
     if is_traceback then modify (emit traceback_available) else ret tt
   else if prompt then
     insertText text (prompt_style_format w)
   else decode text) ;;;
  w' <~ get ;;
  modify (with_char_format (default_format w')).

(** [set_pythonshell_font]: every style gets a fresh format, and the
    handler the default style's as base format. *)
Definition set_pythonshell_font (font0 : option QFont) (w : console)
  : console :=
  let font0 := match font0 with
               | None => application_font
               | Some f => f
               end in
  let light := light_background w in
  {| light_background := light;
     ansi_handler :=
       set_base_format (Some (apply_style default_style font0 light true))
                       (ansi_handler w);
     default_style_format :=
       OwnFormat (apply_style default_style font0 light true);
     error_style_format := Some (apply_style error_style font0 light false);
     traceback_link_style_format :=
       Some (apply_style traceback_link_style font0 light false);
     prompt_style_format := Some (apply_style prompt_style font0 light false);
     document := document w;
     current_char_format := current_char_format w;
     emitted := emitted w |}.

(** [ConsoleBaseWidget.set_light_background] *)
Definition console_set_light_background (state : bool) (w : console)
  : console :=
  set_pythonshell_font
    None
    {| light_background := state;
       ansi_handler := set_light_background state (ansi_handler w);
       default_style_format := default_style_format w;
       error_style_format := error_style_format w;
       traceback_link_style_format := traceback_link_style_format w;
       prompt_style_format := prompt_style_format w;
       document := document w;
       current_char_format := current_char_format w;
       emitted := emitted w |}.

(** [ConsoleBaseWidget.__init__], where [h] is the handler as the base
    class's [__init__] leaves it. *)
Definition console_init (h : handler) : console :=
  set_pythonshell_font
    None
    {| light_background := true;
       ansi_handler := __init__ h;
       default_style_format := NoFormat;
       error_style_format := None;
       traceback_link_style_format := None;
       prompt_style_format := None;
       document := [];
       current_char_format := None;
       emitted := [] |}.

(** The state a call leaves behind, returned or raised. *)
Definition state_of {S A} (o : outcome S A) : S :=
match o with
| Return _ s => s
| Throw _ s => s
end.

(** ** The resolved style, in the words of the specification *)

(** [StyleAttributes] of the data model, resolved. *)
Record StyleAttributes : Set := {
  sa_foreground : QColor;
  sa_background : QColor;
  sa_bold : bool;
  sa_italic : bool;
  sa_underline : bool
}.

Definition style_of (f : QTextCharFormat) : StyleAttributes :=
{| sa_foreground := foreground f;
   sa_background := background f;
   sa_bold := font_bold (font f);
   sa_italic := font_italic (font f);
   sa_underline := font_underline (font f) |}.

(** [lookup(color_table, color, intensity)], the table indexed by
    [code - 30] or [code - 40]. *)
Definition lookup (h : handler) (color offset : Z) : option QColor :=
match py_nth (ANSI_COLORS h) (color - offset) with
| Ok entry =>
    match py_pair_nth entry (intensity h) with
    | Ok cstr => Some (ColorName cstr)
    | Raise _ => None
    end
| Raise _ => None
end.

(** Resolution (section 4.1): a colour that is set is looked up in the
    table, one that is not is inherited from the base style; bold, italic
    and underline are the explicit value if set, else the base style's. *)
Definition resolve (h : handler) (base : QTextCharFormat)
  : option StyleAttributes :=
match match foreground_color h with
      | None => Some (foreground base)
      | Some c => lookup h c 30
      end,
      match background_color h with
      | None => Some (background base)
      | Some c => lookup h c 40
      end with
| Some fg, Some bg =>
    Some {| sa_foreground := fg;
            sa_background := bg;
            sa_bold := match bold h with
                       | Some v => v
                       | None => font_bold (font base)
                       end;
            sa_italic := match italic h with
                         | Some v => v
                         | None => font_italic (font base)
                         end;
            sa_underline := match underline h with
                            | Some v => v
                            | None => font_underline (font base)
                            end |}
| _, _ => None
end.

(** The cached style is the resolution of the attributes as they are now
    against the base format as it is now. *)
Definition consistent (h : handler) : Prop :=
exists base cached,
  base_format h = Some base
  /\ get_format h = Some cached
  /\ resolve h base = Some (style_of cached).

(** The values of the data model (section 3): a table of eight hues, an
    intensity of 0 or 1, a foreground code in 30..37 and a background code
    in 40..47 when they are set. *)
Definition in_range (lo hi : Z) (v : option Z) : bool :=
match v with
| None => true
| Some c => (lo <=? c) && (c <=? hi)
end.

Definition well_formed (h : handler) : bool :=
(length (ANSI_COLORS h) =? 8)%nat
&& ((intensity h =? 0) || (intensity h =? 1))
&& in_range 30 37 (foreground_color h)
&& in_range 40 47 (background_color h).

(** The text strictly after the last occurrence of [ch]. *)
Fixpoint after_last (ch : ascii) (text : str) : str :=
match text with
| [] => []
| c :: rest =>
    if existsb (eqc ch) rest then after_last ch rest
    else if eqc c ch then rest else text
end.

(** ** Sample values *)

(** Modelled from the spec: the colour table [ANSI_COLORS] of
    [terminal.py], eight hues with a normal and a bright colour each.  The
    spec does not give the colours; these names stand in for them where an
    example needs a concrete handler. *)
Definition sample_colors : list (str * str) :=
[ (lit "#000000", lit "#808080"); (lit "#800000", lit "#ff0000");
  (lit "#008000", lit "#00ff00"); (lit "#808000", lit "#ffff00");
  (lit "#000080", lit "#0000ff"); (lit "#800080", lit "#ff00ff");
  (lit "#008080", lit "#00ffff"); (lit "#c0c0c0", lit "#ffffff") ].

(** The format [apply_style] builds on a light background for a style
    with a white background, as all four styles have. *)
Definition style_format (rgb : Z) (is_bold is_italic is_underline : bool)
  : QTextCharFormat :=
apply_style {| foregroundcolor := rgb; backgroundcolor := 0xFFFFFF;
               style_bold := is_bold; style_italic := is_italic;
               style_underline := is_underline |}
            application_font true false.

(** Modelled from the spec: the attributes after the [__init__] of the
    base class, nothing set and the defaults of a light background. *)
Definition sample_base : handler :=
{| ANSI_COLORS := sample_colors; intensity := 0;
   italic := None; bold := None; underline := None;
   foreground_color := None; background_color := None;
   default_foreground_color := 30; default_background_color := 47;
   base_format := None; current_format := None |}.

(** A handler fresh from [__init__], not yet given a base format. *)
Definition sample_handler : handler := __init__ sample_base.

(** A console fresh from [ConsoleBaseWidget.__init__]. *)
Definition sample_console : console := console_init sample_base.

(** The colour [set_style] gives the foreground and the background. *)
Definition foreground_choice (h : handler) (base : QTextCharFormat)
  : option QColor :=
match foreground_color h with
| None => Some (foreground base)
| Some c => lookup h c 30
end.

Definition background_choice (h : handler) (base : QTextCharFormat)
  : option QColor :=
match background_color h with
| None => Some (background base)
| Some c => lookup h c 40
end.

(** The format [set_style] leaves in [current_format] when it started from
    [cur] there and both colours were found. *)
Definition restyle (h : handler) (base cur : QTextCharFormat)
           (fg bg : QColor) : QTextCharFormat :=
let i := match italic h with
         | None => font_italic (font base)
         | Some v => v
         end in
let b := match bold h with
         | None => font_bold (font base)
         | Some v => v
         end in
let u := match underline h with
         | None => font_underline (font base)
         | Some v => v
         end in
setFont (setUnderline u (setBold b (setItalic i (font cur))))
        (setBackground bg (setForeground fg cur)).

(** The format [set_style] starts from: the cached one, else a copy of the
    base format. *)
Definition starting_format (h : handler) (base : QTextCharFormat)
  : QTextCharFormat :=
match current_format h with
| Some cur => cur
| None => base
end.

(** ** Predicates on states *)

(** [m] keeps [P]: the state it leaves behind, returned or raised, has [P]
    when the one it started from had. *)
Definition preserves {S A} (P : S -> Prop) (m : M S A) : Prop :=
forall s, P s -> P (state_of (m s)).

(** A handler that was given a base format and whose attributes have the
    values of the data model. *)
Definition ready (h : handler) : Prop :=
well_formed h = true /\ base_format h <> None.

(** Every parameter of the sequence is accepted by [int]. *)
Definition parses (m : Match) : Prop :=
exists codes, parse_codes (m_group1 m) = Ok codes.

(** What is left to do after the colour branch:
    [self.setCurrentCharFormat(self.default_style.format)], which a raised
    exception skips. *)
Definition finish (o : outcome console unit) : outcome console unit :=
match o with
| Return _ w => Return tt (with_char_format (default_format w) w)
| Throw e w => Throw e w
end.

(** The console after one round of the loop: the run before the sequence
  is in the document, the handler is [h'], and the default style refers
  to the handler's format. *)
Definition after_sequence (text : str) (m : Match) (last_end : nat)
         (h' : handler) (w : console) : console :=
with_default
  HandlerFormat
  (with_handler
     h'
     (with_document
        (document w ++ [(slice text last_end (m_start m), default_format w)])
        w)).

(** A console whose handler is ready and has a consistent cache. *)
Definition settled (w : console) : Prop :=
ready (ansi_handler w) /\ consistent (ansi_handler w).

(** ** The colour branch in one pass *)

(** The same branch, read from left to right without positions: [run]
    collects the characters since the last sequence, [skip] counts the
    characters of the last match still to be passed over.  The proofs use
    it in place of [decode], once the two are shown to agree. *)
Fixpoint stream (skip : nat) (run : str) (s : str) : M console unit :=
match s with
| [] => insert_default run
| c :: s' =>
    match skip with
    | S k => stream k run s'
    | O =>
        match COLOR_PATTERN_match s with
        | Some (n, g) =>
            insert_default run ;;;
            codes <~ lift_result (parse_codes g) ;;
            for_each (fun code => on_handler (set_code code)) codes ;;;
            take_handler_format ;;;
            stream (n - 1) [] s'
        | None => stream 0 (run ++ [c]) s'
        end
    end
end.

(** A soft marker, present or not. *)
Definition marker (present : bool) (c : ascii) : str :=
if present then [c] else [].

(** [ESC [ params m] with its soft markers. *)
Definition sequence (soh : bool) (params : str) (stx : bool) : str :=
marker soh SOH ++ ESC :: LBRACKET :: params ++ LETTER_m :: marker stx STX.

(** The characters [\x02?] takes after the [m]. *)
Definition stx_taken (rest : str) : nat :=
match rest with
| c :: _ => if eqc c STX then 1 else 0
| [] => 0
end.

(** How the pattern fares at one position of two texts that differ only
    in the markers of a later sequence: it matches in neither, or it
    matches the same characters within the first [limit] ones, or it
    matches in both with a group that holds an escape character. *)
Inductive same_match (limit : nat)
  : option (nat * str) -> option (nat * str) -> Prop :=
| same_none : same_match limit None None
| same_inside (n : nat) (g : str) :
    (n <= limit)%nat -> same_match limit (Some (n, g)) (Some (n, g))
| same_rejected (n1 : nat) (g1 : str) (n0 : nat) (g0 : str) :
    In ESC g1 -> In ESC g0 -> same_match limit (Some (n1, g1)) (Some (n0, g0)).

(** What the loop does at a sequence with group [g], after which [rest]
    is run: the pending run is inserted, the codes are parsed and applied,
    and the default style takes the handler's format. *)
Definition at_sequence (run g : str) (rest : M console unit)
  : M console unit :=
insert_default run ;;;
codes <~ lift_result (parse_codes g) ;;
for_each (fun code => on_handler (set_code code)) codes ;;;
take_handler_format ;;;
rest.

(** The parameters of the wire grammar [ESC [ <n>(;<n>)* m]: decimal
    digits and semicolons, an absent entry being allowed. *)
Definition sgr_params (g : str) : bool :=
forallb (fun c => is_digit c || eqc c SEMICOLON) g.

End Ansi.

(** ** get_selection_as_executable_code: the lines below a blank line *)

Module ReindentLines.

Import Py Reindent.

(** The indentation of the first line of [below] that is not blank, and
    0 when every line is blank: the value of [current_indent] when the
    bottom-up loop reaches the line above [below]. *)
Fixpoint indent_below (below : list str) : nat :=
  match below with
  | [] => 0
  | l :: rest => if nonblank l then _indent l else indent_below rest
  end.

(** The lines of a text that are not blank. *)
Definition code_lines (lines : list str) : list str := filter nonblank lines.

(** A line of the keyword scan, with the separators [lines[n-1] += ls]
    has put behind it. *)
Definition dressed (c : ascii) (l f : str) : Prop :=
  exists k, f = l ++ repeat c k.

(** What the loop over the lines keeps while it is at line [k]: the
    lines from [k-1] on are still those it started with, the flag is not
    set before the first line, and no continuation word is empty. *)
Definition scan_inv (lines : list str) (k : nat) (st : scan_state) : Prop :=
  length (lines_of st) = length lines
  /\ (forall i, k <= S i -> nth i (lines_of st) [] = nth i lines [])
  /\ (k = 0 -> maybe st = false)
  /\ mem [] (nextexcept st) = false.

(** The state of the loop [for n, line in enumerate(lines)] when it
    reaches line [k]: the lines before [k] have been visited. *)
Definition scan_upto (ls : str) (lines : list str) (k : nat) : scan_state :=
  fold_left (fun st n => scan_line ls n st) (seq 0 k)
            {| lines_of := lines; maybe := false; nextexcept := [] |}.

End ReindentLines.

(** ** TextEditBaseWidget: brace matching *)

Module Brace.

Import Py.
Local Open Scope Z_scope.

(** A call that returns or raises [KeyError]. *)
Inductive answer (A : Type) : Type :=
| Returns (a : A)
| RaisesKeyError.

Arguments Returns {A} a.
Arguments RaisesKeyError {A}.

(** [d[key]] on a dict written as a literal. *)
Fixpoint getitem (d : list (str * str)) (key : str) : answer str :=
  match d with
  | [] => RaisesKeyError
  | (k, v) :: rest => if str_eqb k key then Returns v else getitem rest key
  end.

(** The bounds of [str.find(sub, start, end)] and [str.rfind]: a negative
    index counts from the end, and both are cut to the text.  [None] is
    an argument left out. *)
Definition adjust_start (len : Z) (start : Z) : Z :=
  if start <? 0 then Z.max 0 (start + len) else start.

Definition adjust_end (len : Z) (stop : option Z) : Z :=
  match stop with
  | None => len
  | Some e => if len <? e then len
              else if e <? 0 then Z.max 0 (e + len) else e
  end.

(** The indices at which [sub] can begin within [text[start:stop]]. *)
Definition candidates (text sub : str) (start : Z) (stop : option Z)
  : list nat :=
  let len := Z.of_nat (length text) in
  let s := Z.to_nat (adjust_start len start) in
  let e := Z.to_nat (adjust_end len stop) in
  seq s (S e - (s + length sub)).

Definition occurs_at (text sub : str) (i : nat) : bool :=
  startswith sub (skipn i text).

(** [text.find(sub, start, stop)]: the lowest index, or [-1]. *)
Definition py_find (text sub : str) (start : Z) (stop : option Z) : Z :=
  match List.find (occurs_at text sub) (candidates text sub start stop) with
  | Some i => Z.of_nat i
  | None => -1
  end.

(** [text.rfind(sub, start, stop)]: the highest index, or [-1]. *)
Definition py_rfind (text sub : str) (start : Z) (stop : option Z) : Z :=
  match List.find (occurs_at text sub)
                  (rev (candidates text sub start stop)) with
  | Some i => Z.of_nat i
  | None => -1
  end.

Definition bracemap (forward : bool) : list (str * str) :=
  if forward
  then [(lit "(", lit ")"); (lit "[", lit "]"); (lit "{", lit "}")]
  else [(lit ")", lit "("); (lit "]", lit "["); (lit "}", lit "{")].

(** The body of [while True] and the loop.  [None] is a loop that has
    not ended within [fuel] rounds. *)
Fixpoint brace_loop (fuel : nat) (text : str) (position : Z) (brace : str)
         (forward : bool) (i_start_open i_start_close : Z)
  : option (answer (option Z)) :=
  match fuel with
  | O => None
  | S fuel' =>
      match getitem (bracemap forward) brace with
      | RaisesKeyError => Some RaisesKeyError
      | Returns other =>
          let i_close :=
            if forward then py_find text other i_start_close None
            else py_rfind text other 0 (Some (i_start_close + 1)) in
          if -1 <? i_close then
            let i_start_close :=
              if forward then i_close + 1 else i_close - 1 in
            let i_open :=
              if forward then py_find text brace i_start_open (Some i_close)
              else py_rfind text brace i_close (Some (i_start_open + 1)) in
            if -1 <? i_open then
              let i_start_open :=
                if forward then i_open + 1 else i_open - 1 in
              brace_loop fuel' text position brace forward
                         i_start_open i_start_close
            else
              Some (Returns (Some
                (if forward then position + i_close
                 else position - (Z.of_nat (length text) - i_close))))
          else Some (Returns None)
      end
  end.

(** [find_brace_match(position, brace, forward)].  [text] is what
    [self.get_text(position, end_pos)] returns when [forward] holds, and
    [self.get_text(start_pos, position)] otherwise.  Every round of the
    loop passes a character of [text], so that one round more than its
    length is enough. *)
Definition find_brace_match (text : str) (position : Z) (brace : str)
           (forward : bool) : option (answer (option Z)) :=
  let start := if forward then 1 else Z.of_nat (length text) - 1 in
  brace_loop (S (length text)) text position brace forward start start.

(** The number of [x] among [text[a:b]]. *)
Definition occurrences (x : ascii) (text : str) (a b : nat) : nat :=
  count_occ ascii_dec (firstn (b - a) (skipn a text)) x.

(** [text[i]] closes the brace [text[0]]: it is the first [c] behind it
    with as many [o] as [c] in between. *)
Definition closes (o c : ascii) (text : str) (i : nat) : Prop :=
  (1 <= i)%nat
  /\ nth_error text i = Some c
  /\ occurrences o text 1 i = occurrences c text 1 i
  /\ forall j, (1 <= j < i)%nat -> nth_error text j = Some c ->
               (occurrences c text 1 j < occurrences o text 1 j)%nat.

(** [text[i]] opens the brace that follows [text]: it is the last [o]
    with as many [c] as [o] behind it. *)
Definition opens (o c : ascii) (text : str) (i : nat) : Prop :=
  nth_error text i = Some o
  /\ occurrences c text (S i) (length text)
     = occurrences o text (S i) (length text)
  /\ forall j, (i < j)%nat -> nth_error text j = Some o ->
               (occurrences o text (S j) (length text)
                < occurrences c text (S j) (length text))%nat.

(** The pairs of braces. *)
Definition brace_pair (o c : ascii) : Prop :=
  ([o], [c]) = (lit "(", lit ")") \/ ([o], [c]) = (lit "[", lit "]")
  \/ ([o], [c]) = (lit "{", lit "}").

(** The lines of [cursor_position_changed] that choose the direction:
    [text] is the character before the cursor, [before] and [after] are
    the texts [find_brace_match] reads.  [None] is the bare [return]. *)
Definition cursor_brace_match (text : str) (pos1 : Z) (before after : str)
  : option (option (answer (option Z))) :=
  if mem text [lit ")"; lit "]"; lit "}"]
  then Some (find_brace_match before pos1 text false)
  else if mem text [lit "("; lit "["; lit "{"]
  then Some (find_brace_match after pos1 text true)
  else None.

End Brace.

(** ** TextEditBaseWidget: extra selections *)

Module Selections.

Import Py.

Section Editor.

(** [QTextEdit.ExtraSelection] *)
Variable Selection : Type.

(** The attribute [extra_selections_dict], as the list of its items in
    the order the dict yields them, and the list the widget was last
    given through [setExtraSelections]. *)
Record editor : Type := {
  extra_selections_dict : list (str * list Selection);
  extraSelections : list Selection
}.

(** [d.get(key, default)] *)
Fixpoint dict_get (d : list (str * list Selection)) (key : str)
         (default : list Selection) : list Selection :=
  match d with
  | [] => default
  | (k, v) :: rest => if str_eqb k key then v else dict_get rest key default
  end.

(** [d[key] = value]: the value of a key of the dict is replaced where
    it is, and a new key becomes the last item, as in a dict that keeps
    the order of insertion. *)
Fixpoint dict_set (d : list (str * list Selection)) (key : str)
         (value : list Selection) : list (str * list Selection) :=
  match d with
  | [] => [(key, value)]
  | (k, v) :: rest =>
      if str_eqb k key then (k, value) :: rest
      else (k, v) :: dict_set rest key value
  end.

Definition get_extra_selections (key : str) (w : editor) : list Selection :=
  dict_get (extra_selections_dict w) key [].

Definition set_extra_selections (key : str) (extra_selections : list Selection)
           (w : editor) : editor :=
  {| extra_selections_dict :=
       dict_set (extra_selections_dict w) key extra_selections;
     extraSelections := extraSelections w |}.

Definition current_line : str := lit "current_line".

(** The body of the loop of [update_extra_selections]. *)
Definition gather (extra_selections : list Selection)
           (item : str * list Selection) : list Selection :=
  let '(key, extra) := item in
  if str_eqb key current_line
  then extra ++ extra_selections
  else extra_selections ++ extra.

Definition update_extra_selections (w : editor) : editor :=
  {| extra_selections_dict := extra_selections_dict w;
     extraSelections := fold_left gather (extra_selections_dict w) [] |}.

Definition clear_extra_selections (key : str) (w : editor) : editor :=
  update_extra_selections (set_extra_selections key [] w).

(** [highlight_current_line]: [selection] is the selection it builds
    from the colour of the current line and the text cursor. *)
Definition highlight_current_line (selection : Selection) (w : editor)
  : editor :=
  update_extra_selections
    (set_extra_selections current_line [selection] w).

Definition unhighlight_current_line (w : editor) : editor :=
  clear_extra_selections current_line w.

(** The selections of the keys other than [key], in the order of the
    dict. *)
Definition others (key : str) (d : list (str * list Selection))
  : list Selection :=
  concat (map snd (filter (fun item => negb (str_eqb (fst item) key)) d)).

(** A dict has each key once. *)
Definition is_dict (d : list (str * list Selection)) : Prop :=
  NoDup (map fst d).

End Editor.

Arguments extra_selections_dict {Selection} e.
Arguments extraSelections {Selection} e.
Arguments dict_get {Selection} d key default.
Arguments dict_set {Selection} d key value.
Arguments get_extra_selections {Selection} key w.
Arguments set_extra_selections {Selection} key extra_selections w.
Arguments gather {Selection} extra_selections item.
Arguments update_extra_selections {Selection} w.
Arguments clear_extra_selections {Selection} key w.
Arguments highlight_current_line {Selection} selection w.
Arguments unhighlight_current_line {Selection} w.
Arguments others {Selection} key d.
Arguments is_dict {Selection} d.

End Selections.

(** ** CompletionWidget.update_current and show_completion_list *)

Module Completion.

Import Py.

(** [str.lower()] on the code points below 256: the letters [A]..[Z] and
    the capital letters of Latin-1, which are 192..222 without the
    multiplication sign 215. *)
Definition lower_char (c : ascii) : ascii :=
  let n := nat_of_ascii c in
  if ((65 <=? n) && (n <=? 90))
     || ((192 <=? n) && (n <=? 222) && negb (n =? 215))
  then ascii_of_nat (n + 32)
  else c.

Definition lower (s : str) : str := map lower_char s.

(** A call that returns or raises [TypeError]. *)
Inductive update_result (A : Type) : Type :=
| Updated (a : A)
| RaisesTypeError.

Arguments Updated {A} a.
Arguments RaisesTypeError {A}.

(** The completion widget and the attribute [completion_text] of its
    text editor.  [completion_list] is [None] until [show_list] sets it;
    [visible] and [textedit_focus] are what [hide] changes, [currentRow]
    what [setCurrentRow] sets. *)
Record completion_widget : Type := {
  completion_list : option (list str);
  case_sensitive : bool;
  currentRow : nat;
  visible : bool;
  textedit_focus : bool;
  completion_text : str
}.

(** [QListWidget.hide(self); self.textedit.setFocus()] *)
Definition hide (w : completion_widget) : completion_widget :=
  {| completion_list := completion_list w;
     case_sensitive := case_sensitive w;
     currentRow := currentRow w;
     visible := false;
     textedit_focus := true;
     completion_text := completion_text w |}.

Definition setCurrentRow (row : nat) (w : completion_widget)
  : completion_widget :=
  {| completion_list := completion_list w;
     case_sensitive := case_sensitive w;
     currentRow := row;
     visible := visible w;
     textedit_focus := textedit_focus w;
     completion_text := completion_text w |}.

(** The loop [for row, completion in enumerate(self.completion_list)];
    [completion_text] is assigned in its body.  [None] is the [else] of
    the loop, reached without [break]. *)
Fixpoint update_loop (case_sensitive : bool) (completion_text : str)
         (row : nat) (completions : list str) : option nat :=
  match completions with
  | [] => None
  | completion :: rest =>
      let completion :=
        if case_sensitive then completion else lower completion in
      let completion_text :=
        if case_sensitive then completion_text else lower completion_text in
      if startswith completion_text completion
      then Some row
      else update_loop case_sensitive completion_text (S row) rest
  end.

Definition update_current (w : completion_widget)
  : update_result completion_widget :=
  match completion_text w with
  | [] => Updated (hide w)
  | _ :: _ =>
      match completion_list w with
      | None => RaisesTypeError
      | Some completions =>
          match update_loop (case_sensitive w) (completion_text w) 0
                            completions with
          | Some row => Updated (setCurrentRow row w)
          | None => Updated (hide w)
          end
      end
  end.

(** The text the loop compares: lower case unless [case_sensitive]. *)
Definition folded (case_sensitive : bool) (s : str) : str :=
  if case_sensitive then s else lower s.

(** [completion] is a candidate for [text]. *)
Definition candidate (case_sensitive : bool) (text completion : str) : bool :=
  startswith (folded case_sensitive text) (folded case_sensitive completion).

(** [a < b] on [str]: the first code point that differs decides, and a
    proper prefix is smaller. *)
Fixpoint str_ltb (a b : str) : bool :=
  match a, b with
  | _, [] => false
  | [], _ :: _ => true
  | x :: a', y :: b' =>
      if nat_of_ascii x <? nat_of_ascii y then true
      else if nat_of_ascii y <? nat_of_ascii x then false
      else str_ltb a' b'
  end.

Section Sorting.

(** [py3compat.str_lower], the key of the two sorts: a function from text
    to text. *)
Variable str_lower : str -> str.

(** The order in which a set built from a list yields its elements. *)
Variable set_of : list str -> list str.

(** [sorted(xs, key=str_lower)]: a stable sort, written as the insertion
    of each element before the elements that came behind it; an element
    passes those with a smaller key only. *)
Fixpoint insert_sorted (x : str) (sorted_part : list str) : list str :=
  match sorted_part with
  | [] => [x]
  | y :: rest =>
      if str_ltb (str_lower y) (str_lower x)
      then y :: insert_sorted x rest
      else x :: y :: rest
  end.

Definition sorted (xs : list str) : list str :=
  fold_right insert_sorted [] xs.

Definition underscored (comp : str) : bool := startswith (lit "_") comp.

(** [completions == [completion_text]] *)
Definition is_only (completions : list str) (completion_text : str) : bool :=
  match completions with
  | [c] => str_eqb c completion_text
  | _ => false
  end.

(** [show_completion_list(completions, completion_text, automatic)] on
    the attribute [completion_text] of the editor: the new attribute and
    the list handed to [show_completion_widget], or [None] when the
    method returns before. *)
Definition show_completion_list (completions : list str)
           (completion_text : str) (self_completion_text : str)
  : str * option (list str) :=
  if (length completions =? 0) || is_only completions completion_text
  then (self_completion_text, None)
  else
    let underscore := filter underscored completions in
    let others := filter (fun comp => negb (mem comp underscore)) completions in
    (completion_text,
     Some (sorted (set_of others) ++ sorted (set_of underscore))).

(** The order of the keys: [a] is not behind a smaller key. *)
Definition key_le (a b : str) : Prop :=
  str_ltb (str_lower b) (str_lower a) = false.

End Sorting.

End Completion.

(** ** The text cursor: HOME key and selection of the shell *)

Module Cursor.

Import Py.
Local Open Scope Z_scope.

(** [QTextCursor], reduced to its anchor and its position. *)
Record QTextCursor : Set := {
  anchor : Z;
  position : Z
}.

Inductive MoveMode : Set := MoveAnchor | KeepAnchor.

(** [cursor.setPosition(pos, mode)] in a document whose last position is
    [last]: Qt warns and leaves the cursor as it is when [pos] is out of
    range. *)
Definition setPosition (last pos : Z) (mode : MoveMode) (c : QTextCursor)
  : QTextCursor :=
  if (pos <? 0) || (last <? pos) then c
  else match mode with
       | MoveAnchor => {| anchor := pos; position := pos |}
       | KeepAnchor => {| anchor := anchor c; position := pos |}
       end.

Definition selectionStart (c : QTextCursor) : Z :=
  Z.min (anchor c) (position c).

Definition selectionEnd (c : QTextCursor) : Z :=
  Z.max (anchor c) (position c).

(** [__get_move_mode] *)
Definition get_move_mode (shift : bool) : MoveMode :=
  if shift then KeepAnchor else MoveAnchor.

(** [self.moveCursor(QTextCursor.Start, move_mode)] *)
Definition moveCursor_Start (mode : MoveMode) (c : QTextCursor)
  : QTextCursor :=
  match mode with
  | MoveAnchor => {| anchor := 0; position := 0 |}
  | KeepAnchor => {| anchor := anchor c; position := 0 |}
  end.

(** [indent_pos = start_position+len(text)-len(text.lstrip())] *)
Definition indent_pos (start_position : Z) (text : str) : Z :=
  start_position + Z.of_nat (length text) - Z.of_nat (length (lstrip text)).

(** [stdkey_home(shift, ctrl, prompt_pos)] on the text cursor.
    [start_position] is what [self.get_position] returns for ['sol'] or
    for [prompt_pos], and [text] is
    [self.get_text(start_position, 'eol')]. *)
Definition stdkey_home (last start_position : Z) (text : str)
           (shift ctrl : bool) (cursor : QTextCursor) : QTextCursor :=
  let move_mode := get_move_mode shift in
  if ctrl then moveCursor_Start move_mode cursor
  else
    if negb (position cursor =? indent_pos start_position text)
    then setPosition last (indent_pos start_position text) move_mode cursor
    else setPosition last start_position move_mode cursor.

(** [set_selection(start, end)] *)
Definition set_selection (last start stop : Z) (cursor : QTextCursor)
  : QTextCursor :=
  setPosition last stop KeepAnchor (setPosition last start MoveAnchor cursor).

(** [truncate_selection(position_from)]; [position_from] is what
    [self.get_position(position_from)] returns. *)
Definition truncate_selection (last position_from : Z) (cursor : QTextCursor)
  : QTextCursor :=
  let start := selectionStart cursor in
  let stop := selectionEnd cursor in
  if start <? stop
  then set_selection last (Z.max position_from start) stop cursor
  else set_selection last start (Z.max position_from stop) cursor.

(** A cursor of a document whose last position is [last]. *)
Definition in_document (last : Z) (c : QTextCursor) : Prop :=
  0 <= anchor c <= last /\ 0 <= position c <= last.

End Cursor.

(** ** The console: error output and the text between sequences *)

Module Shell.

Import Py Ansi.

(** The test of the [error] branch: a line of a traceback that names a
    file. *)
Definition traceback_link (text : str) : bool :=
  startswith (lit "  File") text
  && negb (startswith (lit "  File " ++ [DQUOTE; LESS]) text).

(** The runs the [error] branch writes for the lines of a text, with the
    formats of the console [w]. *)
Definition error_runs (w : console) (lines : list str)
  : list (str * option QTextCharFormat) :=
  flat_map (fun text =>
              if traceback_link text
              then [(lit "  ", default_format w);
                    (skipn 2 text, traceback_link_style_format w)]
              else [(text, error_style_format w)])
           lines.

(** The runs of a text with a sequence behind each run but the last. *)
Fixpoint interleave (runs seqs : list str) : str :=
  match runs, seqs with
  | run :: runs', s :: seqs' => run ++ s ++ interleave runs' seqs'
  | run :: _, [] => run
  | [], _ => []
  end.

(** What the pattern matches: [ESC [ params m] with its soft markers,
    where [params] has no [m] and no line feed. *)
Definition is_sequence (s : str) : Prop :=
  exists soh params stx,
    s = sequence soh params stx
    /\ ~ In LETTER_m params /\ ~ In LF params.

End Shell.

(** * Properties *)

Module PyFacts.
Import Py.

Lemma eqc_true (a b : ascii) : eqc a b = true <-> a = b.
Proof. unfold eqc. apply Ascii.eqb_eq. Qed.

Lemma eqc_false (a b : ascii) : eqc a b = false <-> a <> b.
Proof. unfold eqc. apply Ascii.eqb_neq. Qed.

Lemma eqc_refl (a : ascii) : eqc a a = true.
Proof. apply eqc_true; reflexivity. Qed.

Lemma str_eqb_true (a b : str) : str_eqb a b = true <-> a = b.
Proof.
  unfold str_eqb. destruct (list_eq_dec ascii_dec a b); split; congruence.
Qed.

(** *** lstrip *)

Lemma lstrip_length (s : str) : length (lstrip s) <= length s.
Proof.
  induction s as [|c s IH]; simpl; [lia|].
  destruct (isspace c); simpl; lia.
Qed.

Lemma lstrip_spaces (c : ascii) (n : nat) (s : str) :
  isspace c = true -> lstrip (repeat c n ++ s) = lstrip s.
Proof.
  intros Hc. induction n as [|n IH]; simpl; [reflexivity|].
  rewrite Hc. exact IH.
Qed.

Lemma lstrip_head (s : str) (c : ascii) (t : str) :
  lstrip s = c :: t -> isspace c = false.
Proof.
  induction s as [|a s IH]; simpl; [discriminate|].
  destruct (isspace a) eqn:Ha; [exact IH|].
  intros E. injection E as -> _. exact Ha.
Qed.

Lemma lstrip_skipn (n : nat) (s : str) :
  n <= length s - length (lstrip s) -> lstrip (skipn n s) = lstrip s.
Proof.
  revert n. induction s as [|c s IH]; intros n Hn.
  - destruct n; reflexivity.
  - destruct n as [|n]; [reflexivity|].
    cbn [lstrip skipn length] in *.
    revert Hn. destruct (isspace c) eqn:Hc; cbn [length]; intros Hn.
    + apply IH. pose proof (lstrip_length s). lia.
    + lia.
Qed.

Lemma lstrip_snoc_nonspace (s : str) (c : ascii) :
  isspace c = false -> lstrip (s ++ [c]) <> [].
Proof.
  intros Hc. induction s as [|a s IH]; simpl.
  - rewrite Hc. discriminate.
  - destruct (isspace a); [exact IH|discriminate].
Qed.

Lemma strip_nil_iff (s : str) : strip s = [] <-> lstrip s = [].
Proof.
  unfold strip, rstrip. split.
  - intros E. destruct (lstrip s) as [|c t] eqn:El; [reflexivity|].
    exfalso.
    assert (Hc : isspace c = false) by exact (lstrip_head _ _ _ El).
    apply (f_equal (@rev _)) in E. rewrite rev_involutive in E.
    simpl in E. exact (lstrip_snoc_nonspace (rev t) c Hc E).
  - intros ->. reflexivity.
Qed.

(** *** startswith *)

Lemma startswith_app (p s : str) :
  startswith p s = true -> s = p ++ skipn (length p) s.
Proof.
  revert s. induction p as [|a p IH]; intros s H; [reflexivity|].
  destruct s as [|b s]; [discriminate|]. simpl in H.
  apply andb_true_iff in H as [Hab H]. apply eqc_true in Hab. subst b.
  simpl. f_equal. apply IH, H.
Qed.

Lemma startswith_same (p s : str) : startswith p (p ++ s) = true.
Proof.
  induction p as [|a p IH]; [reflexivity|]. simpl.
  rewrite eqc_refl. exact IH.
Qed.

Lemma startswith_long (p t r : str) :
  length p <= length t -> startswith p (t ++ r) = startswith p t.
Proof.
  revert t. induction p as [|a p IH]; intros t H; [reflexivity|].
  destruct t as [|b t]; [simpl in H; lia|]. simpl.
  rewrite IH by (simpl in H; lia). reflexivity.
Qed.

Lemma startswith_app_same (a p s : str) :
  startswith (a ++ p) (a ++ s) = startswith p s.
Proof.
  induction a as [|c a IH]; [reflexivity|]. simpl.
  rewrite eqc_refl. exact IH.
Qed.

(** *** split *)

Lemma split_from_skip (sep : str) (k : nat) (s : str) :
  split_from sep k s = split_from sep 0 (skipn k s).
Proof.
  revert k. induction s as [|c s IH]; intros [|k]; try reflexivity.
  simpl. apply IH.
Qed.

Lemma split_from_nonempty (sep : str) (k : nat) (s : str) :
  split_from sep k s <> [].
Proof.
  revert k. induction s as [|c s IH]; intros k; [discriminate|].
  simpl. destruct k as [|k]; [|apply IH].
  destruct (startswith sep (c :: s)); [discriminate|].
  destruct (split_from sep 0 s); discriminate.
Qed.

(** One step of the search for the separator. *)
Lemma split_step (sep : str) (c : ascii) (s : str) :
  sep <> [] ->
  split_from sep 0 (c :: s)
  = if startswith sep (c :: s)
    then [] :: split_from sep 0 (skipn (length sep) (c :: s))
    else match split_from sep 0 s with
         | piece :: pieces => (c :: piece) :: pieces
         | [] => [[c]]
         end.
Proof.
  intros Hsep. cbn [split_from].
  destruct (startswith sep (c :: s)); [|reflexivity].
  rewrite split_from_skip. destruct sep as [|a sep]; [congruence|].
  replace (length (a :: sep) - 1) with (length sep) by (simpl; lia).
  reflexivity.
Qed.

Lemma split_at_sep (sep s : str) :
  sep <> [] ->
  split_from sep 0 (sep ++ s) = [] :: split_from sep 0 s.
Proof.
  intros Hsep. destruct (sep ++ s) as [|c t] eqn:E.
  - apply app_eq_nil in E as [E _]. congruence.
  - rewrite split_step by exact Hsep. rewrite <- E.
    rewrite startswith_same, skipn_app, skipn_all, Nat.sub_diag. reflexivity.
Qed.

Lemma clear_before_tail (sep : str) (a : ascii) (p t : str) :
  clear_before sep (a :: p) t ->
  startswith sep (a :: p ++ t) = false /\ clear_before sep p t.
Proof.
  intros H. split.
  - apply (H 0). simpl. lia.
  - intros i Hi. apply (H (S i)). simpl. lia.
Qed.

Lemma clear_before_cons (sep : str) (a : ascii) (p t : str) :
  startswith sep (a :: p ++ t) = false -> clear_before sep p t ->
  clear_before sep (a :: p) t.
Proof.
  intros H0 H [|i] Hi; [exact H0|]. apply H. simpl in Hi. lia.
Qed.

Lemma clear_before_long (sep p t r : str) :
  length sep <= length t ->
  clear_before sep p t -> clear_before sep p (t ++ r).
Proof.
  intros Hlen H i Hi. rewrite app_assoc, skipn_app.
  replace (i - length (p ++ t)) with 0 by (rewrite length_app; lia).
  rewrite startswith_long; [apply H, Hi|].
  rewrite length_skipn, length_app. lia.
Qed.

(** A piece before which no occurrence begins is split off whole. *)
Lemma split_prefix (sep p s : str) :
  sep <> [] ->
  clear_before sep p s ->
  split_from sep 0 (p ++ s)
  = match split_from sep 0 s with
    | x :: xs => (p ++ x) :: xs
    | [] => [p]
    end.
Proof.
  intros Hsep. induction p as [|a p IH]; intros Hp.
  - simpl app. destruct (split_from sep 0 s) eqn:E; [|reflexivity].
    exfalso. exact (split_from_nonempty _ _ _ E).
  - apply clear_before_tail in Hp as [H0 Hp].
    change ((a :: p) ++ s) with (a :: (p ++ s)).
    rewrite split_step, H0, IH by assumption.
    destruct (split_from sep 0 s); reflexivity.
Qed.

(** [sep.join(text.split(sep)) == text] *)
Lemma join_split (sep s : str) :
  sep <> [] -> join sep (split_from sep 0 s) = s.
Proof.
  intros Hsep.
  assert (H : forall n s, length s <= n ->
                          join sep (split_from sep 0 s) = s).
  { clear s. induction n as [|n IH]; intros s Hn.
    - destruct s; [reflexivity|simpl in Hn; lia].
    - destruct s as [|c s]; [reflexivity|].
      rewrite split_step by exact Hsep.
      destruct (startswith sep (c :: s)) eqn:E.
      + pose proof (split_from_nonempty sep 0
                      (skipn (length sep) (c :: s))) as Hne.
        assert (Hlen : length (skipn (length sep) (c :: s)) <= n).
        { rewrite length_skipn. destruct sep; [congruence|].
          simpl in *. lia. }
        apply IH in Hlen.
        destruct (split_from sep 0 (skipn (length sep) (c :: s)))
          as [|q qs]; [congruence|].
        change (join sep ([] :: q :: qs)) with (sep ++ join sep (q :: qs)).
        rewrite Hlen. symmetry. apply startswith_app, E.
      + assert (Hlen : length s <= n) by (simpl in Hn; lia).
        apply IH in Hlen.
        pose proof (split_from_nonempty sep 0 s) as Hne.
        destruct (split_from sep 0 s) as [|q qs]; [congruence|].
        destruct qs as [|q2 qs]; simpl in *; congruence. }
  apply (H (length s)). lia.
Qed.

Lemma join_cons_app (sep x p : str) (rest : list str) :
  x ++ join sep (p :: rest) = join sep ((x ++ p) :: rest).
Proof.
  destruct rest as [|q rest]; [reflexivity|].
  change (join sep (p :: q :: rest)) with (p ++ sep ++ join sep (q :: rest)).
  change (join sep ((x ++ p) :: q :: rest))
    with ((x ++ p) ++ sep ++ join sep (q :: rest)).
  rewrite app_assoc. reflexivity.
Qed.

(** The search from the left finds as many separators as any way of
    writing the text as joined pieces has. *)
Lemma split_join_count (sep : str) (pieces : list str) :
  sep <> [] ->
  length pieces <= length (split_from sep 0 (join sep pieces)).
Proof.
  intros Hsep.
  assert (H : forall n s pieces,
             length s <= n -> s = join sep pieces ->
             length pieces <= length (split_from sep 0 s)).
  { clear pieces. induction n as [|n IH]; intros s pieces Hn Hs.
    - destruct s; [|simpl in Hn; lia].
      destruct pieces as [|p [|q rest]]; simpl; try lia.
      exfalso. change (join sep (p :: q :: rest))
        with (p ++ sep ++ join sep (q :: rest)) in Hs.
      symmetry in Hs. apply app_eq_nil in Hs as [_ Hs].
      apply app_eq_nil in Hs as [Hs _]. congruence.
    - destruct s as [|c s].
      { destruct pieces as [|p [|q rest]]; simpl; try lia.
        exfalso. change (join sep (p :: q :: rest))
          with (p ++ sep ++ join sep (q :: rest)) in Hs.
        symmetry in Hs. apply app_eq_nil in Hs as [_ Hs].
        apply app_eq_nil in Hs as [Hs _]. congruence. }
      pose proof (split_from_nonempty sep 0 (c :: s)) as Hne.
      destruct pieces as [|p [|q rest]].
      { simpl. lia. }
      { destruct (split_from sep 0 (c :: s)); [congruence|simpl; lia]. }
      change (join sep (p :: q :: rest))
        with (p ++ sep ++ join sep (q :: rest)) in Hs.
      rewrite split_step by exact Hsep.
      destruct (startswith sep (c :: s)) eqn:E.
      + (* the leftmost separator is cut out *)
        assert (Hlen : length (skipn (length sep) (c :: s)) <= n).
        { rewrite length_skipn. destruct sep; [congruence|].
          simpl in *. lia. }
        cbn [length].
        destruct (Nat.le_gt_cases (length sep) (length p)) as [Hp|Hp].
        * specialize (IH (skipn (length sep) (c :: s))
                         (skipn (length sep) p :: q :: rest) Hlen).
          cbn [length] in IH. apply Nat.le_le_succ_r, IH.
          rewrite Hs, skipn_app.
          replace (length sep - length p) with 0 by lia. reflexivity.
        * specialize (IH (skipn (length sep) (c :: s))
                         ((skipn (length sep - length p) sep ++ q) :: rest)
                         Hlen).
          cbn [length] in IH. apply le_n_S, IH.
          rewrite Hs, skipn_app, (skipn_all2 p) by lia.
          rewrite skipn_app.
          replace (length sep - length p - length sep) with 0 by lia.
          cbn [skipn app]. rewrite <- join_cons_app. reflexivity.
      + (* one character is passed over *)
        assert (Hlen : length s <= n) by (simpl in Hn; lia).
        destruct p as [|a p].
        { exfalso. simpl in Hs. rewrite Hs, startswith_same in E.
          discriminate. }
        injection Hs as -> Hs.
        specialize (IH s (p :: q :: rest) Hlen Hs).
        pose proof (split_from_nonempty sep 0 s) as Hne2.
        destruct (split_from sep 0 s); [congruence|exact IH]. }
  apply (H (length (join sep pieces))); [lia|reflexivity].
Qed.

(** Text put before a text does not lower the number of its lines. *)
Lemma line_count_prefix (sep x s : str) :
  sep <> [] ->
  length (split_from sep 0 s) <= length (split_from sep 0 (x ++ s)).
Proof.
  intros Hsep. rewrite <- (join_split sep s Hsep) at 2.
  pose proof (split_from_nonempty sep 0 s) as Hne.
  destruct (split_from sep 0 s) as [|p rest]; [congruence|].
  rewrite join_cons_app.
  exact (split_join_count sep ((x ++ p) :: rest) Hsep).
Qed.

(** *** Pieces that are split as they were joined *)

Lemma pieces_ok_cons (sep p : str) (rest : list str) :
  rest <> [] -> clear_before sep p sep -> pieces_ok sep rest ->
  pieces_ok sep (p :: rest).
Proof. destruct rest; [congruence|]. intros _ H1 H2. split; assumption. Qed.

Lemma pieces_ok_tail (sep p : str) (rest : list str) :
  pieces_ok sep (p :: rest) -> pieces_ok sep rest.
Proof. destruct rest; [intros _; exact I|]. intros [_ H]. exact H. Qed.

Lemma pieces_ok_skipn (sep : str) (n : nat) (pieces : list str) :
  pieces_ok sep pieces -> pieces_ok sep (skipn n pieces).
Proof.
  revert pieces. induction n as [|n IH]; intros pieces H; [exact H|].
  destruct pieces as [|p rest]; [exact H|]. simpl.
  apply IH. exact (pieces_ok_tail _ _ _ H).
Qed.

Lemma split_join_ok (sep : str) (pieces : list str) :
  sep <> [] -> pieces <> [] -> pieces_ok sep pieces ->
  split_from sep 0 (join sep pieces) = pieces.
Proof.
  intros Hsep. induction pieces as [|p rest IH]; intros Hne Hok; [congruence|].
  destruct rest as [|q rest].
  - simpl join. rewrite <- (app_nil_r p) at 1.
    rewrite split_prefix by assumption. simpl. rewrite app_nil_r.
    reflexivity.
  - destruct Hok as [Hp Hok].
    change (join sep (p :: q :: rest))
      with (p ++ sep ++ join sep (q :: rest)).
    rewrite split_prefix.
    + rewrite split_at_sep, IH by (assumption || discriminate).
      rewrite app_nil_r. reflexivity.
    + exact Hsep.
    + apply clear_before_long; [lia|exact Hp].
Qed.

Lemma split_pieces_ok (sep s : str) :
  sep <> [] -> pieces_ok sep (split_from sep 0 s).
Proof.
  intros Hsep.
  assert (H : forall n s, length s <= n -> pieces_ok sep (split_from sep 0 s)).
  { clear s. induction n as [|n IH]; intros s Hn.
    - destruct s; [|simpl in Hn; lia]. simpl. intros i Hi. simpl in Hi. lia.
    - destruct s as [|c s].
      { simpl. intros i Hi. simpl in Hi. lia. }
      pose proof (join_split sep (c :: s) Hsep) as Hjoin.
      rewrite split_step in * by exact Hsep.
      destruct (startswith sep (c :: s)) eqn:E.
      + apply pieces_ok_cons.
        * apply split_from_nonempty.
        * intros i Hi. simpl in Hi. lia.
        * apply IH. rewrite length_skipn. destruct sep; [congruence|].
          simpl in *. lia.
      + assert (Hlen : length s <= n) by (simpl in Hn; lia).
        apply IH in Hlen.
        pose proof (split_from_nonempty sep 0 s) as Hne.
        destruct (split_from sep 0 s) as [|q qs]; [congruence|].
        destruct qs as [|q2 qs].
        * simpl in Hjoin. injection Hjoin as Hq. subst q.
          simpl in *. apply clear_before_cons; [|exact Hlen].
          rewrite app_nil_r. exact E.
        * destruct Hlen as [Hq Hrest]. split; [|exact Hrest].
          apply clear_before_cons; [|exact Hq].
          change (join sep ((c :: q) :: q2 :: qs))
            with (c :: q ++ sep ++ join sep (q2 :: qs)) in Hjoin.
          rewrite <- Hjoin in E.
          change (c :: q ++ sep ++ join sep (q2 :: qs))
            with ((c :: q) ++ sep ++ join sep (q2 :: qs)) in E.
          rewrite app_assoc, startswith_long in E; [exact E|].
          rewrite length_app. simpl. lia. }
  apply (H (length s)). lia.
Qed.

Lemma pieces_ok_pointwise (sep : str) (P : str -> Prop)
      (xs ys : list str) :
  (forall y, P y -> clear_before sep y sep) ->
  (forall y, P y -> clear_before sep y []) ->
  Forall2 (fun x y => y = x \/ P y) xs ys ->
  pieces_ok sep xs -> pieces_ok sep ys.
Proof.
  intros HP1 HP2 H.
  induction H as [|x y xs ys Hxy H IH]; intros Hok; [exact I|].
  destruct H as [|x2 y2 xs ys Hxy2 H].
  - simpl in *. destruct Hxy as [->|Hy]; [exact Hok|apply HP2, Hy].
  - destruct Hok as [Hx Hok]. split; [|apply IH, Hok].
    destruct Hxy as [->|Hy]; [exact Hx|apply HP1, Hy].
Qed.

(** *** Runs of one character *)

Lemma skipn_repeat_app (a : ascii) (k i : nat) (t : str) :
  i <= k -> skipn i (repeat a k ++ t) = repeat a (k - i) ++ t.
Proof.
  revert i. induction k as [|k IH]; intros [|i] Hi; try reflexivity; [lia|].
  simpl. apply IH. lia.
Qed.

Lemma first_other_char (a : ascii) (sep : str) :
  (exists c, In c sep /\ c <> a) ->
  exists j c r, sep = repeat a j ++ c :: r /\ c <> a.
Proof.
  induction sep as [|b sep IH]; intros (c & Hin & Hc); [destruct Hin|].
  destruct (ascii_dec b a) as [->|Hb].
  - destruct Hin as [->|Hin]; [congruence|].
    destruct IH as (j & c' & r & -> & Hc'); [exists c; auto|].
    exists (S j), c', r. auto.
  - exists 0, b, sep. auto.
Qed.

(** A run of [a] before a separator that does not begin with [a]. *)
Lemma clear_before_run_head (a c : ascii) (r : str) (k : nat) (t : str) :
  c <> a -> clear_before (c :: r) (repeat a k) t.
Proof.
  intros Hc i Hi. rewrite repeat_length in Hi.
  rewrite skipn_repeat_app by lia.
  destruct (k - i) as [|m] eqn:E; [lia|]. simpl.
  replace (eqc c a) with false by (symmetry; apply eqc_false, Hc).
  reflexivity.
Qed.

(** A run of [a] before a separator that has another character. *)
Lemma clear_before_run_sep (a : ascii) (sep : str) (k : nat) :
  (exists c, In c sep /\ c <> a) -> clear_before sep (repeat a k) sep.
Proof.
  intros H. destruct (first_other_char a sep H) as (j & c & r & E & Hc).
  intros i Hi. rewrite repeat_length in Hi.
  rewrite skipn_repeat_app by lia. rewrite E at 2.
  rewrite app_assoc, <- repeat_app, Nat.add_comm, repeat_app, <- app_assoc.
  rewrite E, startswith_app_same.
  destruct (k - i) as [|m] eqn:Ek; [lia|]. simpl.
  replace (eqc c a) with false by (symmetry; apply eqc_false, Hc).
  reflexivity.
Qed.

Lemma startswith_run (a c : ascii) (j n : nat) (r : str) :
  c <> a -> startswith (repeat a j ++ c :: r) (repeat a n) = false.
Proof.
  intros Hc. revert n. induction j as [|j IH]; intros [|n]; simpl;
    try reflexivity.
  - replace (eqc c a) with false by (symmetry; apply eqc_false, Hc).
    reflexivity.
  - rewrite IH. apply andb_false_r.
Qed.

Lemma clear_before_run_nil (a : ascii) (sep : str) (k : nat) :
  (exists c, In c sep /\ c <> a) -> clear_before sep (repeat a k) [].
Proof.
  intros H. destruct (first_other_char a sep H) as (j & c & r & E & Hc).
  intros i Hi. rewrite repeat_length in Hi.
  rewrite skipn_repeat_app, app_nil_r, E by lia.
  apply startswith_run, Hc.
Qed.

End PyFacts.

Module ReindentFacts.
Import Py PyFacts Reindent.

Lemma nonblank_false_iff (l : str) : nonblank l = false <-> lstrip l = [].
Proof.
  unfold nonblank. rewrite <- strip_nil_iff.
  destruct (strip l); split; intros; congruence.
Qed.

Lemma lstrip_nil_skipn (n : nat) (l : str) :
  lstrip l = [] -> lstrip (skipn n l) = [].
Proof.
  revert n. induction l as [|c l IH]; intros [|n] H; try exact H; try reflexivity.
  simpl in *. destruct (isspace c); [apply IH; exact H|discriminate].
Qed.

Lemma lstrip_times_space (n : nat) : lstrip (times SPACE n) = [].
Proof.
  unfold times. rewrite <- (app_nil_r (repeat SPACE n)).
  rewrite lstrip_spaces; reflexivity.
Qed.

Lemma blank_or_comment_blank (l : str) :
  lstrip l = [] -> blank_or_comment l = true.
Proof. unfold blank_or_comment. intros ->. reflexivity. Qed.

Lemma scanned_le (m m' : nat) (l : str) :
  m' <= m -> scanned m l -> scanned m' l.
Proof. unfold scanned. intros Hm [H|H]; [left; exact H|right; lia]. Qed.

Lemma indent_scan_scanned (lines : list str) :
  Forall (scanned (fst (fst (indent_scan lines)))) (snd (indent_scan lines)).
Proof.
  induction lines as [|l below IH]; simpl; [constructor|].
  destruct (indent_scan below) as [[mi ci] below'] eqn:E. simpl in IH.
  destruct (nonblank l) eqn:Hl; simpl.
  - constructor.
    + right. lia.
    + eapply Forall_impl; [|exact IH].
      intros a. apply scanned_le. lia.
  - constructor; [|exact IH].
    left. apply lstrip_times_space.
Qed.

Lemma indent_scan_junk (lines : list str) :
  map blank_or_comment (snd (indent_scan lines)) = map blank_or_comment lines.
Proof.
  induction lines as [|l below IH]; simpl; [reflexivity|].
  destruct (indent_scan below) as [[mi ci] below'] eqn:E. simpl in IH.
  destruct (nonblank l) eqn:Hl; simpl; rewrite IH; [reflexivity|].
  f_equal. apply nonblank_false_iff in Hl.
  rewrite (blank_or_comment_blank _ Hl).
  apply blank_or_comment_blank, lstrip_times_space.
Qed.

Lemma scanned_slice_junk (m : nat) (l : str) :
  scanned m l -> blank_or_comment (slice_from m l) = blank_or_comment l.
Proof.
  unfold blank_or_comment, slice_from, scanned, _indent.
  intros [H|H].
  - rewrite (lstrip_nil_skipn m _ H), H. reflexivity.
  - rewrite lstrip_skipn by exact H. reflexivity.
Qed.

Lemma dedent_junk (m : nat) (lines : list str) :
  Forall (scanned m) lines ->
  map blank_or_comment (dedent m lines) = map blank_or_comment lines.
Proof.
  intros H. unfold dedent. destruct m as [|m]; [reflexivity|].
  rewrite map_map. apply map_ext_Forall.
  eapply Forall_impl; [|exact H]. intros a. apply scanned_slice_junk.
Qed.

Lemma drop_leading_all_junk (lines : list str) :
  Forall (fun l => blank_or_comment l = true) lines ->
  drop_leading lines = Raise IndexError.
Proof.
  induction 1 as [|l lines Hl _ IH]; simpl; [reflexivity|].
  rewrite Hl. exact IH.
Qed.

Lemma junk_transport (xs ys : list str) :
  map blank_or_comment xs = map blank_or_comment ys ->
  Forall (fun l => blank_or_comment l = true) ys ->
  Forall (fun l => blank_or_comment l = true) xs.
Proof.
  revert ys. induction xs as [|x xs IH]; intros [|y ys] E H;
    try discriminate; constructor; inversion H; subst; simpl in E;
    injection E as E1 E2.
  - congruence.
  - eapply IH; eassumption.
Qed.

(** *** The keyword scan *)

Lemma append_at_length (i : nat) (ls : str) (lines : list str) :
  length (append_at i ls lines) = length lines.
Proof.
  revert i. induction lines as [|l lines IH]; intros [|i]; simpl; auto.
Qed.

Lemma append_at_same (i : nat) (ls prev : str) (lines : list str) :
  nth_error lines i = Some prev ->
  nth_error (append_at i ls lines) i = Some (prev ++ ls).
Proof.
  revert i. induction lines as [|l lines IH]; intros [|i]; simpl;
    try discriminate.
  - intros [= ->]. reflexivity.
  - apply IH.
Qed.

Lemma append_at_other (i k : nat) (ls : str) (lines : list str) :
  k <> i -> nth_error (append_at i ls lines) k = nth_error lines k.
Proof.
  revert i k. induction lines as [|l lines IH]; intros [|i] [|k] H; simpl;
    try reflexivity; try congruence.
  apply IH. congruence.
Qed.

Lemma open_block_sets_flag (word : str) (st : scan_state) :
  opens_block word = true ->
  open_block word st
  = {| lines_of := lines_of st; maybe := true;
       nextexcept := allowed_continuations word |}.
Proof.
  unfold opens_block, open_block, allowed_continuations. intros H.
  destruct word as [|c word]; [discriminate|].
  destruct (mem (c :: word) _) eqn:Hmem;
    destruct (str_eqb (c :: word) (lit "if")) eqn:Hif;
    destruct (str_eqb (c :: word) (lit "try")) eqn:Htry;
    try discriminate; try reflexivity;
    try (apply str_eqb_true in Hif; rewrite Hif in Hmem; discriminate);
    apply str_eqb_true in Htry; rewrite Htry in Hmem; discriminate.
Qed.

(** *** Splitting at a one-character separator *)

Lemma split1_cons (c a : ascii) (s : str) :
  split_from [c] 0 (a :: s)
  = if eqc c a then [] :: split_from [c] 0 s
    else match split_from [c] 0 s with
         | piece :: pieces => (a :: piece) :: pieces
         | [] => [[a]]
         end.
Proof. simpl. rewrite andb_true_r. reflexivity. Qed.

Lemma split1_nonempty (c : ascii) (s : str) : split_from [c] 0 s <> [].
Proof.
  induction s as [|a s IH]; [discriminate|].
  rewrite split1_cons. destruct (eqc c a); [discriminate|].
  destruct (split_from [c] 0 s); discriminate.
Qed.

Lemma split1_free (c : ascii) (s : str) :
  Forall (fun p => ~ In c p) (split_from [c] 0 s).
Proof.
  induction s as [|a s IH]; [repeat constructor; intros []|].
  rewrite split1_cons. destruct (eqc c a) eqn:E.
  - constructor; [intros []|exact IH].
  - apply eqc_false in E.
    destruct (split_from [c] 0 s) as [|p ps].
    + repeat constructor. intros [H|[]]. congruence.
    + inversion IH; subst. constructor; [|assumption].
      intros [H|H]; [congruence|contradiction].
Qed.

Lemma split1_prefix (c : ascii) (p s : str) :
  ~ In c p ->
  split_from [c] 0 (p ++ s)
  = match split_from [c] 0 s with
    | x :: xs => (p ++ x) :: xs
    | [] => [p]
    end.
Proof.
  induction p as [|a p IH]; intros Hp.
  - simpl app. destruct (split_from [c] 0 s) eqn:E; [|reflexivity].
    exfalso. exact (split1_nonempty _ _ E).
  - change ((a :: p) ++ s) with (a :: (p ++ s)). rewrite split1_cons.
    assert (Ha : eqc c a = false).
    { apply eqc_false. intros ->. apply Hp. left; reflexivity. }
    rewrite Ha, IH by (intros H; apply Hp; right; exact H).
    destruct (split_from [c] 0 s); reflexivity.
Qed.

(** *** Line counts through the stages of the method *)

Lemma times_space_free (c : ascii) (k : nat) :
  c <> SPACE -> ~ In c (times SPACE k).
Proof.
  intros Hc H. apply repeat_spec in H. congruence.
Qed.

Lemma selected_lines_one_char (c : ascii) (text_line_from text : str) :
  c <> SPACE ->
  exists k,
    selected_lines [c] text_line_from text
    = Ok (pad_first k (split_from [c] 0 text))
    /\ k = (if 1 <? length (split_from [c] 0 text)
            then _indent text_line_from
                 - _indent (nth 0 (split_from [c] 0 text) [])
            else 0).
Proof.
  intros Hc. unfold selected_lines. simpl bind.
  destruct (1 <? length (split_from [c] 0 text)) eqn:E.
  - eexists; split; [|reflexivity].
    rewrite split1_prefix by (apply times_space_free; exact Hc).
    unfold pad_first. destruct (split_from [c] 0 text); reflexivity.
  - exists 0; split; [|reflexivity].
    unfold pad_first. simpl.
    destruct (split_from [c] 0 text) eqn:Es; [|reflexivity].
    exfalso. exact (split1_nonempty _ _ Es).
Qed.

Lemma pad_first_length (k : nat) (lines : list str) :
  lines <> [] -> length (pad_first k lines) = length lines.
Proof. destruct lines; [congruence|reflexivity]. Qed.

Lemma blank_or_comment_pad (k : nat) (l : str) :
  blank_or_comment (times SPACE k ++ l) = blank_or_comment l.
Proof.
  unfold blank_or_comment, times. rewrite lstrip_spaces; reflexivity.
Qed.

Lemma pad_first_junk (k : nat) (lines : list str) :
  lines <> [] ->
  map blank_or_comment (pad_first k lines) = map blank_or_comment lines.
Proof.
  destruct lines as [|x xs]; [congruence|]. intros _. simpl.
  rewrite blank_or_comment_pad. reflexivity.
Qed.

(** C2.  A selection whose lines are all blank or comments makes the loop
    that drops leading blank and comment lines run off the end of the
    list: [lines[0]] raises [IndexError] where the specification promises
    an empty result.  The first part is about any separator, in terms of
    the lines the method works on; the second about the lines of the
    selection itself, for a one-character separator other than the space. *)
Theorem comment_only_selection_raises :
  (forall (ls text_line_from text : str) (lines : list str),
      text <> [] ->
      selected_lines ls text_line_from text = Ok lines ->
      Forall (fun l => blank_or_comment l = true) lines ->
      get_selection_as_executable_code ls text_line_from text
      = Raise IndexError)
  /\ (forall (c : ascii) (text_line_from text : str),
         c <> SPACE ->
         text <> [] ->
         Forall (fun l => blank_or_comment l = true) (split_from [c] 0 text) ->
         get_selection_as_executable_code [c] text_line_from text
         = Raise IndexError).
Proof.
  assert (Hgeneral : forall (ls text_line_from text : str) (lines : list str),
             text <> [] ->
             selected_lines ls text_line_from text = Ok lines ->
             Forall (fun l => blank_or_comment l = true) lines ->
             get_selection_as_executable_code ls text_line_from text
             = Raise IndexError).
  { intros ls text_line_from text lines Hne Hsel Hjunk.
    unfold get_selection_as_executable_code.
    destruct text as [|c text]; [congruence|].
    rewrite Hsel. cbv beta iota delta [bind].
    pose proof (indent_scan_scanned lines) as Hs.
    pose proof (indent_scan_junk lines) as Hj.
    destruct (indent_scan lines) as [[mi ci] ls'] eqn:E. simpl in Hs, Hj.
    rewrite drop_leading_all_junk; [reflexivity|].
    eapply junk_transport; [|exact Hjunk].
    rewrite dedent_junk by exact Hs. exact Hj. }
  split; [exact Hgeneral|].
  intros c text_line_from text Hc Hne Hjunk.
  destruct (selected_lines_one_char c text_line_from text Hc) as (k & Hsel & _).
  apply (Hgeneral _ _ _ _ Hne Hsel).
  eapply junk_transport; [|exact Hjunk].
  apply pad_first_junk, split1_nonempty.
Qed.

Lemma comment_only_selection_raises_witness :
  reindent (lit "# c") 0 [LF] = Raise IndexError
  /\ reindent (lit "# a" ++ [LF] ++ [LF] ++ lit "  # b") 4 [LF]
     = Raise IndexError.
Proof.
  split.
  - apply (proj1 comment_only_selection_raises [LF] [] (lit "# c") [lit "# c"]).
    + discriminate.
    + reflexivity.
    + repeat constructor.
  - apply (proj2 comment_only_selection_raises LF).
    + discriminate.
    + discriminate.
    + repeat constructor.
Defined.

Lemma indent_scan_length (lines : list str) :
  length (snd (indent_scan lines)) = length lines.
Proof.
  induction lines as [|l below IH]; simpl; [reflexivity|].
  destruct (indent_scan below) as [[mi ci] below']. simpl in IH.
  destruct (nonblank l); simpl; rewrite IH; reflexivity.
Qed.

Lemma dedent_length (m : nat) (lines : list str) :
  length (dedent m lines) = length lines.
Proof. destruct m; simpl; [reflexivity|apply length_map]. Qed.

Lemma leading_junk_map (xs ys : list str) :
  map blank_or_comment xs = map blank_or_comment ys ->
  leading_junk xs = leading_junk ys.
Proof.
  revert ys. induction xs as [|x xs IH]; intros [|y ys] E;
    try discriminate; [reflexivity|].
  simpl in *. injection E as E1 E2. rewrite E1, (IH _ E2). reflexivity.
Qed.

(** The loop stops at the first line that is neither blank nor a comment
    and fails when there is none. *)
Lemma drop_leading_spec (lines : list str) :
  drop_leading lines
  = if leading_junk lines <? length lines
    then Ok (skipn (leading_junk lines) lines)
    else Raise IndexError.
Proof.
  induction lines as [|l lines IH]; [reflexivity|].
  simpl. destruct (blank_or_comment l) eqn:E; [|reflexivity].
  rewrite IH. simpl skipn.
  change (S (leading_junk lines) <? S (length lines))
    with (leading_junk lines <? length lines).
  reflexivity.
Qed.

Lemma leading_junk_lt (lines : list str) :
  existsb (fun l => negb (blank_or_comment l)) lines = true ->
  leading_junk lines < length lines.
Proof.
  induction lines as [|l lines IH]; simpl; [discriminate|].
  destruct (blank_or_comment l); simpl; intros H; [|lia].
  apply IH in H. lia.
Qed.

Lemma open_block_lines (word : str) (st : scan_state) :
  lines_of (open_block word st) = lines_of st.
Proof.
  unfold open_block.
  repeat match goal with
         | |- context [match ?x with _ => _ end] => destruct x
         end; reflexivity.
Qed.

Lemma close_block_length (ls : str) (n : nat) (word : str) (st : scan_state) :
  length (lines_of (close_block ls n word st)) = length (lines_of st).
Proof.
  unfold close_block.
  destruct (maybe st && negb (mem word (nextexcept st))); simpl;
    [apply append_at_length|reflexivity].
Qed.

Lemma scan_line_length (ls : str) (n : nat) (st : scan_state) :
  length (lines_of (scan_line ls n st)) = length (lines_of st).
Proof.
  unfold scan_line. destruct (_indent (nth n (lines_of st) [])).
  - rewrite open_block_lines. apply close_block_length.
  - reflexivity.
Qed.

Lemma scan_fold_length (ls : str) (ns : list nat) (st : scan_state) :
  length (lines_of (fold_left (fun st n => scan_line ls n st) ns st))
  = length (lines_of st).
Proof.
  revert st. induction ns as [|n ns IH]; intros st; simpl; [reflexivity|].
  rewrite IH. apply scan_line_length.
Qed.

Lemma keyword_scan_length (ls : str) (lines : list str) :
  length (lines_of (keyword_scan ls lines)) = length lines.
Proof. unfold keyword_scan. apply scan_fold_length. Qed.

Lemma terminate_returns (ls : str) (st : scan_state) :
  lines_of st <> [] ->
  exists final,
    terminate ls st = Ok final /\ length (lines_of st) <= length final.
Proof.
  intros Hne. unfold terminate. destruct (maybe st).
  - destruct (rev (lines_of st)) as [|last r] eqn:E.
    + exfalso. apply Hne. apply (f_equal (@rev _)) in E.
      rewrite rev_involutive in E. exact E.
    + destruct (nonblank last); eexists; split; try reflexivity.
      * rewrite length_app. simpl. lia.
      * rewrite append_at_length. lia.
  - eexists; split; [reflexivity|lia].
Qed.

(** *** Any separator *)

Lemma line_count_join_any (ls : str) (lines : list str) :
  ls <> [] -> length lines <= line_count ls (join ls lines).
Proof. intros H. unfold line_count. apply split_join_count, H. Qed.

Lemma selected_lines_padded (ls text_line_from text : str)
      (lines : list str) :
  selected_lines ls text_line_from text = Ok lines ->
  ls <> []
  /\ exists k, lines = split_from ls 0 (times SPACE k ++ text).
Proof.
  unfold selected_lines, split. destruct ls as [|c r]; [discriminate|].
  cbv beta iota delta [bind]. intros [= <-]. split; [discriminate|].
  destruct (1 <? _); [eexists; reflexivity|exists 0; reflexivity].
Qed.

Lemma selected_lines_head (c : ascii) (r text_line_from text : str) :
  c <> SPACE ->
  exists k,
    selected_lines (c :: r) text_line_from text
    = Ok (pad_first k (split_from (c :: r) 0 text)).
Proof.
  intros Hc. unfold selected_lines, split. cbv beta iota delta [bind].
  assert (H : forall k, split_from (c :: r) 0 (times SPACE k ++ text)
                        = pad_first k (split_from (c :: r) 0 text)).
  { intros k. rewrite split_prefix.
    - unfold pad_first. destruct (split_from (c :: r) 0 text) eqn:E;
        [|reflexivity].
      exfalso. exact (split_from_nonempty _ _ _ E).
    - discriminate.
    - apply clear_before_run_head, Hc. }
  destruct (1 <? _); [eexists; apply f_equal, H|].
  exists 0. rewrite <- H. reflexivity.
Qed.

(** The stages after the split, on lines of which one is neither blank
    nor a comment. *)
Lemma stages_return (ls : str) (lines : list str) :
  ls <> [] ->
  existsb (fun l => negb (blank_or_comment l)) lines = true ->
  exists out,
    (let '(min_indent, _, lines) := indent_scan lines in
     let lines := dedent min_indent lines in
     lines <- drop_leading lines ;;
     lines <- terminate ls (keyword_scan ls lines) ;;
     Ok (Some (join ls lines))) = Ok (Some out)
    /\ length lines <= line_count ls out + leading_junk lines.
Proof.
  intros Hls Hex.
  pose proof (indent_scan_scanned lines) as Hs.
  pose proof (indent_scan_junk lines) as Hj.
  pose proof (indent_scan_length lines) as Hlen.
  destruct (indent_scan lines) as [[mi ci] L2] eqn:E. simpl in Hs, Hj, Hlen.
  cbv beta iota zeta. set (L3 := dedent mi L2).
  assert (Hjunk : map blank_or_comment L3 = map blank_or_comment lines).
  { unfold L3. rewrite dedent_junk by exact Hs. exact Hj. }
  assert (Hlen3 : length L3 = length lines).
  { unfold L3. rewrite dedent_length. exact Hlen. }
  rewrite drop_leading_spec.
  rewrite (leading_junk_map _ _ Hjunk).
  assert (Hlt : leading_junk lines < length lines)
    by (apply leading_junk_lt, Hex).
  rewrite Hlen3.
  destruct (Nat.ltb_spec (leading_junk lines) (length lines)); [|lia].
  cbv beta iota delta [bind]. set (L4 := skipn (leading_junk lines) L3).
  assert (Hlen4 : length L4 = length lines - leading_junk lines).
  { unfold L4. rewrite length_skipn. lia. }
  destruct (terminate_returns ls (keyword_scan ls L4)) as (F & HF & HlenF).
  { intros E0. apply (f_equal (@length _)) in E0.
    rewrite keyword_scan_length in E0. simpl in E0. lia. }
  rewrite HF. cbv beta iota delta [bind]. eexists; split; [reflexivity|].
  rewrite keyword_scan_length in HlenF.
  pose proof (line_count_join_any ls F Hls). lia.
Qed.

(** C4, as amended.  Whatever the separator: when one of the lines the
    method works on (the lines of the selection, after the indentation of
    its first line is put back) is neither blank nor a comment, there is a
    result; these lines are no fewer than the lines of the selection, and
    the result has no fewer lines than they are, less the leading blank
    and comment lines, which are dropped.  When the separator does not
    begin with a space, the same holds of the lines of the selection
    itself. *)
Theorem line_count_drops_only_leading_junk :
  (forall (ls text_line_from text : str) (lines : list str),
      text <> [] ->
      selected_lines ls text_line_from text = Ok lines ->
      existsb (fun l => negb (blank_or_comment l)) lines = true ->
      exists out,
        get_selection_as_executable_code ls text_line_from text
        = Ok (Some out)
        /\ line_count ls text <= length lines
        /\ length lines <= line_count ls out + leading_junk lines)
  /\ (forall (c : ascii) (r text_line_from text : str),
         c <> SPACE ->
         text <> [] ->
         existsb (fun l => negb (blank_or_comment l))
                 (split_from (c :: r) 0 text) = true ->
         exists out,
           get_selection_as_executable_code (c :: r) text_line_from text
           = Ok (Some out)
           /\ line_count (c :: r) text
              <= line_count (c :: r) out
                 + leading_junk (split_from (c :: r) 0 text)).
Proof.
  assert (Hgeneral :
            forall (ls text_line_from text : str) (lines : list str),
              text <> [] ->
              selected_lines ls text_line_from text = Ok lines ->
              existsb (fun l => negb (blank_or_comment l)) lines = true ->
              exists out,
                get_selection_as_executable_code ls text_line_from text
                = Ok (Some out)
                /\ line_count ls text <= length lines
                /\ length lines <= line_count ls out + leading_junk lines).
  { intros ls text_line_from text lines Hne Hsel Hex.
    destruct (selected_lines_padded _ _ _ _ Hsel) as (Hls & k & Hk).
    destruct (stages_return ls lines Hls Hex) as (out & Hout & Hcount).
    exists out. split; [|split; [|exact Hcount]].
    - unfold get_selection_as_executable_code.
      destruct text as [|a text]; [congruence|].
      rewrite Hsel. cbv beta iota delta [bind]. exact Hout.
    - rewrite Hk. apply line_count_prefix, Hls. }
  split; [exact Hgeneral|].
  intros c r text_line_from text Hc Hne Hex.
  destruct (selected_lines_head c r text_line_from text Hc) as (k & Hsel).
  pose proof (split_from_nonempty (c :: r) 0 text) as Hnil.
  destruct (Hgeneral _ _ _ _ Hne Hsel) as (out & Hout & _ & Hcount).
  { rewrite <- Hex. clear - Hnil.
    destruct (split_from (c :: r) 0 text) as [|x xs]; [congruence|].
    simpl. rewrite blank_or_comment_pad. reflexivity. }
  exists out. split; [exact Hout|].
  rewrite pad_first_length in Hcount by exact Hnil.
  rewrite (leading_junk_map _ _ (pad_first_junk k _ Hnil)) in Hcount.
  exact Hcount.
Qed.

Lemma line_count_drops_only_leading_junk_witness :
  (exists out,
      get_selection_as_executable_code
        (lit " x") (lit " ") (lit "x xa") = Ok (Some out)
      /\ line_count (lit " x") (lit "x xa") <= 3
      /\ 3 <= line_count (lit " x") out + 2)
  /\ (exists out,
         let CR := ascii_of_nat 13 in
         let text := lit "    # comment" ++ [CR; LF] ++ lit "    y = 2"
                         ++ [CR; LF] in
         reindent text 0 [CR; LF] = Ok (Some out)
         /\ line_count [CR; LF] text <= line_count [CR; LF] out + 1).
Proof.
  split.
  - apply (proj1 line_count_drops_only_leading_junk
                 (lit " x") (lit " ") (lit "x xa") [[]; []; lit "a"]).
    + discriminate.
    + reflexivity.
    + reflexivity.
  - apply (proj2 line_count_drops_only_leading_junk (ascii_of_nat 13) [LF] []
                 (lit "    # comment" ++ [ascii_of_nat 13; LF]
                      ++ lit "    y = 2" ++ [ascii_of_nat 13; LF])).
    + discriminate.
    + discriminate.
    + reflexivity.
Defined.

(** C4, the claim as stated.  On the specification's own example the
    leading comment line is dropped: three lines go in, two come out.
    With a separator that begins with a space, the spaces put before the
    selection can make up a separator with its first character: the
    selection below has two lines, neither blank nor a comment, the
    method works on three lines of which it drops two, and one line comes
    out. *)
Lemma line_count_can_decrease :
  (let text := lit "    # comment" ++ [LF] ++ lit "    y = 2" ++ [LF] in
   let out := lit "y = 2" ++ [LF] in
   text <> []
   /\ reindent text 0 [LF] = Ok (Some out)
   /\ line_count [LF] text = 3
   /\ line_count [LF] out = 2)
  /\ (let ls := lit " x" in
      let text := lit "x xa" in
      text <> []
      /\ split_from ls 0 text = [lit "x"; lit "a"]
      /\ leading_junk (split_from ls 0 text) = 0
      /\ selected_lines ls (lit " ") text = Ok [[]; []; lit "a"]
      /\ reindent text 1 ls = Ok (Some (lit "a"))
      /\ line_count ls text = 2
      /\ line_count ls (lit "a") = 1).
Proof. repeat split; try reflexivity; discriminate. Qed.

(** *** A second application *)

Lemma nonblank_times_space (k : nat) : nonblank (times SPACE k) = false.
Proof. apply nonblank_false_iff, lstrip_times_space. Qed.

Lemma _indent_times_space (k : nat) : _indent (times SPACE k) = k.
Proof.
  unfold _indent. rewrite lstrip_times_space. unfold times.
  rewrite repeat_length. simpl. lia.
Qed.

(** The bottom-up loop changes nothing when it is run on its own result. *)
Lemma indent_scan_idem (lines : list str) :
  indent_scan (snd (indent_scan lines)) = indent_scan lines.
Proof.
  induction lines as [|l below IH]; [reflexivity|].
  simpl. destruct (indent_scan below) as [[mi ci] below'] eqn:E.
  simpl in IH. destruct (nonblank l) eqn:Hl; simpl.
  - rewrite IH, Hl. reflexivity.
  - rewrite IH, nonblank_times_space. reflexivity.
Qed.

Lemma indent_scan_min_zero (lines : list str) :
  (exists l, In l lines /\ nonblank l = true /\ _indent l = 0) ->
  fst (fst (indent_scan lines)) = 0.
Proof.
  induction lines as [|l below IH]; intros (x & Hin & Hnb & Hind);
    [destruct Hin|].
  simpl. destruct (indent_scan below) as [[mi ci] below'] eqn:E.
  simpl in IH. destruct Hin as [->|Hin].
  - rewrite Hnb. simpl. rewrite Hind. reflexivity.
  - assert (Hmi : mi = 0) by (apply IH; exists x; auto).
    subst mi. destruct (nonblank l); simpl; lia.
Qed.

Lemma indent_scan_keeps_nonblank (lines : list str) (l : str) :
  In l lines -> nonblank l = true -> In l (snd (indent_scan lines)).
Proof.
  induction lines as [|a below IH]; intros Hin Hnb; [destruct Hin|].
  simpl. destruct (indent_scan below) as [[mi ci] below'] eqn:E.
  simpl in IH. destruct Hin as [->|Hin].
  - rewrite Hnb. left; reflexivity.
  - destruct (nonblank a); right; apply IH; assumption.
Qed.

Lemma indent_scan_lines (lines : list str) :
  Forall (fun l' => In l' lines \/ exists k, l' = times SPACE k)
         (snd (indent_scan lines)).
Proof.
  induction lines as [|a below IH]; [constructor|].
  simpl. destruct (indent_scan below) as [[mi ci] below'] eqn:E.
  simpl in IH.
  assert (Hrest : Forall (fun l' => In l' (a :: below)
                                    \/ exists k, l' = times SPACE k) below').
  { eapply Forall_impl; [|exact IH].
    intros x [H|H]; [left; right; exact H|right; exact H]. }
  destruct (nonblank a); simpl; constructor; try exact Hrest.
  - left; left; reflexivity.
  - right; eexists; reflexivity.
Qed.

Lemma open_block_none (word : str) (st : scan_state) :
  opens_block word = false -> open_block word st = st.
Proof.
  unfold opens_block, open_block. intros H.
  apply orb_false_elim in H as [H Htry].
  apply orb_false_elim in H as [Hmem Hif].
  destruct word; [reflexivity|]. rewrite Hmem, Hif, Htry. reflexivity.
Qed.

Lemma scan_line_idle (ls : str) (n : nat) (lines : list str)
      (nx : list str) :
  Forall no_top_level_block lines ->
  n < length lines ->
  scan_line ls n {| lines_of := lines; maybe := false; nextexcept := nx |}
  = {| lines_of := lines; maybe := false; nextexcept := nx |}.
Proof.
  intros Hall Hn. unfold scan_line. simpl lines_of.
  destruct (_indent (nth n lines [])) eqn:Hind; [|reflexivity].
  unfold close_block. simpl maybe. simpl andb. cbv iota.
  apply open_block_none.
  rewrite Forall_forall in Hall. apply Hall; [|exact Hind].
  apply nth_In, Hn.
Qed.

Lemma keyword_scan_idle (ls : str) (lines : list str) :
  Forall no_top_level_block lines ->
  keyword_scan ls lines
  = {| lines_of := lines; maybe := false; nextexcept := [] |}.
Proof.
  intros Hall. unfold keyword_scan.
  assert (H : forall ns, Forall (fun n => n < length lines) ns ->
              fold_left (fun st n => scan_line ls n st) ns
                        {| lines_of := lines; maybe := false;
                           nextexcept := [] |}
              = {| lines_of := lines; maybe := false; nextexcept := [] |}).
  { induction ns as [|n ns IH]; intros Hns; [reflexivity|].
    inversion Hns; subst. simpl.
    rewrite scan_line_idle by assumption. apply IH. assumption. }
  apply H. apply Forall_forall. intros n Hn. apply in_seq in Hn. lia.
Qed.

Lemma no_top_level_block_scan (lines : list str) :
  Forall no_top_level_block lines ->
  Forall no_top_level_block (snd (indent_scan lines)).
Proof.
  intros Hall. pose proof (indent_scan_lines lines) as H.
  eapply Forall_impl; [|exact H].
  intros l' [Hin|[k ->]].
  - rewrite Forall_forall in Hall. apply Hall, Hin.
  - intros Hk. rewrite _indent_times_space in Hk. subst k. reflexivity.
Qed.

Lemma blank_or_comment_nonblank (l : str) :
  blank_or_comment l = false -> nonblank l = true.
Proof.
  intros H. destruct (nonblank l) eqn:E; [reflexivity|].
  apply nonblank_false_iff in E.
  rewrite (blank_or_comment_blank _ E) in H. discriminate.
Qed.

Lemma indent_scan_suffix (j : nat) (lines : list str) :
  snd (indent_scan (skipn j lines)) = skipn j (snd (indent_scan lines)).
Proof.
  revert j. induction lines as [|l below IH]; intros [|j]; try reflexivity.
  simpl skipn at 1. rewrite IH. simpl.
  destruct (indent_scan below) as [[mi ci] below'].
  destruct (nonblank l); reflexivity.
Qed.

Lemma indent_scan_runs (lines : list str) :
  Forall2 (fun l1 l2 => l2 = l1 \/ exists k, l2 = repeat SPACE k)
          lines (snd (indent_scan lines)).
Proof.
  induction lines as [|l below IH]; simpl; [constructor|].
  destruct (indent_scan below) as [[m ci] b']. simpl in IH.
  destruct (nonblank l); simpl; constructor; auto.
  right. eexists. reflexivity.
Qed.

Lemma leading_junk_skipn (lines : list str) :
  leading_junk (skipn (leading_junk lines) lines) = 0.
Proof.
  induction lines as [|l lines IH]; [reflexivity|]. simpl.
  destruct (blank_or_comment l) eqn:E; [exact IH|].
  simpl. rewrite E. reflexivity.
Qed.

Lemma Forall_skipn {A} (P : A -> Prop) (n : nat) (xs : list A) :
  Forall P xs -> Forall P (skipn n xs).
Proof.
  intros H. revert n. induction H; intros [|n]; simpl; auto.
Qed.

Lemma in_skipn {A} (x : A) (n : nat) (l : list A) :
  In x (skipn n l) -> In x l.
Proof.
  intros H. rewrite <- (firstn_skipn n l). apply in_or_app. auto.
Qed.

(** One application with no indentation to give back, on lines that have
    a line of code at indentation zero and open no block there: the
    leading blank and comment lines are dropped and the other blank lines
    rewritten. *)
Lemma reindent_lines (ls x : str) :
  ls <> [] ->
  (exists l0, In l0 (split_from ls 0 x)
              /\ nonblank l0 = true /\ _indent l0 = 0) ->
  Forall no_top_level_block (split_from ls 0 x) ->
  leading_junk (split_from ls 0 x) < length (split_from ls 0 x) ->
  reindent x 0 ls
  = Ok (Some (join ls (skipn (leading_junk (split_from ls 0 x))
                             (snd (indent_scan (split_from ls 0 x)))))).
Proof.
  intros Hls Hzero Hall Hlt.
  unfold reindent, get_selection_as_executable_code.
  destruct x as [|a x'].
  { exfalso. destruct Hzero as (l0 & [<-|[]] & Hnb & _). discriminate. }
  set (x := a :: x') in *. set (L := split_from ls 0 x) in *.
  assert (Hsel : selected_lines ls (times SPACE 0) x = Ok L).
  { unfold selected_lines, split. destruct ls; [congruence|].
    cbv beta iota delta [bind]. destruct (1 <? _); reflexivity. }
  rewrite Hsel. cbv beta iota delta [bind].
  pose proof (indent_scan_min_zero L Hzero) as Hmin.
  pose proof (indent_scan_junk L) as Hj.
  pose proof (indent_scan_length L) as Hlen.
  pose proof (no_top_level_block_scan _ Hall) as Hall2.
  destruct (indent_scan L) as [[mi ci] L2] eqn:E.
  simpl in Hmin, Hj, Hall2, Hlen. subst mi. cbv beta iota zeta.
  unfold dedent. rewrite drop_leading_spec.
  rewrite (leading_junk_map _ _ Hj), Hlen.
  destruct (Nat.ltb_spec (leading_junk L) (length L)); [|lia].
  cbv beta iota delta [bind].
  rewrite keyword_scan_idle by (apply Forall_skipn, Hall2). reflexivity.
Qed.

(** C5, as amended.  With a separator that is not made of spaces only:
    on a text that has, after its leading blank and comment lines, a line
    of code at indentation zero, and in which no line at indentation zero
    begins with [def], [for], [while], [with], [class], [if] or [try],
    the transform returns a text, and applied to that text it returns it
    unchanged. *)
Theorem reindent_idempotent_without_top_level_blocks (ls x : str) :
  (exists c, In c ls /\ c <> SPACE) ->
  (exists l0, In l0 (skipn (leading_junk (split_from ls 0 x))
                           (split_from ls 0 x))
              /\ nonblank l0 = true /\ _indent l0 = 0) ->
  Forall no_top_level_block (split_from ls 0 x) ->
  exists y,
    reindent x 0 ls = Ok (Some y)
    /\ reindent y 0 ls = Ok (Some y)
    /\ reindent_twice x 0 ls = reindent x 0 ls.
Proof.
  intros Hc Hzero Hall.
  assert (Hls : ls <> []).
  { destruct Hc as (c & Hin & _). intros ->. destruct Hin. }
  set (L := split_from ls 0 x) in *. set (j := leading_junk L) in *.
  destruct Hzero as (l0 & Hin & Hnb & Hind).
  assert (Hlt : j < length L).
  { destruct (Nat.lt_ge_cases j (length L)) as [H|H]; [exact H|].
    rewrite skipn_all2 in Hin by exact H. destruct Hin. }
  (* the first application *)
  assert (Hone : reindent x 0 ls
                 = Ok (Some (join ls (skipn j (snd (indent_scan L)))))).
  { apply reindent_lines; try assumption.
    exists l0. repeat split; try assumption. exact (in_skipn _ _ _ Hin). }
  set (L4 := skipn j (snd (indent_scan L))) in *.
  assert (HL4 : L4 = snd (indent_scan (skipn j L))).
  { unfold L4. symmetry. apply indent_scan_suffix. }
  assert (Hin4 : In l0 L4).
  { rewrite HL4. apply indent_scan_keeps_nonblank; assumption. }
  (* its result is split into the lines it was joined from *)
  assert (Hsplit : split_from ls 0 (join ls L4) = L4).
  { apply split_join_ok; [exact Hls| |].
    - intros E. rewrite E in Hin4. destruct Hin4.
    - unfold L4. apply pieces_ok_skipn.
      apply (pieces_ok_pointwise ls (fun y => exists k, y = repeat SPACE k) L).
      + intros y [k ->]. apply clear_before_run_sep, Hc.
      + intros y [k ->]. apply clear_before_run_nil, Hc.
      + apply indent_scan_runs.
      + apply split_pieces_ok, Hls. }
  (* the second application *)
  assert (Hjunk4 : leading_junk L4 = 0).
  { unfold L4, j.
    rewrite <- (leading_junk_map _ _ (indent_scan_junk L)).
    apply leading_junk_skipn. }
  assert (Htwo : reindent (join ls L4) 0 ls = Ok (Some (join ls L4))).
  { rewrite reindent_lines; rewrite ?Hsplit; try assumption.
    - rewrite Hjunk4. simpl skipn. rewrite HL4, indent_scan_idem.
      reflexivity.
    - exists l0. auto.
    - unfold L4. apply Forall_skipn, no_top_level_block_scan, Hall.
    - rewrite Hjunk4. destruct L4; [destruct Hin4|simpl; lia]. }
  exists (join ls L4). repeat split; try assumption.
  unfold reindent_twice. rewrite Hone. cbv beta iota delta [bind].
  rewrite Htwo. reflexivity.
Qed.

Lemma reindent_idempotent_witness :
  let CR := ascii_of_nat 13 in
  let x := [CR; LF] ++ lit "# c" ++ [CR; LF] ++ lit "a = 1" ++ [CR; LF]
                ++ lit "  " ++ [CR; LF] ++ lit "    b = 2" in
  exists y,
    reindent x 0 [CR; LF] = Ok (Some y)
    /\ reindent y 0 [CR; LF] = Ok (Some y)
    /\ reindent_twice x 0 [CR; LF] = reindent x 0 [CR; LF].
Proof.
  intros CR x.
  apply (reindent_idempotent_without_top_level_blocks [CR; LF] x).
  - exists LF. split; [right; left; reflexivity|discriminate].
  - exists (lit "a = 1"). repeat split. left; reflexivity.
  - repeat constructor.
Defined.

(** C5, the claim as stated.  The first text below is an output of the
    transform, at indentation zero and with its block closed by an empty
    line; two further applications append a separator each.  The second
    has no block at all and a comment at indentation zero: the first
    application drops the comment, the second removes the indentation
    that is now common to all lines.  The third has one line of code and
    is split at the space: the blank piece between two spaces takes the
    indentation of the piece below it, which puts one more space into
    the text at every application. *)
Lemma reindent_not_idempotent :
  let x0 := lit "def f():" ++ [LF] ++ lit "    pass" ++ [LF] in
  let x := x0 ++ [LF] in
  let y := lit "# comment" ++ [LF] ++ lit "    y = 2" in
  let TAB := ascii_of_nat 9 in
  let z := lit "a  " ++ [TAB] ++ lit "a" in
  (reindent x0 0 [LF] = Ok (Some x)
   /\ reindent x 0 [LF] = Ok (Some (x ++ [LF]))
   /\ reindent_twice x 0 [LF] = Ok (Some (x ++ [LF; LF]))
   /\ reindent_twice x 0 [LF] <> reindent x 0 [LF])
  /\ (reindent y 0 [LF] = Ok (Some (lit "    y = 2"))
      /\ reindent_twice y 0 [LF] = Ok (Some (lit "y = 2"))
      /\ reindent_twice y 0 [LF] <> reindent y 0 [LF])
  /\ (reindent z 0 [SPACE] = Ok (Some (lit "a   " ++ [TAB] ++ lit "a"))
      /\ reindent_twice z 0 [SPACE]
         = Ok (Some (lit "a     " ++ [TAB] ++ lit "a"))
      /\ reindent_twice z 0 [SPACE] <> reindent z 0 [SPACE]
      /\ Forall no_top_level_block (split_from [SPACE] 0 z)
      /\ nonblank (lit "a") = true /\ _indent (lit "a") = 0
      /\ nth 0 (split_from [SPACE] 0 z) [] = lit "a").
Proof.
  repeat split; try (vm_compute; reflexivity);
    try (vm_compute; discriminate).
  repeat constructor.
Qed.

End ReindentFacts.

Module AnsiFacts.
Import Py PyFacts Ansi.

(** *** Text without escape sequences *)

Lemma finditer_none (s : str) (pos : nat) :
  (forall i, COLOR_PATTERN_match (skipn i s) = None) ->
  finditer_from 0 pos s = [].
Proof.
  revert pos. induction s as [|c s IH]; intros pos H; [reflexivity|].
  pose proof (H 0) as H0. simpl skipn in H0.
  cbn [finditer_from]. rewrite H0. apply IH. intros i. exact (H (S i)).
Qed.

Lemma find_none (ch : ascii) (text : str) :
  find ch text = None <-> ~ In ch text.
Proof.
  induction text as [|c text IH]; simpl; [tauto|].
  destruct (eqc c ch) eqn:E.
  - apply eqc_true in E. split; [discriminate|]. intros H. exfalso; auto.
  - apply eqc_false in E. destruct (find ch text).
    + split; [discriminate|]. intros H. exfalso.
      assert (Hn : ~ In ch text) by tauto.
      apply IH in Hn. discriminate.
    + split; [|reflexivity]. intros _ [H|H]; [congruence|].
      apply IH in H; [exact H|reflexivity].
Qed.

Lemma find_some (ch : ascii) (text : str) (i : nat) :
  find ch text = Some i ->
  text = firstn i text ++ ch :: skipn (i + 1) text
  /\ length (skipn (i + 1) text) < length text.
Proof.
  revert i. induction text as [|c text IH]; intros i; simpl; [discriminate|].
  destruct (eqc c ch) eqn:E.
  - apply eqc_true in E. subst c. intros [= <-]. simpl. split; [reflexivity|lia].
  - destruct (find ch text) as [j|]; [|discriminate].
    intros [= <-]. destruct (IH j eq_refl) as [H1 H2]. simpl. split.
    + f_equal. exact H1.
    + lia.
Qed.

Lemma form_feed_loop_none (fuel : nat) (text : str) (w : console) :
  ~ In FF text -> form_feed_loop fuel text w = (text, w).
Proof.
  intros H. destruct fuel; [reflexivity|]. simpl.
  apply find_none in H. rewrite H. reflexivity.
Qed.

(** With fuel above the length of the text, the loop ends because no form
    feed is left: it keeps what follows the last one, and has cleared the
    console if there was one. *)
Lemma form_feed_loop_spec (fuel : nat) (text : str) (w : console) :
  length text < fuel ->
  In FF text ->
  exists before after,
    text = before ++ FF :: after
    /\ ~ In FF after
    /\ form_feed_loop fuel text w = (after, clear w).
Proof.
  revert text w. induction fuel as [|fuel IH]; intros text w Hlen Hin; [lia|].
  simpl. destruct (find FF text) as [i|] eqn:E.
  - destruct (find_some _ _ _ E) as [Hsplit Hshort].
    set (rest := skipn (i + 1) text) in *.
    destruct (in_dec ascii_dec FF rest) as [Hrest|Hrest].
    + destruct (IH rest (clear w)) as (b & a & Hb & Ha & Hloop);
        [lia|exact Hrest|].
      exists (firstn i text ++ FF :: b), a. repeat split.
      * rewrite Hsplit at 1. rewrite Hb, <- app_assoc. reflexivity.
      * exact Ha.
      * rewrite Hloop. reflexivity.
    + exists (firstn i text), rest. repeat split.
      * exact Hsplit.
      * exact Hrest.
      * apply form_feed_loop_none, Hrest.
  - apply find_none in E. contradiction.
Qed.

Lemma existsb_eqc (ch : ascii) (s : str) :
  existsb (eqc ch) s = true <-> In ch s.
Proof.
  rewrite existsb_exists. split.
  - intros (x & Hin & E). apply eqc_true in E. subst x. exact Hin.
  - intros H. exists ch. split; [exact H|apply eqc_refl].
Qed.

Lemma after_last_spec (ch : ascii) (before after : str) :
  ~ In ch after -> after_last ch (before ++ ch :: after) = after.
Proof.
  intros Hafter. induction before as [|b before IH]; simpl.
  - destruct (existsb (eqc ch) after) eqn:E.
    + apply existsb_eqc in E. contradiction.
    + rewrite eqc_refl. reflexivity.
  - destruct (existsb (eqc ch) (before ++ ch :: after)) eqn:E; [exact IH|].
    exfalso. assert (H : In ch (before ++ ch :: after))
      by (apply in_or_app; right; left; reflexivity).
    apply existsb_eqc in H. congruence.
Qed.

(** C9.  A text with a form feed is handled as its part after the last
    form feed is on a console whose document is empty: what stands before
    the last form feed, and the form feed, reach neither the document nor
    the decoder, and nothing of what the document held before the call is
    left in it.  In prompt mode the document after the call is the one
    run of the text after the last form feed. *)
Theorem form_feed_clears_and_keeps_tail
        (text : str) (error prompt : bool) (w : console) :
  In FF text ->
  (exists before, text = before ++ FF :: after_last FF text)
  /\ ~ In FF (after_last FF text)
  /\ append_text_to_shell text error prompt w
     = append_text_to_shell (after_last FF text) error prompt (clear w)
  /\ append_text_to_shell text error prompt w
     = append_text_to_shell (after_last FF text) error prompt
                            (with_document [] w)
  /\ (forall d, append_text_to_shell text error prompt (with_document d w)
                = append_text_to_shell text error prompt w)
  /\ append_text_to_shell text false true w
     = Return tt
              (with_char_format
                 (default_format w)
                 (with_document
                    [(after_last FF text, prompt_style_format w)] w)).
Proof.
  intros Hin.
  assert (Hgen : forall e p w1,
             append_text_to_shell text e p w1
             = append_text_to_shell (after_last FF text) e p
                                    (with_document [] w1)).
  { intros e p w1.
    destruct (form_feed_loop_spec (S (length text)) text w1) as
        (before & after & Hsplit & Hafter & Hloop); [lia|exact Hin|].
    assert (Hlast : after_last FF text = after).
    { rewrite Hsplit. apply after_last_spec, Hafter. }
    rewrite Hlast. unfold append_text_to_shell, mbind, get.
    rewrite Hloop.
    rewrite (form_feed_loop_none _ _ (with_document [] w1) Hafter).
    reflexivity. }
  destruct (form_feed_loop_spec (S (length text)) text w) as
      (before & after & Hsplit & Hafter & Hloop); [lia|exact Hin|].
  assert (Hlast : after_last FF text = after).
  { rewrite Hsplit. apply after_last_spec, Hafter. }
  split; [exists before; rewrite Hlast; exact Hsplit|].
  split; [rewrite Hlast; exact Hafter|].
  split; [apply Hgen|]. split; [apply Hgen|]. split.
  - intros d. rewrite (Hgen error prompt (with_document d w)).
    rewrite (Hgen error prompt w). reflexivity.
  - rewrite (Hgen false true w), Hlast.
    unfold append_text_to_shell, mbind, get.
    rewrite (form_feed_loop_none _ _ (with_document [] w) Hafter).
    reflexivity.
Qed.

Lemma form_feed_witness :
  let text := lit "a" ++ [FF] ++ lit "b" ++ [FF] ++ lit "c" in
  let w := state_of (append_text_to_shell (lit "old") false false
                                          sample_console) in
  (exists before, text = before ++ FF :: lit "c")
  /\ ~ In FF (lit "c")
  /\ append_text_to_shell text false false w
     = append_text_to_shell (lit "c") false false (clear w)
  /\ append_text_to_shell text false false w
     = append_text_to_shell (lit "c") false false (with_document [] w)
  /\ (forall d, append_text_to_shell text false false (with_document d w)
                = append_text_to_shell text false false w)
  /\ append_text_to_shell text false true w
     = Return tt
              (with_char_format
                 (default_format w)
                 (with_document [(lit "c", prompt_style_format w)] w)).
Proof.
  intros text w.
  apply (form_feed_clears_and_keeps_tail text false false w).
  simpl. right; left; reflexivity.
Defined.

(** C6.  When the colour pattern matches nowhere in the text, the colour
    branch inserts exactly one run, the whole text in the format the
    default style has at the call, and changes nothing else; for a text
    without form feed that is all [append_text_to_shell] inserts. *)
Theorem plain_text_is_one_run (text : str) (w : console) :
  (forall i, COLOR_PATTERN_match (skipn i text) = None) ->
  decode text w
  = Return tt (with_document (document w ++ [(text, default_format w)]) w)
  /\ (~ In FF text ->
      append_text_to_shell text false false w
      = Return tt (with_char_format
                     (default_format w)
                     (with_document (document w ++ [(text, default_format w)])
                                    w))).
Proof.
  intros Hnone.
  assert (Hdecode : forall w0,
             decode text w0
             = Return tt (with_document
                            (document w0 ++ [(text, default_format w0)]) w0)).
  { intros w0. unfold decode, finditer.
    rewrite (finditer_none text 0 Hnone). reflexivity. }
  split; [apply Hdecode|].
  intros Hff. unfold append_text_to_shell, mbind, get.
  rewrite (form_feed_loop_none _ _ w Hff).
  unfold modify at 1. rewrite Hdecode. reflexivity.
Qed.

Lemma plain_text_witness :
  decode (lit "hello") sample_console
  = Return tt (with_document
                 [(lit "hello", Some (style_format 0 false false false))]
                 sample_console).
Proof.
  apply (plain_text_is_one_run (lit "hello") sample_console).
  intros i. do 6 (destruct i as [|i]; [reflexivity|]). reflexivity.
Defined.

(** *** set_style *)

Lemma py_nth_raise {A} (l : list A) (i : Z) (e : exn) :
  py_nth l i = Raise e -> e = IndexError.
Proof.
  unfold py_nth.
  repeat match goal with
         | |- context [if ?b then _ else _] => destruct b
         | |- context [match nth_error ?l ?n with _ => _ end] =>
             destruct (nth_error l n)
         end; congruence.
Qed.

Lemma py_pair_nth_raise {A} (p : A * A) (i : Z) (e : exn) :
  py_pair_nth p i = Raise e -> e = IndexError.
Proof. apply py_nth_raise. Qed.

Ltac case_nth :=
  match goal with
  | |- ?lhs = _ =>
      match lhs with
      | context [py_nth ?l ?i] =>
          let H := fresh "H" in
          pose proof (py_nth_raise l i) as H;
          destruct (py_nth l i); [clear H|specialize (H _ eq_refl); subst]
      | context [py_pair_nth ?p ?i] =>
          let H := fresh "H" in
          pose proof (py_pair_nth_raise p i) as H;
          destruct (py_pair_nth p i);
          [clear H|specialize (H _ eq_refl); subst]
      end
  end.

Ltac run_style :=
  cbv beta iota zeta delta
      [set_style foreground_choice background_choice starting_format restyle
       lookup ansi_color mbind get modify ret throw base_attr on_current
       lift_result set_current_format current_format base_format
       foreground_color background_color italic bold underline
       ANSI_COLORS intensity default_foreground_color
       default_background_color].

(** [set_style] on a handler with a base format: it raises only when a
    colour is not in the table, and then the format already carries what
    was set before. *)
Lemma set_style_with_base (h : handler) (base : QTextCharFormat) :
  base_format h = Some base ->
  set_style h
  = match foreground_choice h base with
    | None =>
        Throw IndexError
              (set_current_format (Some (starting_format h base)) h)
    | Some fg =>
        match background_choice h base with
        | None =>
            Throw IndexError
                  (set_current_format
                     (Some (setForeground fg (starting_format h base))) h)
        | Some bg =>
            Return tt
                   (set_current_format
                      (Some (restyle h base (starting_format h base) fg bg)) h)
        end
    end.
Proof.
  destruct h as [tbl inten it bo un fg bg dfg dbg bf cf]. simpl.
  intros ->.
  destruct cf as [cur|]; destruct fg as [fgc|]; destruct bg as [bgc|];
    run_style; repeat (case_nth; run_style); try reflexivity;
    destruct it, bo, un; reflexivity.
Qed.

Lemma py_nth_ok {A} (l : list A) (i : Z) :
  (0 <= i < Z.of_nat (length l))%Z -> exists a, py_nth l i = Ok a.
Proof.
  intros Hi. unfold py_nth.
  destruct (Z.ltb_spec i 0); [lia|].
  destruct (Z.leb_spec 0 i); [|lia].
  destruct (Z.ltb_spec i (Z.of_nat (length l))); [|lia].
  simpl. destruct (nth_error l (Z.to_nat i)) as [a|] eqn:E.
  - exists a; reflexivity.
  - apply nth_error_None in E. lia.
Qed.

Lemma lookup_in_range (h : handler) (c offset : Z) :
  length (ANSI_COLORS h) = 8 ->
  (intensity h = 0 \/ intensity h = 1)%Z ->
  (offset <= c <= offset + 7)%Z ->
  exists q, lookup h c offset = Some q.
Proof.
  intros Hlen Hint Hc. unfold lookup.
  destruct (py_nth_ok (ANSI_COLORS h) (c - offset)) as [entry ->];
    [rewrite Hlen; lia|].
  unfold py_pair_nth.
  destruct (py_nth_ok [fst entry; snd entry] (intensity h)) as [cstr ->];
    [simpl; lia|].
  eexists; reflexivity.
Qed.

Lemma well_formed_spec (h : handler) :
  well_formed h = true <->
  length (ANSI_COLORS h) = 8
  /\ (intensity h = 0 \/ intensity h = 1)%Z
  /\ (forall c, foreground_color h = Some c -> (30 <= c <= 37)%Z)
  /\ (forall c, background_color h = Some c -> (40 <= c <= 47)%Z).
Proof.
  unfold well_formed, in_range. split.
  - intros H.
    apply andb_true_iff in H as [H H4]. apply andb_true_iff in H as [H H3].
    apply andb_true_iff in H as [H1 H2]. apply Nat.eqb_eq in H1.
    apply orb_true_iff in H2. rewrite !Z.eqb_eq in H2.
    split; [exact H1|]. split; [exact H2|]. split.
    + destruct (foreground_color h); [|discriminate].
      intros c [= <-]. apply andb_true_iff in H3. lia.
    + destruct (background_color h); [|discriminate].
      intros c [= <-]. apply andb_true_iff in H4. lia.
  - intros (H1 & H2 & H3 & H4).
    apply andb_true_iff; split; [apply andb_true_iff; split;
                                 [apply andb_true_iff; split|]|].
    + apply Nat.eqb_eq, H1.
    + apply orb_true_iff. rewrite !Z.eqb_eq. exact H2.
    + destruct (foreground_color h) as [c|]; [|reflexivity].
      specialize (H3 c eq_refl). apply andb_true_iff. lia.
    + destruct (background_color h) as [c|]; [|reflexivity].
      specialize (H4 c eq_refl). apply andb_true_iff. lia.
Qed.

Lemma choices_in_range (h : handler) (base : QTextCharFormat) :
  well_formed h = true ->
  exists fg bg,
    foreground_choice h base = Some fg /\ background_choice h base = Some bg.
Proof.
  intros Hwf. apply well_formed_spec in Hwf as (Hlen & Hint & Hfg & Hbg).
  unfold foreground_choice, background_choice.
  assert (F : exists fg, match foreground_color h with
                         | Some c => lookup h c 30
                         | None => Some (foreground base)
                         end = Some fg).
  { destruct (foreground_color h) as [c|]; [|eexists; reflexivity].
    apply lookup_in_range; try assumption. specialize (Hfg c eq_refl). lia. }
  assert (B : exists bg, match background_color h with
                         | Some c => lookup h c 40
                         | None => Some (background base)
                         end = Some bg).
  { destruct (background_color h) as [c|]; [|eexists; reflexivity].
    apply lookup_in_range; try assumption. specialize (Hbg c eq_refl). lia. }
  destruct F as [fg F], B as [bg B]. exists fg, bg. split; assumption.
Qed.

Lemma resolve_choices (h : handler) (base : QTextCharFormat) (fg bg : QColor)
      (cur : QTextCharFormat) :
  foreground_choice h base = Some fg ->
  background_choice h base = Some bg ->
  resolve h base = Some (style_of (restyle h base cur fg bg)).
Proof.
  unfold foreground_choice, background_choice, resolve. intros -> ->.
  unfold style_of, restyle. simpl.
  destruct (bold h), (italic h), (underline h); reflexivity.
Qed.

Lemma resolve_set_current_format (f : option QTextCharFormat) (h : handler)
      (base : QTextCharFormat) :
  resolve (set_current_format f h) base = resolve h base.
Proof. reflexivity. Qed.

(** A call of [set_style] that returns leaves a consistent cache. *)
Lemma set_style_consistent (h h' : handler) (base : QTextCharFormat) :
  base_format h = Some base ->
  set_style h = Return tt h' ->
  consistent h'
  /\ exists f, h' = set_current_format (Some f) h.
Proof.
  intros Hbase Hret. rewrite (set_style_with_base h base Hbase) in Hret.
  destruct (foreground_choice h base) as [fg|] eqn:Hfg; [|discriminate].
  destruct (background_choice h base) as [bg|] eqn:Hbg; [|discriminate].
  injection Hret as <-. split.
  - exists base, (restyle h base (starting_format h base) fg bg).
    repeat split.
    + exact Hbase.
    + rewrite resolve_set_current_format. apply resolve_choices; assumption.
  - eexists; reflexivity.
Qed.

(** C10.  Without a base format and without a cached format [set_style]
    stops at its assertion, as on a handler fresh from [__init__].  Once
    [set_base_format] gave a format, the assertion cannot fail: the call
    returns exactly when the colour codes that are set index the table,
    and raises [IndexError] otherwise.  With the attributes in the ranges
    of the data model it returns, and the cached format is the resolution
    of the attributes against that base format. *)
Theorem set_style_needs_base_format :
  (forall h, base_format h = None -> current_format h = None ->
             set_style h = Throw AssertionError h)
  /\ (forall h0, set_style (__init__ h0) = Throw AssertionError (__init__ h0))
  /\ (forall h base e h',
         set_style (set_base_format (Some base) h) = Throw e h' ->
         e = IndexError)
  /\ (forall h base,
         (exists h', set_style (set_base_format (Some base) h) = Return tt h')
         <-> (foreground_choice h base <> None
              /\ background_choice h base <> None))
  /\ (forall h base,
         well_formed h = true ->
         exists f,
           set_style (set_base_format (Some base) h)
           = Return tt (set_current_format
                          (Some f) (set_base_format (Some base) h))
           /\ resolve (set_base_format (Some base) h) base
              = Some (style_of f)).
Proof.
  assert (Hassert : forall h, base_format h = None -> current_format h = None ->
                              set_style h = Throw AssertionError h).
  { intros h Hb Hc. unfold set_style, mbind, get. rewrite Hc, Hb. reflexivity. }
  split; [|split; [|split; [|split]]].
  - exact Hassert.
  - intros h0. apply Hassert; reflexivity.
  - intros h base e h' Hthrow.
    rewrite (set_style_with_base (set_base_format (Some base) h) base eq_refl)
      in Hthrow.
    destruct (foreground_choice _ base); [|congruence].
    destruct (background_choice _ base); congruence.
  - intros h base.
    rewrite (set_style_with_base (set_base_format (Some base) h) base eq_refl).
    change (foreground_choice (set_base_format (Some base) h) base)
      with (foreground_choice h base).
    change (background_choice (set_base_format (Some base) h) base)
      with (background_choice h base).
    destruct (foreground_choice h base) as [fg|].
    + destruct (background_choice h base) as [bg|].
      * split; [intros _; split; discriminate|].
        intros _. eexists; reflexivity.
      * split; [intros [h' H]; discriminate|].
        intros [_ H]. congruence.
    + split; [intros [h' H]; discriminate|].
      intros [H _]. congruence.
  - intros h base Hwf.
    set (h1 := set_base_format (Some base) h).
    assert (Hwf1 : well_formed h1 = true) by exact Hwf.
    destruct (choices_in_range h1 base Hwf1) as (fg & bg & Hfg & Hbg).
    exists (restyle h1 base (starting_format h1 base) fg bg). split.
    + rewrite (set_style_with_base h1 base eq_refl), Hfg, Hbg. reflexivity.
    + apply resolve_choices; assumption.
Qed.

Lemma set_style_needs_base_format_witness :
  set_style sample_handler = Throw AssertionError sample_handler
  /\ exists f,
      set_style (set_base_format (Some (style_format 0 false false false))
                                 sample_handler)
      = Return tt (set_current_format
                     (Some f)
                     (set_base_format (Some (style_format 0 false false false))
                                      sample_handler))
      /\ resolve (set_base_format (Some (style_format 0 false false false))
                                  sample_handler)
                 (style_format 0 false false false)
         = Some (style_of f).
Proof.
  split.
  - apply (proj1 set_style_needs_base_format sample_handler);
      reflexivity.
  - apply (proj2 (proj2 (proj2 (proj2 set_style_needs_base_format)))
                 sample_handler).
    reflexivity.
Defined.

(** *** Calls in sequence *)

Lemma mbind_return {S A B} (m : M S A) (k : A -> M S B) (s s' : S) (a : A) :
  m s = Return a s' -> mbind m k s = k a s'.
Proof. unfold mbind. intros ->. reflexivity. Qed.

Lemma preserves_mbind {S A B} (P : S -> Prop) (m : M S A) (k : A -> M S B) :
  preserves P m -> (forall a, preserves P (k a)) -> preserves P (mbind m k).
Proof.
  intros Hm Hk s Hs. unfold mbind. specialize (Hm s Hs).
  destruct (m s) as [a s'|e s']; simpl in Hm.
  - apply Hk, Hm.
  - exact Hm.
Qed.

Lemma preserves_ret {S A} (P : S -> Prop) (a : A) : preserves P (ret a).
Proof. intros s Hs. exact Hs. Qed.

Lemma preserves_throw {S A} (P : S -> Prop) (e : exn) :
  preserves P (@throw S A e).
Proof. intros s Hs. exact Hs. Qed.

Lemma preserves_lift_result {S A} (P : S -> Prop) (r : result A) :
  preserves P (@lift_result S A r).
Proof. destruct r; [apply preserves_ret|apply preserves_throw]. Qed.

Lemma preserves_for_each {S A} (P : S -> Prop) (body : A -> M S unit)
      (l : list A) :
  (forall a, preserves P (body a)) -> preserves P (for_each body l).
Proof.
  intros Hbody. induction l as [|a l IH]; simpl.
  - apply preserves_ret.
  - apply preserves_mbind; [apply Hbody|intros _; exact IH].
Qed.

(** *** set_code *)

Lemma apply_code_base_format (code : Z) (h : handler) :
  base_format (apply_code code h) = base_format h.
Proof.
  unfold apply_code.
  repeat match goal with
         | |- context [if ?b then _ else _] => destruct b
         end; reflexivity.
Qed.

Lemma apply_code_well_formed (code : Z) (h : handler) :
  well_formed h = true -> well_formed (apply_code code h) = true.
Proof.
  intros Hwf. pose proof Hwf as Hwf'.
  apply well_formed_spec in Hwf' as (Hlen & Hint & Hfg & Hbg).
  unfold apply_code.
  repeat match goal with
         | |- context [if ?b then _ else _] =>
             let E := fresh "E" in destruct b eqn:E
         end; try exact Hwf;
    apply well_formed_spec; simpl;
    (split; [exact Hlen|]);
    (split; [first [exact Hint | left; reflexivity | right; reflexivity]|]);
    (split; intros c Hc);
    try discriminate; try (apply Hfg; exact Hc); try (apply Hbg; exact Hc);
    injection Hc as <-;
    repeat match goal with
           | H : (_ && _)%bool = true |- _ => apply andb_true_iff in H as [? ?]
           end; lia.
Qed.

(** On a ready handler every code is applied and resolved: the call
    returns, and the cache is consistent afterwards. *)
Lemma set_code_returns (code : Z) (h : handler) :
  ready h ->
  exists h',
    set_code code h = Return tt h' /\ ready h' /\ consistent h'.
Proof.
  intros [Hwf Hbase]. unfold set_code, mbind, modify.
  set (h1 := apply_code code h).
  assert (Hwf1 : well_formed h1 = true) by (apply apply_code_well_formed, Hwf).
  destruct (base_format h1) as [base|] eqn:Hb1.
  2: { unfold h1 in Hb1. rewrite apply_code_base_format in Hb1. congruence. }
  destruct (choices_in_range h1 base Hwf1) as (fg & bg & Hfg & Hbg).
  pose proof (set_style_with_base h1 base Hb1) as Hstyle.
  rewrite Hfg, Hbg in Hstyle.
  eexists. split; [exact Hstyle|]. split.
  - split; [exact Hwf1|]. simpl. congruence.
  - apply (set_style_consistent h1 _ base Hb1 Hstyle).
Qed.

(** *** The colour branch *)

Lemma py_int_raise (s : str) (e : exn) : py_int s = Raise e -> e = ValueError.
Proof.
  unfold py_int.
  repeat match goal with
         | |- context [match ?x with _ => _ end] => destruct x
         end; congruence.
Qed.

Lemma ints_raise (entries : list str) (e : exn) :
  ints entries = Raise e -> e = ValueError.
Proof.
  induction entries as [|a entries IH]; simpl; [discriminate|].
  destruct (py_int a) eqn:Ea.
  - destruct (ints entries); [discriminate|].
    intros [= <-]. apply IH. reflexivity.
  - intros [= <-]. apply (py_int_raise _ _ Ea).
Qed.

Lemma parse_codes_raise (group : str) (e : exn) :
  parse_codes group = Raise e -> e = ValueError.
Proof. apply ints_raise. Qed.

Lemma ints_empty_entry (entries : list str) :
  In [] entries -> ints entries = Raise ValueError.
Proof.
  induction entries as [|a entries IH]; intros Hin; [destruct Hin|].
  simpl. destruct Hin as [->|Hin]; [reflexivity|].
  destruct (py_int a) eqn:Ea.
  - rewrite (IH Hin). reflexivity.
  - rewrite (py_int_raise _ _ Ea). reflexivity.
Qed.

Lemma mbind_assoc {S A B C} (m : M S A) (k : A -> M S B) (k' : B -> M S C)
      (s : S) :
  mbind (mbind m k) k' s = mbind m (fun a => mbind (k a) k') s.
Proof. unfold mbind. destruct (m s); reflexivity. Qed.

Lemma mbind_ext {S A B} (m : M S A) (k k' : A -> M S B) (s : S) :
  (forall a s', k a s' = k' a s') -> mbind m k s = mbind m k' s.
Proof. intros H. unfold mbind. destruct (m s); [apply H|reflexivity]. Qed.

Lemma color_loop_app (text : str) (ms ms' : list Match) (last_end : nat)
      (w : console) :
  color_loop text (ms ++ ms') last_end w
  = mbind (color_loop text ms last_end) (color_loop text ms') w.
Proof.
  revert last_end w. induction ms as [|m ms IH]; intros last_end w;
    [reflexivity|].
  cbn [color_loop app]. rewrite mbind_assoc.
  apply mbind_ext; intros _ w1. rewrite mbind_assoc.
  apply mbind_ext; intros codes w2. rewrite mbind_assoc.
  apply mbind_ext; intros _ w3. rewrite mbind_assoc.
  apply mbind_ext; intros _ w4. apply IH.
Qed.

Lemma on_handler_set_code_returns (code : Z) (w : console) :
  ready (ansi_handler w) ->
  exists h',
    on_handler (set_code code) w = Return tt (with_handler h' w)
    /\ ready h' /\ consistent h'.
Proof.
  intros Hr. destruct (set_code_returns code _ Hr) as (h' & Hret & Hr' & Hc').
  exists h'. unfold on_handler. rewrite Hret. auto.
Qed.

Lemma for_each_set_code_returns (codes : list Z) (w : console) :
  ready (ansi_handler w) ->
  exists h',
    for_each (fun code => on_handler (set_code code)) codes w
    = Return tt (with_handler h' w)
    /\ ready h'
    /\ (consistent (ansi_handler w) \/ codes <> [] -> consistent h').
Proof.
  revert w. induction codes as [|code codes IH]; intros w Hr.
  - exists (ansi_handler w). destruct w; simpl.
    split; [reflexivity|]. split; [exact Hr|].
    intros [H|H]; [exact H|congruence].
  - destruct (on_handler_set_code_returns code w Hr) as (h1 & Hret & Hr1 & Hc1).
    destruct (IH (with_handler h1 w) Hr1) as (h2 & Hret2 & Hr2 & Hc2).
    exists h2. cbn [for_each]. rewrite (mbind_return _ _ _ _ _ Hret).
    rewrite Hret2. split; [reflexivity|]. split; [exact Hr2|].
    intros _. apply Hc2. left. exact Hc1.
Qed.

Lemma ints_length (entries : list str) (codes : list Z) :
  ints entries = Ok codes -> length codes = length entries.
Proof.
  revert codes. induction entries as [|a entries IH]; intros codes; simpl.
  - intros [= <-]. reflexivity.
  - destruct (py_int a); [|discriminate].
    destruct (ints entries); [|discriminate].
    intros [= <-]. simpl. rewrite (IH _ eq_refl). reflexivity.
Qed.

Lemma parse_codes_nonempty (group : str) (codes : list Z) :
  parse_codes group = Ok codes -> codes <> [].
Proof.
  intros H. apply ints_length in H. intros ->.
  pose proof (ReindentFacts.split1_nonempty SEMICOLON group) as Hne.
  destruct (split_from [SEMICOLON] 0 group); [congruence|discriminate].
Qed.

(** One round of the loop on a sequence whose parameters parse. *)
Lemma color_loop_step_returns (text : str) (m : Match) (ms : list Match)
      (last_end : nat) (w : console) (codes : list Z) :
  ready (ansi_handler w) ->
  parse_codes (m_group1 m) = Ok codes ->
  exists h',
    ready h' /\ consistent h'
    /\ color_loop text (m :: ms) last_end w
       = color_loop text ms (m_end m) (after_sequence text m last_end h' w).
Proof.
  intros Hr Hparse. cbn [color_loop].
  unfold insert_default, insertText, mbind at 1, get, modify.
  unfold mbind at 1. rewrite Hparse. cbn [lift_result ret].
  set (w1 := with_document _ w).
  assert (Hr1 : ready (ansi_handler w1)) by exact Hr.
  destruct (for_each_set_code_returns codes w1 Hr1) as (h' & Hfor & Hr' & Hc').
  assert (Hc : consistent h').
  { apply Hc'. right. apply (parse_codes_nonempty _ _ Hparse). }
  exists h'. split; [exact Hr'|]. split; [exact Hc|].
  unfold mbind at 1, ret at 1. unfold mbind at 1. rewrite Hfor.
  unfold mbind at 1, take_handler_format, modify.
  cbn [ansi_handler with_handler].
  destruct Hc as (base & cached & _ & Hcached & _). rewrite Hcached.
  reflexivity.
Qed.

Lemma color_loop_returns (text : str) (ms : list Match) (last_end : nat)
      (w : console) :
  ready (ansi_handler w) ->
  Forall parses ms ->
  exists le w',
    color_loop text ms last_end w = Return le w'
    /\ ready (ansi_handler w')
    /\ (consistent (ansi_handler w) \/ ms <> [] -> consistent (ansi_handler w')).
Proof.
  intros Hr Hall. revert last_end w Hr.
  induction Hall as [|m ms [codes Hm] _ IH]; intros last_end w Hr.
  - exists last_end, w. split; [reflexivity|]. split; [exact Hr|].
    intros [H|H]; [exact H|congruence].
  - destruct (color_loop_step_returns text m ms last_end w codes Hr Hm)
      as (h' & Hr' & Hc' & Hstep).
    destruct (IH (m_end m) (after_sequence text m last_end h' w) Hr')
      as (le & w' & Hret & Hr'' & Hc'').
    exists le, w'. rewrite Hstep. split; [exact Hret|]. split; [exact Hr''|].
    intros _. apply Hc''. left. exact Hc'.
Qed.

(** A sequence with a parameter [int] rejects: the run before it is
    inserted, then the list of codes raises, before any code is applied. *)
Lemma color_loop_step_raises (text : str) (m : Match) (ms : list Match)
      (last_end : nat) (w : console) (e : exn) :
  parse_codes (m_group1 m) = Raise e ->
  color_loop text (m :: ms) last_end w
  = Throw ValueError
          (with_document
             (document w
                ++ [(slice text last_end (m_start m), default_format w)]) w).
Proof.
  intros Hparse. rewrite (parse_codes_raise _ _ Hparse) in Hparse.
  cbn [color_loop].
  unfold insert_default, insertText, mbind at 1, get, modify.
  unfold mbind at 1. rewrite Hparse. reflexivity.
Qed.

Lemma append_text_to_shell_decode (text : str) (w : console) :
  append_text_to_shell text false false w
  = finish (decode (fst (form_feed_loop (S (length text)) text w))
                   (snd (form_feed_loop (S (length text)) text w))).
Proof.
  unfold append_text_to_shell, mbind at 1, get.
  destruct (form_feed_loop (S (length text)) text w) as [t w0].
  cbn [fst snd]. unfold mbind, modify, finish.
  destruct (decode t w0) as [[] w1|e w1]; reflexivity.
Qed.

Lemma form_feed_loop_handler (fuel : nat) (text : str) (w : console) :
  ansi_handler (snd (form_feed_loop fuel text w)) = ansi_handler w.
Proof.
  revert text w. induction fuel as [|fuel IH]; intros text w; [reflexivity|].
  simpl. destruct (find FF text); [|reflexivity].
  rewrite IH. reflexivity.
Qed.

(** C1: the defect.  The colour branch is what [append_text_to_shell]
    runs, after the form feeds, when [error] and [prompt] are false.  On a
    console whose handler is ready it returns when the parameters of every
    matched sequence are accepted by [int].  At the first sequence with a
    parameter [int] rejects, an empty one included, it raises [ValueError]
    instead of ignoring the sequence: the sequences before it have been
    applied, the run before it has been inserted, no code of the sequence
    is applied, and nothing after it is decoded. *)
Theorem decode_raises_on_bad_parameters (text : str) (w : console) :
  ready (ansi_handler w) ->
  let t := fst (form_feed_loop (S (length text)) text w) in
  let w0 := snd (form_feed_loop (S (length text)) text w) in
  append_text_to_shell text false false w = finish (decode t w0)
  /\ (Forall parses (finditer t) ->
      exists w', append_text_to_shell text false false w = Return tt w')
  /\ (forall ms m rest e,
         finditer t = ms ++ m :: rest ->
         Forall parses ms ->
         parse_codes (m_group1 m) = Raise e ->
         exists le w1,
           color_loop t ms 0 w0 = Return le w1
           /\ append_text_to_shell text false false w
              = Throw ValueError
                      (with_document
                         (document w1
                            ++ [(slice t le (m_start m), default_format w1)])
                         w1))
  /\ (forall g, In [] (split_from [SEMICOLON] 0 g) ->
                parse_codes g = Raise ValueError).
Proof.
  intros Hready t w0.
  assert (Hr : ready (ansi_handler w0)).
  { unfold w0. rewrite form_feed_loop_handler. exact Hready. }
  pose proof (append_text_to_shell_decode text w) as Happend.
  fold t w0 in Happend.
  split; [exact Happend|]. split; [|split].
  - intros Hall. rewrite Happend. unfold decode.
    destruct (color_loop_returns t (finditer t) 0 w0 Hr Hall)
      as (le & w' & Hret & _ & _).
    rewrite (mbind_return _ _ _ _ _ Hret). eexists. reflexivity.
  - intros ms m rest e Hfind Hall Hparse.
    destruct (color_loop_returns t ms 0 w0 Hr Hall)
      as (le & w1 & Hret & _ & _).
    exists le, w1. split; [exact Hret|].
    rewrite Happend. unfold decode.
    rewrite Hfind. unfold mbind at 1. rewrite color_loop_app.
    rewrite (mbind_return _ _ _ _ _ Hret).
    rewrite (color_loop_step_raises t m rest le w1 e Hparse). reflexivity.
  - intros g Hin. apply ints_empty_entry, Hin.
Qed.

Lemma decode_raises_witness :
  (exists w', append_text_to_shell
                ([ESC] ++ lit "[31mX" ++ [ESC] ++ lit "[0mY") false false
                sample_console = Return tt w')
  /\ exists le w1,
      color_loop ([ESC] ++ lit "[31mX" ++ [ESC] ++ lit "[mY")
                 [{| m_start := 0; m_end := 5; m_group1 := lit "31" |}]
                 0 sample_console
      = Return le w1
      /\ append_text_to_shell
           ([ESC] ++ lit "[31mX" ++ [ESC] ++ lit "[mY") false false
           sample_console
         = Throw ValueError
                 (with_document
                    (document w1
                       ++ [(slice ([ESC] ++ lit "[31mX" ++ [ESC] ++ lit "[mY")
                                  le 6,
                            default_format w1)])
                    w1).
Proof.
  assert (Hready : ready (ansi_handler sample_console))
    by (split; [reflexivity|discriminate]).
  split.
  - apply (proj1 (proj2 (decode_raises_on_bad_parameters
                           ([ESC] ++ lit "[31mX" ++ [ESC] ++ lit "[0mY")
                           sample_console Hready))).
    repeat constructor; eexists; reflexivity.
  - apply (proj1 (proj2 (proj2 (decode_raises_on_bad_parameters
                                  ([ESC] ++ lit "[31mX" ++ [ESC] ++ lit "[mY")
                                  sample_console Hready)))
                 [{| m_start := 0; m_end := 5; m_group1 := lit "31" |}]
                 {| m_start := 6; m_end := 9; m_group1 := [] |}
                 [] ValueError).
    + reflexivity.
    + repeat constructor. eexists; reflexivity.
    + reflexivity.
Defined.

(** The failing inputs, evaluated.  [ESC [ m], whose only parameter is
    empty, and [ESC [ 1 ; x m], with a parameter that is not a number,
    raise [ValueError]; the text after the sequence is not inserted. *)
Lemma decode_is_not_total :
  append_text_to_shell (lit "a" ++ [ESC] ++ lit "[mb") false false
                       sample_console
  = Throw ValueError
          (with_document [(lit "a", Some (style_format 0 false false false))]
                         sample_console)
  /\ append_text_to_shell (lit "a" ++ [ESC] ++ lit "[1;xmb") false false
                          sample_console
     = Throw ValueError
             (with_document [(lit "a", Some (style_format 0 false false false))]
                            sample_console).
Proof. split; vm_compute; reflexivity. Qed.

(** *** The cached style across the public operations *)

Lemma error_line_handler (text : str) (w : console) :
  ansi_handler (state_of (error_line text w)) = ansi_handler w.
Proof.
  unfold error_line, mbind, get.
  destruct (startswith _ text && negb (startswith _ text)); reflexivity.
Qed.

Lemma error_loop_handler (lines : list str) (b : bool) (w : console) :
  ansi_handler (state_of (error_loop lines b w)) = ansi_handler w.
Proof.
  revert b w. induction lines as [|l lines IH]; intros b w; [reflexivity|].
  cbn [error_loop]. unfold mbind.
  pose proof (error_line_handler l w) as Hl.
  destruct (error_line l w) as [t w1|e w1]; simpl in Hl.
  - rewrite IH. exact Hl.
  - exact Hl.
Qed.

Lemma settled_on_handler_set_code (code : Z) :
  preserves settled (on_handler (set_code code)).
Proof.
  intros w [Hr _].
  destruct (on_handler_set_code_returns code w Hr) as (h' & -> & Hr' & Hc').
  split; assumption.
Qed.

Lemma settled_color_loop (text : str) (ms : list Match) (last_end : nat) :
  preserves settled (color_loop text ms last_end).
Proof.
  revert last_end. induction ms as [|m ms IH]; intros last_end.
  - apply preserves_ret.
  - cbn [color_loop].
    apply preserves_mbind; [intros w Hw; exact Hw|intros _].
    apply preserves_mbind; [apply preserves_lift_result|intros codes].
    apply preserves_mbind;
      [apply preserves_for_each; intros code;
       apply settled_on_handler_set_code|intros _].
    apply preserves_mbind; [|intros _; apply IH].
    intros w Hw. unfold take_handler_format, modify. simpl.
    destruct (get_format (ansi_handler w)); exact Hw.
Qed.

Lemma settled_decode (text : str) : preserves settled (decode text).
Proof.
  unfold decode. apply preserves_mbind; [apply settled_color_loop|].
  intros le w Hw. exact Hw.
Qed.

Lemma settled_append_text_to_shell (text : str) (error prompt : bool) :
  preserves settled (append_text_to_shell text error prompt).
Proof.
  intros w Hw. unfold append_text_to_shell, mbind at 1, get.
  pose proof (form_feed_loop_handler (S (length text)) text w) as Hh.
  destruct (form_feed_loop (S (length text)) text w) as [t w0].
  simpl in Hh.
  assert (Hw0 : settled w0) by (unfold settled; rewrite Hh; exact Hw).
  unfold mbind at 1, modify at 1.
  revert w0 Hw0 Hh. clear Hw.
  change (forall w0, settled w0 -> ansi_handler w0 = ansi_handler w ->
            settled (state_of
              (mbind (if error
                      then mbind (error_loop (splitlines_keepends t) false)
                                 (fun is_traceback =>
                                    if is_traceback
                                    then modify (emit traceback_available)
                                    else ret tt)
                      else if prompt
                           then insertText t (prompt_style_format w0)
                           else decode t)
                     (fun _ => mbind get
                                 (fun w' =>
                                    modify (with_char_format
                                              (default_format w'))))
                     w0))).
  intros w0 Hw0 _. revert w0 Hw0.
  apply preserves_mbind.
  - destruct error; [|destruct prompt].
    + apply preserves_mbind.
      * intros w0 Hw0. unfold settled. rewrite error_loop_handler. exact Hw0.
      * intros []; intros w0 Hw0; exact Hw0.
    + intros w0 Hw0. exact Hw0.
    + apply settled_decode.
  - intros _ w0 Hw0. exact Hw0.
Qed.

Lemma consistent_set_light_background (state : bool) (h : handler) :
  consistent h -> consistent (set_light_background state h).
Proof.
  intros (base & cached & Hb & Hc & Hr). exists base, cached.
  repeat split; assumption.
Qed.

(** C7, as amended.  On a console whose handler has a base format and
    attributes in range, a cache that is consistent stays so across
    [append_text_to_shell], whether the call returns or raises; every
    [set_code] on such a handler, and every [set_style] that returns,
    leaves the cache consistent; [set_light_background] changes neither
    the cache nor its consistency. *)
Theorem cached_style_consistent_after_decode :
  (forall text error prompt w,
      settled w ->
      settled (state_of (append_text_to_shell text error prompt w)))
  /\ (forall code h,
         ready h ->
         exists h', set_code code h = Return tt h' /\ consistent h')
  /\ (forall h h' base,
         base_format h = Some base ->
         set_style h = Return tt h' ->
         consistent h')
  /\ (forall state h,
         consistent h ->
         consistent (set_light_background state h)
         /\ get_format (set_light_background state h) = get_format h).
Proof.
  split; [|split; [|split]].
  - intros text error prompt. apply settled_append_text_to_shell.
  - intros code h Hr.
    destruct (set_code_returns code h Hr) as (h' & Hret & _ & Hc).
    exists h'. split; assumption.
  - intros h h' base Hb Hret.
    apply (set_style_consistent h h' base Hb Hret).
  - intros state h Hc. split; [|reflexivity].
    apply consistent_set_light_background, Hc.
Qed.

Lemma cached_style_consistent_witness :
  let h := state_of (set_code 31 (ansi_handler sample_console)) in
  settled (state_of (append_text_to_shell
                       ([ESC] ++ lit "[1mX") false false
                       (with_handler h sample_console)))
  /\ consistent (set_light_background false h).
Proof.
  intros h.
  assert (Hc : consistent h).
  { exists (style_format 0 false false false),
           (setForeground (ColorName (lit "#800000"))
                          (style_format 0 false false false)).
    repeat split. }
  split.
  - apply (proj1 cached_style_consistent_after_decode).
    split; [split; [reflexivity|discriminate]|exact Hc].
  - apply (proj2 (proj2 (proj2 cached_style_consistent_after_decode))).
    exact Hc.
Defined.

(** C7, the claim as stated.  [set_base_format] is a public operation of
    the handler too, and it does not refresh the cache: after it,
    [get_format] still returns the style resolved against the base format
    of before.  That is what happens when the console is switched to a dark
    background, which gives the handler the inverted default style as base
    format. *)
Lemma set_base_format_leaves_cache_stale :
  let light := apply_style default_style application_font true true in
  let dark := apply_style default_style application_font false true in
  let h := state_of (set_style (set_base_format (Some light) sample_handler)) in
  let w1 := state_of (append_text_to_shell ([ESC] ++ lit "[1mX") false false
                                           sample_console) in
  let w2 := console_set_light_background false w1 in
  (consistent h
   /\ get_format (set_base_format (Some dark) h) = Some light
   /\ resolve (set_base_format (Some dark) h) dark = Some (style_of dark)
   /\ ~ consistent (set_base_format (Some dark) h))
  /\ (consistent (ansi_handler w1)
      /\ base_format (ansi_handler w2) = Some dark
      /\ get_format (ansi_handler w2) = get_format (ansi_handler w1)
      /\ ~ consistent (ansi_handler w2)).
Proof.
  intros light dark h w1 w2. split; (split; [|split; [|split]]).
  - exists light, light. repeat split.
  - reflexivity.
  - reflexivity.
  - intros (base & cached & Hb & Hc & Hr).
    vm_compute in Hb, Hc. injection Hb as <-. injection Hc as <-.
    vm_compute in Hr. discriminate.
  - eexists _, _. repeat split; vm_compute; reflexivity.
  - reflexivity.
  - reflexivity.
  - intros (base & cached & Hb & Hc & Hr).
    vm_compute in Hb, Hc. injection Hb as <-. injection Hc as <-.
    vm_compute in Hr. discriminate.
Qed.

(** *** The pattern *)

Lemma until_m_spec (s g rest : str) :
  until_m s = Some (g, rest) <->
  s = g ++ LETTER_m :: rest /\ ~ In LETTER_m g /\ ~ In LF g.
Proof.
  revert g rest. induction s as [|c s IH]; intros g rest; simpl.
  - split; [discriminate|]. intros (H & _). destruct g; discriminate.
  - destruct (eqc c LETTER_m) eqn:Em.
    + apply eqc_true in Em. subst c. split.
      * intros [= <- <-]. repeat split; auto.
      * intros (H & Hm & _). destruct g as [|a g].
        -- injection H as <-. reflexivity.
        -- injection H as <- _. exfalso. apply Hm. left; reflexivity.
    + apply eqc_false in Em. destruct (eqc c LF) eqn:El.
      * apply eqc_true in El. subst c. split; [discriminate|].
        intros (H & _ & Hl). destruct g as [|a g].
        -- injection H as H _. congruence.
        -- injection H as <- _. exfalso. apply Hl. left; reflexivity.
      * apply eqc_false in El.
        destruct (until_m s) as [[g' rest']|] eqn:E.
        -- split.
           ++ intros [= <- <-]. destruct (proj1 (IH g' rest') eq_refl)
                as (-> & Hm & Hl).
              repeat split.
              ** intros [H|H]; [congruence|contradiction].
              ** intros [H|H]; [congruence|contradiction].
           ++ intros (H & Hm & Hl). destruct g as [|a g].
              ** injection H as H _. congruence.
              ** injection H as <- H.
                 assert (E' : Some (g', rest') = Some (g, rest)).
                 { apply IH. repeat split; [exact H| |];
                     intros Hin; [apply Hm|apply Hl]; right; exact Hin. }
                 injection E' as <- <-. reflexivity.
        -- split; [discriminate|]. intros (H & Hm & Hl).
           destruct g as [|a g].
           ++ injection H as H _. congruence.
           ++ injection H as <- H.
              assert (E' : None = Some (g, rest)).
              { apply IH. repeat split; [exact H| |];
                  intros Hin; [apply Hm|apply Hl]; right; exact Hin. }
              discriminate.
Qed.

Lemma match_csi_spec (s g : str) (n : nat) :
  match_csi s = Some (n, g) <->
  exists rest,
    s = ESC :: LBRACKET :: g ++ LETTER_m :: rest
    /\ ~ In LETTER_m g /\ ~ In LF g
    /\ n = 2 + length g + 1 + stx_taken rest.
Proof.
  unfold match_csi. destruct s as [|e [|b s]].
  - split; [discriminate|]. intros (rest & H & _). discriminate.
  - split; [discriminate|]. intros (rest & H & _). discriminate.
  - destruct (eqc e ESC) eqn:Ee; [apply eqc_true in Ee|apply eqc_false in Ee].
    2: { simpl. split; [discriminate|]. intros (rest & H & _).
         injection H as H _. congruence. }
    destruct (eqc b LBRACKET) eqn:Eb;
      [apply eqc_true in Eb|apply eqc_false in Eb].
    2: { simpl. split; [discriminate|]. intros (rest & H & _).
         injection H as _ H _. congruence. }
    subst e b. simpl andb. cbv iota.
    destruct (until_m s) as [[g' rest']|] eqn:E.
    + apply until_m_spec in E as (-> & Hm & Hl). split.
      * intros [= <- <-]. exists rest'. repeat split; auto.
      * intros (rest & H & Hm' & Hl' & ->). injection H as H.
        assert (E' : until_m (g' ++ LETTER_m :: rest') = Some (g, rest)).
        { apply until_m_spec. repeat split; assumption. }
        assert (E'' : until_m (g' ++ LETTER_m :: rest') = Some (g', rest')).
        { apply until_m_spec. repeat split; auto. }
        rewrite E' in E''. injection E'' as <- <-. reflexivity.
    + split; [discriminate|]. intros (rest & H & Hm' & Hl' & _).
      injection H as H.
      assert (E' : until_m s = Some (g, rest)).
      { apply until_m_spec. repeat split; assumption. }
      congruence.
Qed.

Lemma match_csi_head (s g : str) (n : nat) :
  match_csi s = Some (n, g) -> exists s', s = ESC :: s'.
Proof.
  intros H. apply match_csi_spec in H as (rest & -> & _).
  eexists; reflexivity.
Qed.

Lemma COLOR_PATTERN_match_csi (s g : str) (n : nat) :
  COLOR_PATTERN_match s = Some (n, g) <->
  match_csi s = Some (n, g)
  \/ exists s' n', s = SOH :: s' /\ match_csi s' = Some (n', g) /\ n = S n'.
Proof.
  unfold COLOR_PATTERN_match. destruct s as [|c s].
  { split; [intros H; left; exact H|].
    intros [H|(s' & n' & H & _)]; [exact H|discriminate]. }
  destruct (eqc c SOH) eqn:E; [apply eqc_true in E|apply eqc_false in E].
  - subst c. destruct (match_csi s) as [[n' g']|] eqn:Es.
    + split.
      * intros [= <- <-]. right. exists s, n'. auto.
      * intros [H|(s' & n'' & [= <-] & H & ->)].
        -- apply match_csi_head in H as (s' & H). discriminate.
        -- rewrite Es in H. injection H as <- <-. reflexivity.
    + split.
      * intros H. left; exact H.
      * intros [H|(s' & n'' & [= <-] & H & ->)]; [exact H|congruence].
  - split.
    + intros H. left; exact H.
    + intros [H|(s' & n' & [= H _] & _)]; [exact H|congruence].
Qed.

Lemma stx_taken_marker (stx : bool) (rest : str) :
  (stx = false -> stx_taken rest = 0) ->
  stx_taken (marker stx STX ++ rest) = length (marker stx STX).
Proof. destruct stx; simpl; auto. Qed.

Lemma stx_taken_split (rest : str) :
  exists stx rest',
    rest = marker stx STX ++ rest'
    /\ (stx = false -> stx_taken rest' = 0)
    /\ stx_taken rest = length (marker stx STX).
Proof.
  destruct rest as [|c rest].
  - exists false, []. repeat split.
  - simpl. destruct (eqc c STX) eqn:E.
    + apply eqc_true in E. subst c. exists true, rest.
      repeat split. discriminate.
    + exists false, (c :: rest). simpl. rewrite E. repeat split.
Qed.

(** The pattern matches at the head of a text exactly when the text
    starts with a sequence [ESC [ params m], with or without its markers,
    whose parameters contain neither [m] nor a newline; the match is that
    sequence, the [\x02] included whenever it is there. *)
Lemma COLOR_PATTERN_match_spec (s g : str) (n : nat) :
  COLOR_PATTERN_match s = Some (n, g) <->
  exists soh stx rest,
    s = sequence soh g stx ++ rest
    /\ ~ In LETTER_m g /\ ~ In LF g
    /\ (stx = false -> stx_taken rest = 0)
    /\ n = length (sequence soh g stx).
Proof.
  rewrite COLOR_PATTERN_match_csi. split.
  - intros [H|(s' & n' & -> & H & ->)];
      apply match_csi_spec in H as (rest & -> & Hm & Hl & ->);
      destruct (stx_taken_split rest) as (stx & rest' & -> & Hgreedy & Hlen).
    + exists false, stx, rest'. unfold sequence. simpl marker at 1.
      repeat split; try assumption.
      * simpl. rewrite <- !app_assoc. reflexivity.
      * rewrite Hlen. simpl. rewrite !length_app. simpl. lia.
    + exists true, stx, rest'. unfold sequence. simpl marker at 1.
      repeat split; try assumption.
      * simpl. rewrite <- !app_assoc. reflexivity.
      * rewrite Hlen. simpl. rewrite !length_app. simpl. lia.
  - intros (soh & stx & rest & -> & Hm & Hl & Hgreedy & ->).
    assert (Hcsi : match_csi (ESC :: LBRACKET :: g ++ LETTER_m
                                  :: marker stx STX ++ rest)
                   = Some (2 + length g + 1 + length (marker stx STX), g)).
    { apply match_csi_spec. exists (marker stx STX ++ rest).
      repeat split; try assumption.
      rewrite stx_taken_marker by exact Hgreedy. reflexivity. }
    unfold sequence. destruct soh; simpl marker at 1.
    + right. eexists _, _. split; [|split; [|]].
      * simpl. rewrite <- !app_assoc. simpl. reflexivity.
      * exact Hcsi.
      * simpl. rewrite !length_app. simpl. lia.
    + left. simpl app. rewrite <- app_assoc. simpl app.
      rewrite Hcsi. f_equal. f_equal. simpl. rewrite !length_app. simpl. lia.
Qed.

Lemma COLOR_PATTERN_match_length (s g : str) (n : nat) :
  COLOR_PATTERN_match s = Some (n, g) -> 1 <= n <= length s.
Proof.
  intros H.
  apply COLOR_PATTERN_match_spec in H as (soh & stx & rest & -> & _ & _ & _ & ->).
  rewrite length_app. unfold sequence. rewrite !length_app. simpl. lia.
Qed.

(** *** The one-pass reading agrees with the loop over the matches *)

Lemma slice_snoc (done s' : str) (c : ascii) (le : nat) :
  le <= length done ->
  slice (done ++ c :: s') le (S (length done))
  = slice (done ++ c :: s') le (length done) ++ [c].
Proof.
  intros Hle. unfold slice.
  rewrite skipn_app.
  replace (le - length done) with 0 by lia. simpl skipn.
  assert (Hk : length (skipn le done) = length done - le)
    by apply length_skipn.
  rewrite !firstn_app, Hk.
  replace (S (length done) - le - (length done - le)) with 1 by lia.
  replace (length done - le - (length done - le)) with 0 by lia.
  rewrite (@firstn_all2 _ (S (length done) - le) (skipn le done)) by lia.
  rewrite (@firstn_all2 _ (length done - le) (skipn le done)) by lia.
  simpl. rewrite app_nil_r. reflexivity.
Qed.

Lemma slice_empty (text : str) (i : nat) : slice text i i = [].
Proof. unfold slice. rewrite Nat.sub_diag. reflexivity. Qed.

Lemma slice_to_end (text : str) (i : nat) :
  slice text i (length text) = skipn i text.
Proof.
  unfold slice. apply firstn_all2. rewrite length_skipn. lia.
Qed.

Lemma stream_agrees (text : str) (s done : str) (skip last_end : nat)
      (run : str) (w : console) :
  text = done ++ s ->
  (skip = 0 /\ last_end <= length done
   /\ run = slice text last_end (length done))
  \/ (0 < skip <= length s /\ last_end = length done + skip /\ run = []) ->
  mbind (color_loop text (finditer_from skip (length done) s) last_end)
        (fun le => insert_default (skipn le text)) w
  = stream skip run s w.
Proof.
  revert done skip last_end run w.
  induction s as [|c s IH]; intros done skip last_end run w Htext Hinv.
  - simpl. destruct Hinv as [(-> & Hle & ->)|(Hskip & _)]; [|simpl in Hskip; lia].
    rewrite app_nil_r in Htext. subst text.
    unfold mbind, ret. rewrite slice_to_end. reflexivity.
  - assert (Htext' : text = (done ++ [c]) ++ s)
      by (rewrite <- app_assoc; exact Htext).
    assert (Hlen' : length (done ++ [c]) = S (length done))
      by (rewrite length_app; simpl; lia).
    destruct skip as [|k].
    + destruct Hinv as [(_ & Hle & ->)|(Hskip & _)]; [|lia].
      cbn [finditer_from stream].
      destruct (COLOR_PATTERN_match (c :: s)) as [[n g]|] eqn:Em.
      * pose proof (COLOR_PATTERN_match_length _ _ _ Em) as Hn.
        simpl length in Hn.
        cbn [color_loop m_start m_end m_group1].
        rewrite mbind_assoc. apply mbind_ext; intros _ w1.
        rewrite mbind_assoc. apply mbind_ext; intros codes w2.
        rewrite mbind_assoc. apply mbind_ext; intros _ w3.
        rewrite mbind_assoc. apply mbind_ext; intros _ w4.
        rewrite <- Hlen'. apply IH; [exact Htext'|].
        destruct (n - 1) as [|k] eqn:Ek.
        -- left. split; [reflexivity|]. split; [lia|].
           replace (length done + n) with (length (done ++ [c])) by lia.
           rewrite slice_empty. reflexivity.
        -- right. split; [lia|]. split; [lia|reflexivity].
      * rewrite <- Hlen'. apply IH; [exact Htext'|].
        left. split; [reflexivity|]. split; [lia|].
        rewrite Hlen'. rewrite Htext at 1 2. symmetry.
        apply slice_snoc, Hle.
    + destruct Hinv as [(H0 & _)|(Hskip & -> & ->)]; [discriminate|].
      cbn [finditer_from stream]. simpl length in Hskip.
      rewrite <- Hlen'. apply IH; [exact Htext'|].
      destruct k as [|k].
      * left. split; [reflexivity|]. split; [lia|].
        replace (length done + 1) with (length (done ++ [c])) by lia.
        rewrite slice_empty. reflexivity.
      * right. split; [lia|]. split; [lia|reflexivity].
Qed.

Lemma decode_stream (text : str) (w : console) :
  decode text w = stream 0 [] text w.
Proof.
  unfold decode, finditer.
  apply (stream_agrees text text [] 0 0 [] w); [reflexivity|].
  left. repeat split. simpl. lia.
Qed.

(** *** Parameters that hold an escape character *)

Lemma skip_int_space_keeps (x : ascii) (s : str) :
  int_space x = false -> In x s -> In x (skip_int_space s).
Proof.
  intros Hx. induction s as [|c s IH]; intros Hin; [destruct Hin|].
  simpl. destruct (int_space c) eqn:Hc; [|exact Hin].
  destruct Hin as [->|Hin]; [congruence|]. apply IH, Hin.
Qed.

Lemma digits_value_esc (acc digits : Z) (u : bool) (s : str) (v d : Z)
      (rest : str) :
  digits_value acc digits u s = Some (v, d, rest) -> In ESC s -> In ESC rest.
Proof.
  revert acc digits u. induction s as [|c s IH]; intros acc digits u H Hin;
    [destruct Hin|].
  simpl in H. destruct (is_digit c) eqn:Hc.
  - destruct Hin as [->|Hin]; [discriminate|]. exact (IH _ _ _ H Hin).
  - destruct (eqc c UNDERSCORE) eqn:Hu.
    + destruct u; [discriminate|].
      destruct Hin as [->|Hin]; [discriminate|]. exact (IH _ _ _ H Hin).
    + destruct u; [discriminate|]. inversion H. subst. exact Hin.
Qed.

Lemma py_int_body_esc (sign : Z) (body : str) :
  In ESC body ->
  match body with
  | [] => Raise ValueError
  | c :: _ =>
      if eqc c UNDERSCORE then Raise ValueError
      else
        match digits_value 0 0 false body with
        | Some (v, digits, rest) =>
            if (digits =? 0)%Z then Raise ValueError
            else if (int_max_str_digits <? digits)%Z then Raise ValueError
            else match skip_int_space rest with
                 | [] => Ok (sign * v)%Z
                 | _ :: _ => Raise ValueError
                 end
        | None => Raise ValueError
        end
  end = Raise ValueError.
Proof.
  intros Hin. destruct body as [|c r]; [reflexivity|].
  destruct (eqc c UNDERSCORE); [reflexivity|].
  destruct (digits_value 0 0 false (c :: r)) as [[[v d] rest]|] eqn:E;
    [|reflexivity].
  destruct (d =? 0)%Z; [reflexivity|].
  destruct (int_max_str_digits <? d)%Z; [reflexivity|].
  pose proof (digits_value_esc _ _ _ _ _ _ _ E Hin) as Hr.
  apply (skip_int_space_keeps ESC rest eq_refl) in Hr.
  destruct (skip_int_space rest); [destruct Hr|reflexivity].
Qed.

Lemma py_int_esc (s : str) : In ESC s -> py_int s = Raise ValueError.
Proof.
  intros Hin. apply (skip_int_space_keeps ESC s eq_refl) in Hin.
  unfold py_int. destruct (skip_int_space s) as [|c r]; [destruct Hin|].
  destruct (eqc c (ascii_of_nat 45)) eqn:Eminus.
  { apply eqc_true in Eminus. subst c.
    destruct Hin as [H|Hin]; [discriminate|].
    apply (py_int_body_esc (-1) r Hin). }
  destruct (eqc c (ascii_of_nat 43)) eqn:Eplus.
  { apply eqc_true in Eplus. subst c.
    destruct Hin as [H|Hin]; [discriminate|].
    apply (py_int_body_esc 1 r Hin). }
  apply (py_int_body_esc 1 (c :: r) Hin).
Qed.

Lemma ints_rejected_entry (entries : list str) (e : str) :
  In e entries -> py_int e = Raise ValueError ->
  ints entries = Raise ValueError.
Proof.
  induction entries as [|a entries IH]; intros Hin He; [destruct Hin|].
  simpl. destruct Hin as [->|Hin]; [rewrite He; reflexivity|].
  destruct (py_int a) eqn:Ea.
  - rewrite (IH Hin He). reflexivity.
  - rewrite (py_int_raise _ _ Ea). reflexivity.
Qed.

Lemma split1_keeps (c x : ascii) (s : str) :
  x <> c -> In x s -> exists e, In e (split_from [c] 0 s) /\ In x e.
Proof.
  intros Hx. induction s as [|a s IH]; intros Hin; [destruct Hin|].
  rewrite ReindentFacts.split1_cons.
  destruct (eqc c a) eqn:E.
  - apply eqc_true in E. subst a.
    destruct Hin as [H|Hin]; [congruence|].
    destruct (IH Hin) as (e & He & Hxe). exists e. split; [right|]; assumption.
  - destruct Hin as [->|Hin].
    + destruct (split_from [c] 0 s) as [|p ps]; eexists; split;
        try (left; reflexivity); left; reflexivity.
    + destruct (IH Hin) as (e & He & Hxe).
      destruct (split_from [c] 0 s) as [|p ps]; [destruct He|].
      destruct He as [->|He].
      * exists (a :: e). split; [left; reflexivity|right; exact Hxe].
      * exists e. split; [right; exact He|exact Hxe].
Qed.

(** A group that holds an escape character is no list of integers. *)
Lemma parse_codes_esc (g : str) :
  In ESC g -> parse_codes g = Raise ValueError.
Proof.
  intros Hin. unfold parse_codes.
  destruct (split1_keeps SEMICOLON ESC g) as (e & He & Hesc);
    [discriminate|exact Hin|].
  apply (ints_rejected_entry _ e He). apply py_int_esc, Hesc.
Qed.

Lemma stream_skip (a b : str) (run : str) (w : console) :
  stream (length a) run (a ++ b) w = stream 0 run b w.
Proof.
  induction a as [|c a IH]; [reflexivity|]. simpl. exact IH.
Qed.

(** A sequence whose group is rejected: the run is inserted, then
    [ValueError]. *)
Lemma stream_rejected (c : ascii) (s : str) (run : str) (w : console)
      (n : nat) (g : str) :
  COLOR_PATTERN_match (c :: s) = Some (n, g) ->
  parse_codes g = Raise ValueError ->
  stream 0 run (c :: s) w
  = Throw ValueError
          (with_document (document w ++ [(run, default_format w)]) w).
Proof.
  intros Hm Hp. cbn [stream]. rewrite Hm, Hp. reflexivity.
Qed.

(** *** A sequence with and without its markers *)

Lemma until_m_app (a : str) :
  (exists g r, a = g ++ LETTER_m :: r
               /\ forall b, until_m (a ++ b) = Some (g, r ++ b))
  \/ (forall b, until_m (a ++ b) = None)
  \/ (~ In LETTER_m a /\ ~ In LF a
      /\ forall b, until_m (a ++ b)
                   = match until_m b with
                     | Some (g', r) => Some (a ++ g', r)
                     | None => None
                     end).
Proof.
  induction a as [|c a IH].
  - right; right. repeat split; auto.
    intros b. simpl. destruct (until_m b) as [[g' r]|]; reflexivity.
  - destruct (eqc c LETTER_m) eqn:Em.
    { left. exists [], a. apply eqc_true in Em. subst c.
      split; [reflexivity|]. intros b. reflexivity. }
    destruct (eqc c LF) eqn:El.
    { right; left. intros b. simpl. rewrite Em, El. reflexivity. }
    destruct IH as [(g & r & -> & H)|[H|(Hm & Hl & H)]].
    + left. exists (c :: g), r. split; [reflexivity|].
      intros b. simpl. rewrite Em, El.
      rewrite H. reflexivity.
    + right; left. intros b. simpl. rewrite Em, El, H. reflexivity.
    + right; right. apply eqc_false in Em. apply eqc_false in El.
      split; [intros [E|E]; [congruence|contradiction]|].
      split; [intros [E|E]; [congruence|contradiction]|].
      intros b. simpl.
      destruct (eqc c LETTER_m) eqn:Em'; [apply eqc_true in Em'; congruence|].
      destruct (eqc c LF) eqn:El'; [apply eqc_true in El'; congruence|].
      rewrite H. destruct (until_m b) as [[g' r]|]; reflexivity.
Qed.

Lemma until_m_sequence (soh stx : bool) (g post : str) :
  ~ In LETTER_m g -> ~ In LF g ->
  until_m (sequence soh g stx ++ post)
  = Some (marker soh SOH ++ ESC :: LBRACKET :: g, marker stx STX ++ post).
Proof.
  intros Hm Hl. apply until_m_spec. split; [|split].
  - unfold sequence. rewrite <- !app_assoc. simpl. rewrite <- !app_assoc.
    reflexivity.
  - intros Hin. apply in_app_or in Hin as [Hin|Hin].
    + destruct soh; simpl in Hin; [destruct Hin as [H|[]]; discriminate|
                                   destruct Hin].
    + destruct Hin as [H|[H|Hin]]; [discriminate|discriminate|auto].
  - intros Hin. apply in_app_or in Hin as [Hin|Hin].
    + destruct soh; simpl in Hin; [destruct Hin as [H|[]]; discriminate|
                                   destruct Hin].
    + destruct Hin as [H|[H|Hin]]; [discriminate|discriminate|auto].
Qed.

Lemma stx_taken_sequence (soh stx : bool) (g post : str) :
  stx_taken (sequence soh g stx ++ post) = 0.
Proof. destruct soh; reflexivity. Qed.

Lemma stx_taken_app (r rest : str) :
  r <> [] -> stx_taken (r ++ rest) = stx_taken r.
Proof. destruct r; [congruence|reflexivity]. Qed.

Lemma stx_taken_le (r : str) : stx_taken r <= length r.
Proof.
  destruct r as [|c r]; simpl; [lia|]. destruct (eqc c STX); lia.
Qed.

Lemma in_group_esc (a : str) (soh : bool) (g : str) :
  In ESC (a ++ marker soh SOH ++ ESC :: LBRACKET :: g).
Proof.
  apply in_or_app; right. apply in_or_app; right. left; reflexivity.
Qed.

Lemma match_csi_before_sequence (q : str) (soh stx : bool) (g post : str) :
  q <> [] ->
  ~ In LETTER_m g -> ~ In LF g ->
  same_match (length q)
             (match_csi (q ++ sequence soh g stx ++ post))
             (match_csi (q ++ sequence false g false ++ post)).
Proof.
  intros Hq Hm Hl. destruct q as [|e [|b a]]; [congruence| |].
  - assert (H : forall s1 s2, match_csi ([e] ++ sequence s1 g s2 ++ post) = None).
    { intros s1 s2. unfold match_csi.
      destruct s1; simpl; destruct (eqc e ESC); reflexivity. }
    rewrite !H. constructor.
  - change ((e :: b :: a) ++ ?s) with (e :: b :: (a ++ s)).
    unfold match_csi. destruct (eqc e ESC && eqc b LBRACKET); [|constructor].
    destruct (until_m_app a) as [(g' & r & -> & H)|[H|(Ham & Hal & H)]].
    + rewrite !H.
      assert (Hstx : stx_taken (r ++ sequence soh g stx ++ post)
                     = stx_taken (r ++ sequence false g false ++ post)).
      { destruct r as [|c r]; [|reflexivity].
        rewrite !app_nil_l, !stx_taken_sequence. reflexivity. }
      change (match r ++ sequence soh g stx ++ post with
              | [] => 0
              | c :: _ => if eqc c STX then 1 else 0
              end) with (stx_taken (r ++ sequence soh g stx ++ post)).
      change (match r ++ sequence false g false ++ post with
              | [] => 0
              | c :: _ => if eqc c STX then 1 else 0
              end) with (stx_taken (r ++ sequence false g false ++ post)).
      rewrite Hstx. apply same_inside.
      assert (Hle : stx_taken (r ++ sequence false g false ++ post)
                    <= length r).
      { destruct r as [|c r].
        - rewrite app_nil_l, stx_taken_sequence. lia.
        - rewrite stx_taken_app by discriminate. apply stx_taken_le. }
      simpl length. rewrite length_app. simpl length. lia.
    + rewrite !H. constructor.
    + rewrite !H, !until_m_sequence by assumption.
      apply same_rejected; apply in_group_esc.
Qed.

Lemma COLOR_PATTERN_match_before_sequence
      (p : str) (soh stx : bool) (g post : str) :
  p <> [] ->
  p <> [SOH] ->
  ~ In LETTER_m g -> ~ In LF g ->
  same_match (length p)
             (COLOR_PATTERN_match (p ++ sequence soh g stx ++ post))
             (COLOR_PATTERN_match (p ++ sequence false g false ++ post)).
Proof.
  intros Hp Hsoh Hm Hl. destruct p as [|c p]; [congruence|].
  change ((c :: p) ++ ?s) with (c :: (p ++ s)).
  unfold COLOR_PATTERN_match.
  destruct (eqc c SOH) eqn:Ec.
  - apply eqc_true in Ec. subst c.
    assert (Hp' : p <> []) by (intros ->; congruence).
    assert (Hnone : forall s1 s2,
               match_csi (SOH :: p ++ sequence s1 g s2 ++ post) = None).
    { intros s1 s2. destruct p as [|b p]; [congruence|]. reflexivity. }
    pose proof (match_csi_before_sequence p soh stx g post Hp' Hm Hl) as H.
    destruct H as [|n g' Hn|n1 g1 n0 g0 H1 H0].
    + rewrite !Hnone. constructor.
    + apply same_inside. simpl. lia.
    + apply same_rejected; assumption.
  - pose proof (match_csi_before_sequence (c :: p) soh stx g post Hp Hm Hl)
      as H.
    exact H.
Qed.

Lemma at_sequence_ext (run g : str) (k k' : M console unit) (w : console) :
  (forall w', k w' = k' w') ->
  at_sequence run g k w = at_sequence run g k' w.
Proof.
  intros H. unfold at_sequence.
  apply mbind_ext; intros _ w1. apply mbind_ext; intros codes w2.
  apply mbind_ext; intros _ w3. apply mbind_ext; intros _ w4. apply H.
Qed.

Lemma stream_match (c : ascii) (s : str) (run : str) (n : nat) (g : str)
      (w : console) :
  COLOR_PATTERN_match (c :: s) = Some (n, g) ->
  stream 0 run (c :: s) w = at_sequence run g (stream (n - 1) [] s) w.
Proof. intros H. cbn [stream]. rewrite H. reflexivity. Qed.

Lemma stream_no_match (c : ascii) (s : str) (run : str) (w : console) :
  COLOR_PATTERN_match (c :: s) = None ->
  stream 0 run (c :: s) w = stream 0 (run ++ [c]) s w.
Proof. intros H. cbn [stream]. rewrite H. reflexivity. Qed.

Lemma sequence_cons (soh stx : bool) (g : str) :
  exists c t, sequence soh g stx = c :: t.
Proof. destruct soh; eexists _, _; reflexivity. Qed.

(** At the head of a sequence, with or without markers, the loop does the
    same: the markers go with the match. *)
Lemma stream_at_sequence (soh stx : bool) (g post run : str) (w : console) :
  ~ In LETTER_m g -> ~ In LF g -> stx_taken post = 0 ->
  stream 0 run (sequence soh g stx ++ post) w
  = at_sequence run g (stream 0 [] post) w.
Proof.
  intros Hm Hl Hpost.
  assert (Hmatch : COLOR_PATTERN_match (sequence soh g stx ++ post)
                   = Some (length (sequence soh g stx), g)).
  { apply COLOR_PATTERN_match_spec. exists soh, stx, post.
    repeat split; auto. }
  destruct (sequence_cons soh stx g) as (c & t & E).
  rewrite E in *. change ((c :: t) ++ post) with (c :: (t ++ post)) in *.
  rewrite (stream_match _ _ _ _ _ _ Hmatch).
  apply at_sequence_ext. intros w'.
  simpl length. rewrite Nat.sub_1_r. simpl pred. apply stream_skip.
Qed.

Lemma not_ends_soh_tail (c : ascii) (p : str) :
  (forall p0, c :: p <> p0 ++ [SOH]) -> forall p0, p <> p0 ++ [SOH].
Proof. intros H p0 E. apply (H (c :: p0)). rewrite E. reflexivity. Qed.

Lemma stream_markers (p : str) (soh stx : bool) (g post : str) :
  ~ In LETTER_m g -> ~ In LF g -> stx_taken post = 0 ->
  (forall p0, p <> p0 ++ [SOH]) ->
  forall skip run w,
    skip <= length p ->
    stream skip run (p ++ sequence soh g stx ++ post) w
    = stream skip run (p ++ sequence false g false ++ post) w.
Proof.
  intros Hm Hl Hpost. induction p as [|c p IH]; intros Hsoh skip run w Hskip.
  - simpl in Hskip. assert (skip = 0) by lia. subst skip.
    rewrite !app_nil_l, !stream_at_sequence by assumption. reflexivity.
  - pose proof (not_ends_soh_tail c p Hsoh) as Hsoh'.
    change ((c :: p) ++ ?s) with (c :: (p ++ s)).
    destruct skip as [|k].
    + pose proof (COLOR_PATTERN_match_before_sequence
                    (c :: p) soh stx g post) as H.
      change ((c :: p) ++ ?s) with (c :: (p ++ s)) in H.
      assert (Hne : c :: p <> [SOH]) by (intros E; apply (Hsoh []); exact E).
      specialize (H ltac:(discriminate) Hne Hm Hl).
      remember (COLOR_PATTERN_match (c :: p ++ sequence soh g stx ++ post))
        as m1 eqn:E1.
      remember (COLOR_PATTERN_match (c :: p ++ sequence false g false ++ post))
        as m0 eqn:E0.
      symmetry in E1, E0.
      destruct H as [|n g' Hn|n1 g1 n0 g0 H1 H0].
      * rewrite !stream_no_match by assumption.
        apply IH; [exact Hsoh'|lia].
      * rewrite (stream_match _ _ _ _ _ _ E1), (stream_match _ _ _ _ _ _ E0).
        apply at_sequence_ext. intros w'.
        apply IH; [exact Hsoh'|]. simpl in Hn. lia.
      * rewrite (stream_rejected _ _ _ _ _ _ E1 (parse_codes_esc _ H1)).
        rewrite (stream_rejected _ _ _ _ _ _ E0 (parse_codes_esc _ H0)).
        reflexivity.
    + cbn [stream]. apply IH; [exact Hsoh'|]. simpl in Hskip. lia.
Qed.

(** Text without an escape character is one run. *)
Lemma COLOR_PATTERN_match_esc (s g : str) (n : nat) :
  COLOR_PATTERN_match s = Some (n, g) ->
  exists c s', s = c :: s'
               /\ (c = ESC \/ (c = SOH /\ exists s'', s' = ESC :: s'')).
Proof.
  intros H.
  apply COLOR_PATTERN_match_spec in H as (soh & stx & rest & -> & _).
  destruct soh; eexists _, _; (split; [reflexivity|]).
  - right. split; [reflexivity|]. eexists; reflexivity.
  - left; reflexivity.
Qed.

Lemma stream_plain (s run : str) (w : console) :
  ~ In ESC s -> stream 0 run s w = insert_default (run ++ s) w.
Proof.
  revert run. induction s as [|c s IH]; intros run Hesc.
  - simpl. rewrite app_nil_r. reflexivity.
  - assert (Hnone : COLOR_PATTERN_match (c :: s) = None).
    { destruct (COLOR_PATTERN_match (c :: s)) as [[n g]|] eqn:E;
        [|reflexivity].
      exfalso. apply COLOR_PATTERN_match_esc in E
        as (c' & s' & [= <- <-] & [->|(-> & s'' & ->)]).
      - apply Hesc. left; reflexivity.
      - apply Hesc. right; left; reflexivity. }
    rewrite (stream_no_match _ _ _ _ Hnone), IH.
    + rewrite <- app_assoc. reflexivity.
    + intros H. apply Hesc. right; exact H.
Qed.

Lemma stream_plain_before (p run rest : str) (w : console) :
  ~ In ESC p ->
  (forall p0, p <> p0 ++ [SOH]) ->
  (exists r, rest = ESC :: r) ->
  stream 0 run (p ++ rest) w = stream 0 (run ++ p) rest w.
Proof.
  revert run. induction p as [|c p IH]; intros run Hesc Hsoh Hrest.
  - simpl. rewrite app_nil_r. reflexivity.
  - change ((c :: p) ++ rest) with (c :: (p ++ rest)).
    assert (Hnone : COLOR_PATTERN_match (c :: p ++ rest) = None).
    { destruct (COLOR_PATTERN_match (c :: p ++ rest)) as [[n g]|] eqn:E;
        [|reflexivity].
      exfalso. apply COLOR_PATTERN_match_esc in E
        as (c' & s' & [= <- <-] & [->|(-> & s'' & E)]).
      - apply Hesc. left; reflexivity.
      - destruct p as [|b p].
        + apply (Hsoh []). reflexivity.
        + injection E as -> _. apply Hesc. right; left; reflexivity. }
    rewrite (stream_no_match _ _ _ _ Hnone), IH.
    + rewrite <- app_assoc. reflexivity.
    + intros H. apply Hesc. right; exact H.
    + apply (not_ends_soh_tail c p Hsoh).
    + exact Hrest.
Qed.

Lemma sgr_params_clean (g : str) :
  sgr_params g = true -> ~ In LETTER_m g /\ ~ In LF g.
Proof.
  unfold sgr_params. rewrite forallb_forall. intros H.
  split; intros Hin; apply H in Hin; discriminate.
Qed.

(** C8, as amended.  The recognizer matches at the head of a text exactly
    when the text starts with [ESC [ params m], the parameters being any
    characters other than [m] and the newline, with [\x01] before the
    [ESC] or not and [\x02] after the [m] or not; the match takes the
    markers that are there.  Every sequence of the wire grammar, digits
    and semicolons between [ESC [] and [m], is matched so.  A sequence
    with markers is decoded as the sequence without them: same runs, same
    decoder state.  Around a sequence between two texts without escape
    characters the runs are these two texts, so the markers are in none of
    them. *)
Theorem pattern_grammar_and_soft_markers :
  (forall s n g,
      COLOR_PATTERN_match s = Some (n, g) <->
      exists soh stx rest,
        s = sequence soh g stx ++ rest
        /\ ~ In LETTER_m g /\ ~ In LF g
        /\ (stx = false -> stx_taken rest = 0)
        /\ n = length (sequence soh g stx))
  /\ (forall soh stx g rest,
         sgr_params g = true ->
         stx_taken rest = 0 ->
         COLOR_PATTERN_match (sequence soh g stx ++ rest)
         = Some (length (sequence soh g stx), g))
  /\ (forall pre soh stx g post w,
         ~ In LETTER_m g -> ~ In LF g ->
         (forall p0, pre <> p0 ++ [SOH]) ->
         stx_taken post = 0 ->
         decode (pre ++ sequence soh g stx ++ post) w
         = decode (pre ++ sequence false g false ++ post) w)
  /\ (forall pre soh stx g post w,
         ~ In LETTER_m g -> ~ In LF g ->
         (forall p0, pre <> p0 ++ [SOH]) ->
         stx_taken post = 0 ->
         ~ In ESC pre -> ~ In ESC post ->
         decode (pre ++ sequence soh g stx ++ post) w
         = at_sequence pre g (insert_default post) w).
Proof.
  assert (Hmarkers : forall pre soh stx g post w,
             ~ In LETTER_m g -> ~ In LF g ->
             (forall p0, pre <> p0 ++ [SOH]) ->
             stx_taken post = 0 ->
             decode (pre ++ sequence soh g stx ++ post) w
             = decode (pre ++ sequence false g false ++ post) w).
  { intros pre soh stx g post w Hm Hl Hsoh Hpost.
    rewrite !decode_stream.
    apply stream_markers; try assumption. lia. }
  split; [|split; [|split]].
  - intros s n g. apply COLOR_PATTERN_match_spec.
  - intros soh stx g rest Hg Hrest.
    destruct (sgr_params_clean g Hg) as [Hm Hl].
    apply COLOR_PATTERN_match_spec. exists soh, stx, rest.
    repeat split; auto.
  - exact Hmarkers.
  - intros pre soh stx g post w Hm Hl Hsoh Hpost Hpre Hesc.
    rewrite Hmarkers by assumption. rewrite decode_stream.
    rewrite stream_plain_before;
      [|exact Hpre|exact Hsoh|eexists; reflexivity].
    rewrite stream_at_sequence by assumption.
    apply at_sequence_ext. intros w'. apply stream_plain, Hesc.
Qed.

Lemma soft_markers_witness :
  decode (lit "a" ++ sequence true (lit "1;4") true ++ lit "b") sample_console
  = decode (lit "a" ++ sequence false (lit "1;4") false ++ lit "b")
           sample_console
  /\ decode (lit "a" ++ sequence true (lit "1;4") true ++ lit "b")
            sample_console
     = at_sequence (lit "a") (lit "1;4") (insert_default (lit "b"))
                   sample_console.
Proof.
  assert (Hm : ~ In LETTER_m (lit "1;4"))
    by (intros [H|[H|[H|[]]]]; discriminate).
  assert (Hl : ~ In LF (lit "1;4"))
    by (intros [H|[H|[H|[]]]]; discriminate).
  assert (Hsoh : forall p0, lit "a" <> p0 ++ [SOH]).
  { intros [|c [|d p0]] H; discriminate. }
  split.
  - apply (proj1 (proj2 (proj2 pattern_grammar_and_soft_markers))
                 (lit "a") true true (lit "1;4") (lit "b") sample_console
                 Hm Hl Hsoh eq_refl).
  - apply (proj2 (proj2 (proj2 pattern_grammar_and_soft_markers))
                 (lit "a") true true (lit "1;4") (lit "b") sample_console
                 Hm Hl Hsoh eq_refl).
    + intros [H|[]]; discriminate.
    + intros [H|[]]; discriminate.
Defined.

(** C8, the claim as stated.  The recognizer matches more than the wire
    grammar: [ESC [ x m] and [ESC [ ? 2 5 h SPACE m], whose parameters are
    no list of numbers, are matched and taken out of the text as
    sequences. *)
Lemma pattern_matches_outside_grammar :
  COLOR_PATTERN_match ([ESC] ++ lit "[xm") = Some (4, lit "x")
  /\ sgr_params (lit "x") = false
  /\ COLOR_PATTERN_match ([ESC] ++ lit "[?25h m") = Some (8, lit "?25h ")
  /\ sgr_params (lit "?25h ") = false
  /\ finditer (lit "a" ++ [ESC] ++ lit "[xmb")
     = [{| m_start := 1; m_end := 5; m_group1 := lit "x" |}].
Proof. repeat split; vm_compute; reflexivity. Qed.

End AnsiFacts.

(** ** More on get_selection_as_executable_code *)

Module ReindentLinesFacts.
Import Py PyFacts Reindent ReindentFacts ReindentLines.

Lemma indent_scan_current (lines : list str) :
  snd (fst (indent_scan lines)) = indent_below lines.
Proof.
  induction lines as [|l below IH]; [reflexivity|].
  simpl. destruct (indent_scan below) as [[m ci] b']. simpl in IH.
  destruct (nonblank l); simpl; auto.
Qed.

(** X3: the bottom-up loop keeps every line that is not blank and turns a
    blank line into as many spaces as the indentation of the next line
    below it that is not blank (none when there is no such line). *)
Theorem blank_lines_take_indent_below (above : list str) (line : str)
        (below : list str) :
  length (snd (indent_scan (above ++ line :: below)))
  = length (above ++ line :: below)
  /\ nth_error (snd (indent_scan (above ++ line :: below))) (length above)
     = Some (if nonblank line then line
             else times SPACE (indent_below below)).
Proof.
  split; [apply indent_scan_length|].
  induction above as [|a above IH].
  - simpl. pose proof (indent_scan_current below) as Hc.
    destruct (indent_scan below) as [[m ci] b']. simpl in Hc. subst ci.
    destruct (nonblank line); reflexivity.
  - simpl. destruct (indent_scan (above ++ line :: below)) as [[m ci] b'].
    simpl in IH. destruct (nonblank a); simpl; exact IH.
Qed.

(** *** Splitting a joined text *)

Lemma split1_app (c : ascii) (a b : str) :
  split_from [c] 0 (a ++ c :: b) = split_from [c] 0 a ++ split_from [c] 0 b.
Proof.
  induction a as [|h a IH].
  - simpl app. rewrite split1_cons. rewrite eqc_refl. reflexivity.
  - simpl app. rewrite !split1_cons. destruct (eqc c h).
    + rewrite IH. reflexivity.
    + rewrite IH. destruct (split_from [c] 0 a) as [|p ps] eqn:E.
      * exfalso. exact (split1_nonempty c a E).
      * reflexivity.
Qed.

Lemma split1_join_concat (c : ascii) (lines : list str) :
  lines <> [] ->
  split_from [c] 0 (join [c] lines)
  = concat (map (split_from [c] 0) lines).
Proof.
  induction lines as [|f rest IH]; [congruence|]. intros _.
  destruct rest as [|g rest].
  - simpl. rewrite app_nil_r. reflexivity.
  - change (join [c] (f :: g :: rest)) with (f ++ c :: join [c] (g :: rest)).
    rewrite split1_app. rewrite IH by discriminate.
    reflexivity.
Qed.

Lemma split1_free_id (c : ascii) (l : str) :
  ~ In c l -> split_from [c] 0 l = [l].
Proof.
  intros H. pose proof (split1_prefix c l [] H) as E.
  rewrite app_nil_r in E. rewrite E. simpl. rewrite app_nil_r. reflexivity.
Qed.

Lemma split1_dressed (c : ascii) (l : str) (k : nat) :
  ~ In c l -> split_from [c] 0 (l ++ repeat c k) = l :: repeat [] k.
Proof.
  intros H. induction k as [|k IH].
  - simpl. rewrite app_nil_r. apply split1_free_id, H.
  - change (repeat c (S k)) with (c :: repeat c k).
    rewrite repeat_cons. rewrite app_assoc.
    change ((l ++ repeat c k) ++ [c]) with ((l ++ repeat c k) ++ c :: []).
    rewrite split1_app, IH.
    change (repeat ([] : str) (S k)) with (([] : str) :: repeat [] k).
    rewrite (repeat_cons k ([] : str)). reflexivity.
Qed.

Lemma lstrip_nil_forall (l : str) :
  lstrip l = [] <-> Forall (fun x => isspace x = true) l.
Proof.
  induction l as [|x l IH]; simpl.
  - split; auto.
  - destruct (isspace x) eqn:E.
    + rewrite IH. split; intros H; [constructor; auto|inversion H; auto].
    + split; [discriminate|]. intros H. inversion H; congruence.
Qed.

Lemma split1_blank (c : ascii) (s : str) :
  Forall (fun x => isspace x = true \/ x = c) s ->
  Forall (fun p => nonblank p = false) (split_from [c] 0 s).
Proof.
  induction s as [|a s IH]; intros H.
  - simpl. constructor; [reflexivity|constructor].
  - inversion H as [|a' s' Ha Hs]; subst. specialize (IH Hs).
    rewrite split1_cons. destruct (eqc c a) eqn:E.
    + constructor; [reflexivity|exact IH].
    + destruct Ha as [Ha|Ha]; [|subst a; rewrite eqc_refl in E; discriminate].
      destruct (split_from [c] 0 s) as [|p ps].
      * constructor; [|constructor]. apply nonblank_false_iff. simpl.
        rewrite Ha. reflexivity.
      * inversion IH; subst. constructor; [|assumption].
        apply nonblank_false_iff. simpl. rewrite Ha.
        apply nonblank_false_iff. assumption.
Qed.

Lemma filter_all_false {A} (f : A -> bool) (l : list A) :
  Forall (fun x => f x = false) l -> filter f l = [].
Proof.
  induction 1 as [|x l Hx _ IH]; simpl; [reflexivity|].
  rewrite Hx. exact IH.
Qed.

(** A line of the scan with separators put behind it, split again: the
    line itself when it is code, and blank pieces only otherwise. *)
Lemma code_lines_dressed (c : ascii) (l : str) (k : nat) :
  (nonblank l = true -> ~ In c l) ->
  code_lines (split_from [c] 0 (l ++ repeat c k)) = code_lines [l].
Proof.
  intros H. unfold code_lines. destruct (nonblank l) eqn:E.
  - rewrite split1_dressed by auto. simpl. rewrite E. f_equal.
    apply filter_all_false. apply Forall_forall. intros x Hx.
    apply repeat_spec in Hx. subst x. reflexivity.
  - simpl. rewrite E. apply filter_all_false. apply split1_blank.
    apply Forall_app. split.
    + apply nonblank_false_iff in E. apply lstrip_nil_forall in E.
      eapply Forall_impl; [|exact E]. simpl. auto.
    + apply Forall_forall. intros x Hx. apply repeat_spec in Hx. auto.
Qed.

(** *** The lines of code are kept *)

Lemma code_lines_app (xs ys : list str) :
  code_lines (xs ++ ys) = code_lines xs ++ code_lines ys.
Proof. apply filter_app. Qed.

Lemma dedent_map (m : nat) (lines : list str) :
  dedent m lines = map (slice_from m) lines.
Proof.
  destruct m; [|reflexivity]. simpl. symmetry. apply map_id.
Qed.

Lemma indent_scan_pointwise (lines : list str) :
  Forall2 (fun l1 l2 => if nonblank l1 then l2 = l1 else nonblank l2 = false)
          lines (snd (indent_scan lines)).
Proof.
  induction lines as [|l below IH]; simpl; [constructor|].
  destruct (indent_scan below) as [[m ci] b']. simpl in IH.
  destruct (nonblank l) eqn:E; simpl; constructor; auto.
  - rewrite E. reflexivity.
  - rewrite E. apply nonblank_times_space.
Qed.

Lemma Forall2_skipn {A B} (R : A -> B -> Prop) (n : nat) (xs : list A)
      (ys : list B) :
  Forall2 R xs ys -> Forall2 R (skipn n xs) (skipn n ys).
Proof.
  intros H. revert n. induction H; intros [|n]; simpl; auto.
Qed.

Lemma scanned_nonblank (m : nat) (l : str) :
  scanned m l -> nonblank l = true ->
  m <= _indent l /\ lstrip (slice_from m l) = lstrip l.
Proof.
  intros [H|H] E.
  - apply nonblank_false_iff in H. congruence.
  - split; [exact H|]. apply lstrip_skipn. exact H.
Qed.

Lemma nonblank_lstrip (a b : str) :
  lstrip a = lstrip b -> nonblank a = nonblank b.
Proof.
  intros H. destruct (nonblank b) eqn:E.
  - destruct (nonblank a) eqn:E'; [reflexivity|].
    apply nonblank_false_iff in E'. rewrite H in E'.
    apply nonblank_false_iff in E'. congruence.
  - apply nonblank_false_iff in E. rewrite <- H in E.
    apply nonblank_false_iff. exact E.
Qed.

Lemma code_lines_dedent (m : nat) (xs ys : list str) :
  Forall2 (fun l1 l2 => if nonblank l1 then l2 = l1 else nonblank l2 = false)
          xs ys ->
  Forall (scanned m) ys ->
  code_lines (map (slice_from m) ys) = map (slice_from m) (code_lines xs).
Proof.
  induction 1 as [|l1 l2 xs ys R _ IH]; intros S; [reflexivity|].
  inversion S as [|? ? S1 S2]; subst. specialize (IH S2).
  unfold code_lines in *. simpl. destruct (nonblank l1) eqn:E.
  - subst l2. destruct (scanned_nonblank m l1 S1 E) as [_ Hl].
    rewrite (nonblank_lstrip _ _ Hl), E. simpl. f_equal. exact IH.
  - apply nonblank_false_iff in R.
    pose proof (lstrip_nil_skipn m l2 R) as Hb.
    apply nonblank_false_iff in Hb. unfold slice_from. rewrite Hb. exact IH.
Qed.

Lemma dedent_free (c : ascii) (m : nat) (xs ys : list str) :
  Forall2 (fun l1 l2 => if nonblank l1 then l2 = l1 else nonblank l2 = false)
          xs ys ->
  Forall (fun p => ~ In c p) xs ->
  Forall (fun l => nonblank l = true -> ~ In c l) (map (slice_from m) ys).
Proof.
  induction 1 as [|l1 l2 xs ys R _ IH]; intros F; [constructor|].
  inversion F as [|? ? F1 F2]; subst. simpl. constructor; [|auto].
  intros Hn Hin. destruct (nonblank l1) eqn:E.
  - subst l2. apply F1. eapply in_skipn. exact Hin.
  - apply nonblank_false_iff in R.
    pose proof (lstrip_nil_skipn m l2 R) as Hb.
    apply nonblank_false_iff in Hb. unfold slice_from in Hn. congruence.
Qed.

Lemma dressed_refl (c : ascii) (lines : list str) :
  Forall2 (dressed c) lines lines.
Proof.
  induction lines; constructor; auto. exists 0. simpl.
  rewrite app_nil_r. reflexivity.
Qed.

Lemma append_at_dressed (c : ascii) (i : nat) (lines final : list str) :
  Forall2 (dressed c) lines final ->
  Forall2 (dressed c) lines (append_at i [c] final).
Proof.
  intros H. revert i. induction H as [|l f lines final [k Hk] Hrest IH];
    intros i; [destruct i; constructor|].
  destruct i as [|i]; simpl.
  - constructor; [|assumption]. exists (S k). subst f.
    rewrite <- app_assoc. f_equal. symmetry. apply repeat_cons.
  - constructor; [exists k; exact Hk|apply IH].
Qed.

Lemma scan_line_dressed (c : ascii) (n : nat) (lines : list str)
      (st : scan_state) :
  Forall2 (dressed c) lines (lines_of st) ->
  Forall2 (dressed c) lines (lines_of (scan_line [c] n st)).
Proof.
  intros H. unfold scan_line.
  destruct (_indent (nth n (lines_of st) [])); [|exact H].
  rewrite open_block_lines. unfold close_block.
  destruct (maybe st && negb (mem _ (nextexcept st))); [|exact H].
  simpl. apply append_at_dressed. exact H.
Qed.

Lemma scan_fold_dressed (c : ascii) (ns : list nat) (lines : list str)
      (st : scan_state) :
  Forall2 (dressed c) lines (lines_of st) ->
  Forall2 (dressed c) lines
          (lines_of (fold_left (fun st n => scan_line [c] n st) ns st)).
Proof.
  revert st. induction ns as [|n ns IH]; intros st H; simpl; [exact H|].
  apply IH. apply scan_line_dressed. exact H.
Qed.

Lemma terminate_dressed (c : ascii) (lines final : list str)
      (st : scan_state) :
  Forall2 (dressed c) lines (lines_of st) ->
  terminate [c] st = Ok final ->
  exists body tail,
    final = body ++ tail
    /\ Forall2 (dressed c) lines body
    /\ (tail = [] \/ tail = [[c]]).
Proof.
  intros H T. unfold terminate in T. destruct (maybe st).
  - destruct (rev (lines_of st)) as [|last ?]; [discriminate|].
    destruct (nonblank last); inversion T; subst.
    + exists (lines_of st), [[c]]. auto.
    + exists (append_at (length (lines_of st) - 1) [c] (lines_of st)), [].
      rewrite app_nil_r. split; [reflexivity|]. split; [|auto].
      apply append_at_dressed. exact H.
  - inversion T; subst. exists (lines_of st), []. rewrite app_nil_r. auto.
Qed.

Lemma code_lines_of_dressed (c : ascii) (lines body : list str) :
  Forall (fun l => nonblank l = true -> ~ In c l) lines ->
  Forall2 (dressed c) lines body ->
  code_lines (concat (map (split_from [c] 0) body)) = code_lines lines.
Proof.
  intros F H. induction H as [|l f lines body [k Hk] _ IH];
    [reflexivity|].
  inversion F as [|? ? F1 F2]; subst. cbn [map concat].
  rewrite code_lines_app.
  rewrite code_lines_dressed by exact F1. rewrite (IH F2).
  change (l :: lines) with ([l] ++ lines). rewrite code_lines_app.
  reflexivity.
Qed.

Lemma selected_lines_free (c : ascii) (text_line_from text : str)
      (lines : list str) :
  selected_lines [c] text_line_from text = Ok lines ->
  Forall (fun p => ~ In c p) lines.
Proof.
  unfold selected_lines. cbv beta iota delta [bind split].
  intros H. inversion H. apply split1_free.
Qed.

Lemma drop_leading_skipn (lines rest : list str) :
  drop_leading lines = Ok rest ->
  rest = skipn (leading_junk lines) lines /\ rest <> [].
Proof.
  induction lines as [|l lines IH]; simpl; [discriminate|].
  destruct (blank_or_comment l); [exact IH|].
  intros H. inversion H. split; [reflexivity|discriminate].
Qed.

Lemma junk_count (lines scanned_lines : list str) (m ci : nat) :
  indent_scan lines = (m, ci, scanned_lines) ->
  leading_junk (dedent m scanned_lines) = leading_junk lines.
Proof.
  intros E. apply leading_junk_map.
  pose proof (indent_scan_scanned lines) as S.
  pose proof (indent_scan_junk lines) as J. rewrite E in S, J. simpl in S, J.
  rewrite dedent_junk by exact S. exact J.
Qed.

(** The shape of a result: the scanned lines, each with the separators
    put behind it, and at most one separator line at the end. *)
Lemma selection_shape (c : ascii) (text_line_from text out : str) :
  get_selection_as_executable_code [c] text_line_from text = Ok (Some out) ->
  exists lines m ci l2 body tail,
    selected_lines [c] text_line_from text = Ok lines
    /\ indent_scan lines = (m, ci, l2)
    /\ drop_leading (dedent m l2)
       = Ok (map (slice_from m) (skipn (leading_junk lines) l2))
    /\ out = join [c] (body ++ tail)
    /\ Forall2 (dressed c)
               (map (slice_from m) (skipn (leading_junk lines) l2)) body
    /\ (tail = [] \/ tail = [[c]])
    /\ Forall (fun l => nonblank l = true -> ~ In c l)
              (map (slice_from m) (skipn (leading_junk lines) l2)).
Proof.
  unfold get_selection_as_executable_code.
  destruct text as [|t0 text']; [discriminate|].
  destruct (selected_lines [c] text_line_from (t0 :: text')) as [lines|e]
    eqn:Hsel; [|discriminate].
  cbv beta iota delta [bind].
  destruct (indent_scan lines) as [[m ci] l2] eqn:Hscan.
  destruct (drop_leading (dedent m l2)) as [l4|e] eqn:Hdrop; [|discriminate].
  destruct (terminate [c] (keyword_scan [c] l4)) as [final|e] eqn:Hterm;
    [|discriminate].
  intros Hout. inversion Hout as [Ho]. clear Hout.
  exists lines, m, ci, l2.
  pose proof (indent_scan_pointwise lines) as Hpt.
  rewrite Hscan in Hpt. simpl in Hpt.
  pose proof (selected_lines_free _ _ _ _ Hsel) as Hfree.
  destruct (drop_leading_skipn _ _ Hdrop) as [H4 Hne].
  rewrite (junk_count _ _ _ _ Hscan) in H4.
  rewrite dedent_map, skipn_map in H4.
  assert (Hd : Forall2 (dressed c) l4 (lines_of (keyword_scan [c] l4))).
  { unfold keyword_scan. apply scan_fold_dressed. apply dressed_refl. }
  destruct (terminate_dressed c l4 final _ Hd Hterm)
    as (body & tail & Hf & Hb & Ht).
  exists body, tail. subst final l4.
  repeat (split; [solve [auto]|]).
  apply (dedent_free c m (skipn (leading_junk lines) lines)).
  - apply Forall2_skipn. exact Hpt.
  - apply Forall_skipn. exact Hfree.
Qed.

(** X1: the lines of code of the selection are all kept, in their order
    and with their text: the lines of the result that are not blank are
    the lines of the selection that are not blank, without the blank and
    comment lines at its head, each without its first [min_indent]
    characters, which are whitespace of its indentation. *)
Theorem code_lines_kept (c : ascii) (text_line_from text out : str) :
  get_selection_as_executable_code [c] text_line_from text = Ok (Some out) ->
  exists lines,
    selected_lines [c] text_line_from text = Ok lines
    /\ code_lines (split_from [c] 0 out)
       = map (slice_from (fst (fst (indent_scan lines))))
             (code_lines (skipn (leading_junk lines) lines))
    /\ Forall (fun l => fst (fst (indent_scan lines)) <= _indent l
                        /\ lstrip (slice_from (fst (fst (indent_scan lines))) l)
                           = lstrip l)
              (code_lines lines).
Proof.
  intros H.
  destruct (selection_shape c _ _ _ H)
    as (lines & m & ci & l2 & body & tail & Hsel & Hscan & Hdrop & Ho & Hb
        & Ht & Hc4).
  exists lines. split; [exact Hsel|]. rewrite Hscan. simpl fst.
  pose proof (indent_scan_pointwise lines) as Hpt.
  pose proof (indent_scan_scanned lines) as Hsc.
  rewrite Hscan in Hpt, Hsc. simpl in Hpt, Hsc.
  split.
  - assert (Hfin : body ++ tail <> []).
    { destruct (drop_leading_skipn _ _ Hdrop) as [_ Hne].
      inversion Hb; subst; [congruence|discriminate]. }
    subst out. rewrite (split1_join_concat c _ Hfin).
    rewrite map_app, concat_app, code_lines_app.
    rewrite (code_lines_of_dressed c _ body Hc4 Hb).
    assert (Htail : code_lines (concat (map (split_from [c] 0) tail)) = []).
    { destruct Ht as [Ht|Ht]; subst tail; [reflexivity|].
      simpl. rewrite eqc_refl. reflexivity. }
    rewrite Htail, app_nil_r.
    apply code_lines_dedent.
    + apply Forall2_skipn. exact Hpt.
    + apply Forall_skipn. exact Hsc.
  - apply Forall_forall. intros l Hl. unfold code_lines in Hl.
    apply filter_In in Hl. destruct Hl as [Hin Hnb].
    apply scanned_nonblank; [|exact Hnb].
    pose proof (indent_scan_keeps_nonblank lines l Hin Hnb) as Hin2.
    rewrite Hscan in Hin2. simpl in Hin2.
    rewrite Forall_forall in Hsc. apply Hsc. exact Hin2.
Qed.

Lemma code_lines_kept_witness :
  let text := lit "  # c" ++ [LF] ++ lit "  if x:" ++ [LF] ++ [LF]
              ++ lit "    y" ++ [LF] ++ lit "  z" in
  exists lines,
    selected_lines [LF] [] text = Ok lines
    /\ code_lines (split_from [LF] 0
         (lit "if x:" ++ [LF] ++ lit "  " ++ [LF] ++ lit "  y" ++ [LF] ++ [LF]
          ++ lit "z"))
       = map (slice_from (fst (fst (indent_scan lines))))
             (code_lines (skipn (leading_junk lines) lines))
    /\ Forall (fun l => fst (fst (indent_scan lines)) <= _indent l
                        /\ lstrip (slice_from (fst (fst (indent_scan lines))) l)
                           = lstrip l)
              (code_lines lines).
Proof.
  intros text.
  apply (code_lines_kept LF [] text). vm_compute. reflexivity.
Defined.

Lemma drop_leading_head (lines rest : list str) :
  drop_leading lines = Ok rest ->
  exists first others, rest = first :: others
                       /\ blank_or_comment first = false.
Proof.
  induction lines as [|l lines IH]; simpl; [discriminate|].
  destruct (blank_or_comment l) eqn:E; [exact IH|].
  intros H. inversion H. eauto.
Qed.

Lemma Forall2_in_right {A B} (R : A -> B -> Prop) (xs : list A)
      (ys : list B) :
  Forall2 R xs ys -> forall y, In y ys -> exists x, In x xs /\ R x y.
Proof.
  induction 1 as [|x y xs ys Hxy _ IH]; intros y' Hy; [destruct Hy|].
  destruct Hy as [Hy|Hy].
  - subst y'. exists x. split; [left; reflexivity|exact Hxy].
  - destruct (IH y' Hy) as (x' & Hx' & Hr). exists x'. split; [right|]; auto.
Qed.

(** X2: a result begins with a line of code: its first line is neither
    blank nor a comment, and it is a line of the selection without its
    common indentation. *)
Theorem first_line_is_code (c : ascii) (text_line_from text out : str) :
  get_selection_as_executable_code [c] text_line_from text = Ok (Some out) ->
  blank_or_comment (nth 0 (split_from [c] 0 out) []) = false
  /\ exists lines l,
       selected_lines [c] text_line_from text = Ok lines
       /\ In l lines
       /\ nth 0 (split_from [c] 0 out) []
          = slice_from (fst (fst (indent_scan lines))) l.
Proof.
  intros H.
  destruct (selection_shape c _ _ _ H)
    as (lines & m & ci & l2 & body & tail & Hsel & Hscan & Hdrop & Ho & Hb
        & Ht & Hc4).
  destruct (drop_leading_head _ _ Hdrop) as (first & others & E4 & Hcode).
  rewrite E4 in Hb, Hc4.
  inversion Hb as [|x0 f xs0 body' Hd0 Hb' Ex Ey]. subst x0 xs0 body.
  destruct Hd0 as [k Hk].
  inversion Hc4 as [|x0 xs0 Hfree Hfree' Ex]. subst x0 xs0.
  assert (Hfin : (f :: body') ++ tail <> []) by discriminate.
  subst out. rewrite (split1_join_concat c _ Hfin).
  cbn [app map concat]. rewrite Hk.
  rewrite split1_dressed
    by (apply Hfree; apply blank_or_comment_nonblank; exact Hcode).
  cbn [app nth]. split; [exact Hcode|].
  pose proof (indent_scan_pointwise lines) as Hpt.
  rewrite Hscan in Hpt. simpl in Hpt.
  assert (Hin : In first (map (slice_from m) (skipn (leading_junk lines) l2)))
    by (rewrite E4; left; reflexivity).
  apply in_map_iff in Hin. destruct Hin as (x & Hx & Hin).
  apply in_skipn in Hin.
  destruct (Forall2_in_right _ _ _ Hpt x Hin) as (l1 & Hl1 & R).
  exists lines, l1. split; [exact Hsel|]. split; [exact Hl1|].
  rewrite Hscan. simpl fst. rewrite <- Hx.
  destruct (nonblank l1) eqn:E1; [congruence|].
  exfalso. apply nonblank_false_iff in R.
  pose proof (lstrip_nil_skipn m x R) as Hbk.
  apply blank_or_comment_blank in Hbk. unfold slice_from in Hx.
  congruence.
Qed.

Lemma first_line_is_code_witness :
  let text := lit "  # c" ++ [LF] ++ lit "  if x:" ++ [LF] ++ [LF]
              ++ lit "    y" ++ [LF] ++ lit "  z" in
  let out := lit "if x:" ++ [LF] ++ lit "  " ++ [LF] ++ lit "  y" ++ [LF]
             ++ [LF] ++ lit "z" in
  blank_or_comment (nth 0 (split_from [LF] 0 out) []) = false
  /\ exists lines l,
       selected_lines [LF] [] text = Ok lines
       /\ In l lines
       /\ nth 0 (split_from [LF] 0 out) []
          = slice_from (fst (fst (indent_scan lines))) l.
Proof.
  intros text out.
  apply (first_line_is_code LF [] text out). vm_compute. reflexivity.
Defined.

(** *** The flag at the end of the scan *)

Lemma nth_via_error {A} (i : nat) (l : list A) (d : A) :
  nth i l d = match nth_error l i with Some x => x | None => d end.
Proof.
  revert i. induction l as [|a l IH]; intros [|i]; simpl; auto.
Qed.

Lemma append_at_nth (i k : nat) (ls : str) (lines : list str) :
  k <> i -> nth k (append_at i ls lines) [] = nth k lines [].
Proof.
  intros H. rewrite !nth_via_error, append_at_other by exact H. reflexivity.
Qed.

Lemma open_block_inv (word : str) (st : scan_state) :
  mem [] (nextexcept st) = false ->
  mem [] (nextexcept (open_block word st)) = false.
Proof.
  intros H. unfold open_block. destruct word as [|w word]; [exact H|].
  destruct (mem (w :: word) _); [reflexivity|].
  destruct (str_eqb (w :: word) (lit "if")); [reflexivity|].
  destruct (str_eqb (w :: word) (lit "try")); [reflexivity|exact H].
Qed.

Lemma scan_line_inv (ls : str) (lines : list str) (k : nat)
      (st : scan_state) :
  scan_inv lines k st -> scan_inv lines (S k) (scan_line ls k st).
Proof.
  intros (Hlen & Hnth & Hz & Hnx). unfold scan_inv.
  rewrite scan_line_length. split; [exact Hlen|].
  split; [|split; [discriminate|]].
  - intros i Hi. unfold scan_line.
    destruct (_indent (nth k (lines_of st) [])); [|apply Hnth; lia].
    rewrite open_block_lines. unfold close_block.
    destruct (maybe st && negb (mem _ (nextexcept st))) eqn:E;
      [|apply Hnth; lia].
    simpl. destruct k as [|k].
    + rewrite Hz in E by reflexivity. discriminate.
    + simpl. rewrite append_at_nth by lia. apply Hnth. lia.
  - unfold scan_line.
    destruct (_indent (nth k (lines_of st) [])); [|exact Hnx].
    apply open_block_inv. unfold close_block.
    destruct (maybe st && negb (mem _ (nextexcept st))); exact Hnx.
Qed.

Lemma scan_fold_inv (ls : str) (lines : list str) (n k : nat)
      (st : scan_state) :
  scan_inv lines k st ->
  scan_inv lines (k + n)
           (fold_left (fun st n => scan_line ls n st) (seq k n) st).
Proof.
  revert k st. induction n as [|n IH]; intros k st H; simpl.
  - rewrite Nat.add_0_r. exact H.
  - replace (k + S n) with (S k + n) by lia. apply IH.
    apply scan_line_inv. exact H.
Qed.

Lemma scan_inv_start (lines : list str) :
  scan_inv lines 0 {| lines_of := lines; maybe := false; nextexcept := [] |}.
Proof. unfold scan_inv. simpl. auto. Qed.

(** After an empty last line the flag is down. *)
Lemma keyword_scan_empty_last (ls : str) (init : list str) :
  maybe (keyword_scan ls (init ++ [[]])) = false.
Proof.
  unfold keyword_scan. rewrite length_app. simpl length.
  rewrite Nat.add_1_r, seq_S, fold_left_app. simpl.
  set (st := fold_left _ (seq 0 (length init)) _).
  pose proof (scan_fold_inv ls (init ++ [[]]) (length init) 0 _
                            (scan_inv_start (init ++ [[]]))) as H.
  simpl in H. fold st in H. destruct H as (Hlen & Hnth & _ & Hnx).
  unfold scan_line. rewrite (Hnth (length init)) by lia.
  rewrite nth_middle. simpl. unfold close_block. simpl.
  rewrite Hnx. simpl. rewrite andb_true_r.
  destruct (maybe st) eqn:E; [reflexivity|exact E].
Qed.

Lemma keyword_scan_last (ls : str) (init : list str) (x : str) :
  exists init',
    lines_of (keyword_scan ls (init ++ [x])) = init' ++ [x].
Proof.
  pose proof (scan_fold_inv ls (init ++ [x]) (length (init ++ [x])) 0 _
                            (scan_inv_start (init ++ [x]))) as H.
  simpl in H. fold (keyword_scan ls (init ++ [x])) in H.
  destruct H as (Hlen & Hnth & _ & _).
  specialize (Hnth (length init)). rewrite length_app in Hnth.
  simpl in Hnth. rewrite nth_middle in Hnth. specialize (Hnth ltac:(lia)).
  destruct (lines_of (keyword_scan ls (init ++ [x]))) as [|a l] eqn:E
    using rev_ind.
  - rewrite length_app in Hlen. simpl in Hlen. lia.
  - clear IHl. exists l. rewrite !length_app in Hlen. simpl in Hlen.
    assert (Hl : length init = length l) by lia.
    rewrite Hl, nth_middle in Hnth. subst a. reflexivity.
Qed.

Lemma indent_scan_snoc (above : list str) (x : str) :
  exists above',
    snd (indent_scan (above ++ [x]))
    = above' ++ [if nonblank x then x else []]
    /\ length above' = length above.
Proof.
  induction above as [|a above (above' & IH & Hlen)].
  - exists []. simpl. destruct (nonblank x); auto.
  - simpl. destruct (indent_scan (above ++ [x])) as [[m ci] b'].
    simpl in IH. subst b'.
    destruct (nonblank a).
    + exists (a :: above'). simpl. auto.
    + exists (times SPACE ci :: above'). simpl. auto.
Qed.

(** The last of the lines that reach the keyword scan is empty or not
    blank. *)
Lemma kept_last (lines kept : list str) :
  drop_leading (dedent (fst (fst (indent_scan lines)))
                       (snd (indent_scan lines))) = Ok kept ->
  exists init x, kept = init ++ [x] /\ (x = [] \/ nonblank x = true).
Proof.
  intros Hdrop.
  assert (Hl : lines <> []) by (intros E; subst lines; discriminate).
  destruct (exists_last Hl) as (l & a & E). subst lines. clear Hl.
  pose proof (indent_scan_scanned (l ++ [a])) as Hsc.
  set (m := fst (fst (indent_scan (l ++ [a])))) in *.
  destruct (drop_leading_skipn _ _ Hdrop) as [H4 Hne].
  rewrite dedent_map in H4. rewrite skipn_map in H4.
  set (j := leading_junk _) in H4.
  - destruct (indent_scan_snoc l a) as (above' & Hs & Hlen).
    rewrite Hs in H4, Hsc.
    assert (Hj : j <= length above').
    { destruct (Nat.le_gt_cases j (length above')) as [H|H]; [exact H|].
      exfalso. apply Hne. rewrite H4. rewrite skipn_all2; [reflexivity|].
      rewrite length_app. simpl. lia. }
    rewrite skipn_app in H4. replace (j - length above') with 0 in H4 by lia.
    simpl skipn in H4. rewrite map_app in H4. simpl map in H4.
    eexists _, _. split; [exact H4|].
    apply Forall_app in Hsc. destruct Hsc as [_ Hx].
    inversion Hx as [|? ? Hx1 _]; subst.
    destruct (nonblank a) eqn:Ea.
    + right. destruct (scanned_nonblank m a Hx1 Ea) as [_ Hl].
      rewrite (nonblank_lstrip _ _ Hl). exact Ea.
    + left. unfold slice_from. apply skipn_nil.
Qed.

Lemma join_snoc (ls : str) (lines : list str) :
  lines <> [] -> join ls (lines ++ [ls]) = join ls lines ++ ls ++ ls.
Proof.
  induction lines as [|a lines IH]; [congruence|]. intros _.
  destruct lines as [|b lines].
  - reflexivity.
  - change (join ls ((a :: b :: lines) ++ [ls]))
      with (a ++ ls ++ join ls ((b :: lines) ++ [ls])).
    rewrite IH by discriminate.
    change (join ls (a :: b :: lines)) with (a ++ ls ++ join ls (b :: lines)).
    rewrite <- !app_assoc. reflexivity.
Qed.

(** X4: when the flag is still set after the loop over the lines, the
    last line is not blank, so that the method always appends a line
    made of the separator and never extends the last line: the result is
    the joined lines, followed by two separators when the flag is set. *)
Theorem pending_flag_appends_separator_line
        (ls text_line_from text out : str) :
  get_selection_as_executable_code ls text_line_from text = Ok (Some out) ->
  exists lines kept,
    selected_lines ls text_line_from text = Ok lines
    /\ drop_leading (dedent (fst (fst (indent_scan lines)))
                            (snd (indent_scan lines))) = Ok kept
    /\ (maybe (keyword_scan ls kept) = true ->
        nonblank (last (lines_of (keyword_scan ls kept)) []) = true)
    /\ out = join ls (lines_of (keyword_scan ls kept))
             ++ (if maybe (keyword_scan ls kept) then ls ++ ls else []).
Proof.
  unfold get_selection_as_executable_code.
  destruct text as [|t0 text']; [discriminate|].
  destruct (selected_lines ls text_line_from (t0 :: text')) as [lines|e]
    eqn:Hsel; [|discriminate].
  cbv beta iota delta [bind].
  destruct (indent_scan lines) as [[m ci] l2] eqn:Hscan.
  destruct (drop_leading (dedent m l2)) as [kept|e] eqn:Hdrop;
    [|discriminate].
  destruct (terminate ls (keyword_scan ls kept)) as [final|e] eqn:Hterm;
    [|discriminate].
  intros Hout. inversion Hout as [Ho]. clear Hout.
  exists lines, kept. split; [reflexivity|]. rewrite Hscan. simpl fst.
  simpl snd. split; [exact Hdrop|].
  assert (Hk : drop_leading (dedent (fst (fst (indent_scan lines)))
                                    (snd (indent_scan lines))) = Ok kept)
    by (rewrite Hscan; exact Hdrop).
  destruct (kept_last lines kept Hk) as (init & x & Ek & Hx).
  subst kept. destruct (keyword_scan_last ls init x) as (init' & El).
  assert (Hflag : maybe (keyword_scan ls (init ++ [x])) = true ->
                  nonblank x = true).
  { intros Hm. destruct Hx as [Hx|Hx]; [|exact Hx]. subst x.
    rewrite keyword_scan_empty_last in Hm. discriminate. }
  split.
  - intros Hm. rewrite El, last_last. apply Hflag, Hm.
  - unfold terminate in Hterm.
    destruct (maybe (keyword_scan ls (init ++ [x]))) eqn:Hm.
    + rewrite El, rev_unit, (Hflag eq_refl) in Hterm.
      inversion Hterm. rewrite <- El. apply join_snoc.
      rewrite El. destruct init'; discriminate.
    + inversion Hterm. rewrite app_nil_r. reflexivity.
Qed.

Lemma pending_flag_appends_separator_line_witness :
  let text := lit "def f():" ++ [LF] ++ lit "    pass" in
  exists lines kept,
    selected_lines [LF] [] text = Ok lines
    /\ drop_leading (dedent (fst (fst (indent_scan lines)))
                            (snd (indent_scan lines))) = Ok kept
    /\ (maybe (keyword_scan [LF] kept) = true ->
        nonblank (last (lines_of (keyword_scan [LF] kept)) []) = true)
    /\ text ++ [LF; LF]
       = join [LF] (lines_of (keyword_scan [LF] kept))
         ++ (if maybe (keyword_scan [LF] kept) then [LF] ++ [LF] else []).
Proof.
  intros text.
  apply (pending_flag_appends_separator_line [LF] [] text (text ++ [LF; LF])).
  vm_compute. reflexivity.
Defined.

(** *** The indentation of the first line *)

Lemma lstrip_app_blank (p l : str) :
  lstrip p = [] -> lstrip (p ++ l) = lstrip l.
Proof.
  induction p as [|a p IH]; simpl; [reflexivity|].
  destruct (isspace a); [exact IH|discriminate].
Qed.

Lemma _indent_app_blank (p l : str) :
  lstrip p = [] -> _indent (p ++ l) = length p + _indent l.
Proof.
  intros H. unfold _indent. rewrite (lstrip_app_blank p l H), length_app.
  pose proof (lstrip_length l). lia.
Qed.

(** X5: a selection of several lines gets the indentation of its first
    line in the buffer back: when the first line of the selection is the
    line of the buffer without some of the whitespace at its head, the
    first line is padded to the indentation of the line of the buffer,
    its text and the other lines are kept. *)
Theorem first_line_indentation_restored
        (c : ascii) (text : str) (p first : str) (rest : list str) :
  c <> SPACE ->
  split_from [c] 0 text = first :: rest ->
  rest <> [] ->
  lstrip p = [] ->
  exists padded,
    selected_lines [c] (p ++ first) text = Ok (padded :: rest)
    /\ padded = times SPACE (length p) ++ first
    /\ _indent padded = _indent (p ++ first)
    /\ lstrip padded = lstrip (p ++ first).
Proof.
  intros Hc Hs Hr Hp.
  destruct (selected_lines_one_char c (p ++ first) text Hc) as (k & Hk & Ek).
  rewrite Hs in Hk, Ek. simpl nth in Ek.
  assert (Hlen : (1 <? length (first :: rest)) = true).
  { destruct rest; [congruence|reflexivity]. }
  rewrite Hlen, (_indent_app_blank p first Hp) in Ek.
  replace (length p + _indent first - _indent first) with (length p) in Ek
    by lia.
  subst k. simpl pad_first in Hk.
  exists (times SPACE (length p) ++ first).
  split; [exact Hk|]. split; [reflexivity|].
  assert (Hb : lstrip (times SPACE (length p)) = [])
    by apply lstrip_times_space.
  split.
  - rewrite (_indent_app_blank _ first Hb), (_indent_app_blank p first Hp).
    unfold times. rewrite repeat_length. reflexivity.
  - rewrite (lstrip_app_blank _ first Hb), (lstrip_app_blank p first Hp).
    reflexivity.
Qed.

Lemma first_line_indentation_restored_witness :
  exists padded,
    selected_lines [LF] (lit "    if x:")
                   (lit "if x:" ++ [LF] ++ lit "        y") 
    = Ok [padded; lit "        y"]
    /\ padded = times SPACE 4 ++ lit "if x:"
    /\ _indent padded = _indent (lit "    if x:")
    /\ lstrip padded = lstrip (lit "    if x:").
Proof.
  apply (first_line_indentation_restored
           LF (lit "if x:" ++ [LF] ++ lit "        y")
           (lit "    ") (lit "if x:") [lit "        y"]).
  - discriminate.
  - reflexivity.
  - discriminate.
  - reflexivity.
Defined.

(** *** The scan, line by line *)

Lemma scan_upto_S (ls : str) (lines : list str) (k : nat) :
  scan_upto ls lines (S k) = scan_line ls k (scan_upto ls lines k).
Proof.
  unfold scan_upto. rewrite seq_S, fold_left_app. reflexivity.
Qed.

Lemma scan_upto_all (ls : str) (lines : list str) :
  keyword_scan ls lines = scan_upto ls lines (length lines).
Proof. reflexivity. Qed.

Lemma scan_upto_inv (ls : str) (lines : list str) (k : nat) :
  scan_inv lines k (scan_upto ls lines k).
Proof.
  exact (scan_fold_inv ls lines k 0 _ (scan_inv_start lines)).
Qed.

(** When the loop reaches line [k], the lines from [k-1] on are those it
    started with. *)
Lemma scan_upto_ahead (ls : str) (lines : list str) (k i : nat) :
  k <= S i ->
  nth_error (lines_of (scan_upto ls lines k)) i = nth_error lines i.
Proof.
  intros Hk. destruct (scan_upto_inv ls lines k) as (Hlen & Hnth & _ & _).
  destruct (Nat.lt_ge_cases i (length lines)) as [Hi|Hi].
  - rewrite (nth_error_nth' _ [] Hi).
    rewrite (nth_error_nth' (lines_of (scan_upto ls lines k)) [])
      by (rewrite Hlen; exact Hi).
    rewrite Hnth by exact Hk. reflexivity.
  - transitivity (@None str); [|symmetry]; apply nth_error_None; lia.
Qed.

(** A line with indentation is passed over. *)
Lemma scan_upto_indented (ls : str) (lines : list str) (k : nat) :
  _indent (nth k lines []) <> 0 ->
  scan_upto ls lines (S k) = scan_upto ls lines k.
Proof.
  intros H. rewrite scan_upto_S. unfold scan_line.
  destruct (scan_upto_inv ls lines k) as (_ & Hnth & _ & _).
  rewrite Hnth by lia.
  destruct (_indent (nth k lines [])); [congruence|reflexivity].
Qed.

Lemma scan_upto_body (ls : str) (lines : list str) (k j : nat) :
  (forall i, k <= i < k + j -> _indent (nth i lines []) <> 0) ->
  scan_upto ls lines (k + j) = scan_upto ls lines k.
Proof.
  induction j as [|j IH]; intros H.
  - rewrite Nat.add_0_r. reflexivity.
  - rewrite Nat.add_succ_r, scan_upto_indented by (apply H; lia).
    apply IH. intros i Hi. apply H. lia.
Qed.

(** The body of the loop at line [n >= 1] writes to line [n-1] only. *)
Lemma scan_line_other (ls : str) (n i : nat) (st : scan_state) :
  S i < n ->
  nth_error (lines_of (scan_line ls n st)) i = nth_error (lines_of st) i.
Proof.
  intros Hi. unfold scan_line.
  destruct (_indent (nth n (lines_of st) [])); [|reflexivity].
  rewrite open_block_lines. unfold close_block.
  destruct (maybe st && negb (mem _ (nextexcept st))); [|reflexivity].
  simpl. destruct n as [|n]; [lia|]. simpl.
  apply append_at_other. lia.
Qed.

(** Once the loop is two lines past a line, that line is final. *)
Lemma scan_upto_stable (ls : str) (lines : list str) (k m i : nat) :
  S i < k -> k <= m ->
  nth_error (lines_of (scan_upto ls lines m)) i
  = nth_error (lines_of (scan_upto ls lines k)) i.
Proof.
  intros Hi Hm. induction Hm as [|m Hm IH]; [reflexivity|].
  rewrite scan_upto_S, scan_line_other by lia. exact IH.
Qed.

(** The loop at a line of indentation zero. *)
Lemma scan_upto_top_level (ls : str) (lines : list str) (k : nat) :
  _indent (nth k lines []) = 0 ->
  scan_upto ls lines (S k)
  = open_block (varname_match (nth k lines []))
               (close_block ls k (varname_match (nth k lines []))
                            (scan_upto ls lines k)).
Proof.
  intros H. rewrite scan_upto_S. unfold scan_line.
  destruct (scan_upto_inv ls lines k) as (_ & Hnth & _ & _).
  rewrite Hnth by lia. rewrite H. reflexivity.
Qed.

Lemma nth_block (before body after : list str) (kw next : str) :
  let lines := before ++ kw :: body ++ next :: after in
  nth (length before) lines [] = kw
  /\ nth (S (length before + length body)) lines [] = next
  /\ (forall i, S (length before) <= i < S (length before) + length body ->
                In (nth i lines []) body)
  /\ S (length before + length body) < length lines.
Proof.
  intros lines. unfold lines. repeat split.
  - rewrite nth_middle. reflexivity.
  - rewrite app_nth2 by lia.
    replace (S (length before + length body) - length before)
      with (S (length body)) by lia.
    simpl. rewrite nth_middle. reflexivity.
  - intros i Hi. rewrite app_nth2 by lia.
    destruct (i - length before) as [|j] eqn:E; [lia|]. simpl.
    rewrite app_nth1 by lia. apply nth_In. lia.
  - rewrite length_app. simpl. rewrite length_app. simpl. lia.
Qed.

(** The loop when it has passed a line of indentation zero that opens a
    block and the indented lines below it. *)
Lemma scan_upto_pending (ls : str) (before body after : list str)
      (kw next : str) :
  _indent kw = 0 ->
  opens_block (varname_match kw) = true ->
  Forall (fun l => _indent l <> 0) body ->
  let lines := before ++ kw :: body ++ next :: after in
  forall j, j <= length body ->
    maybe (scan_upto ls lines (S (length before) + j)) = true
    /\ nextexcept (scan_upto ls lines (S (length before) + j))
       = allowed_continuations (varname_match kw).
Proof.
  intros Hkw Hopen Hbody lines j Hj.
  destruct (nth_block before body after kw next) as (Hk & _ & Hb & _).
  fold lines in Hk, Hb.
  rewrite scan_upto_body.
  - rewrite scan_upto_top_level by (rewrite Hk; exact Hkw).
    rewrite Hk, open_block_sets_flag by exact Hopen. split; reflexivity.
  - intros i Hi. rewrite Forall_forall in Hbody. apply Hbody, Hb. lia.
Qed.

(** C3.  In the loop over the lines, let a line of indentation zero begin
    with a compound-statement keyword, let indented lines follow it, and
    let the next line of indentation zero begin with a word that is not an
    allowed continuation of that keyword.  Then the loop reaches that line
    with the flag set; there it appends the separator to the line before
    and clears the flag, which is set again only if the line itself opens a
    block; the line before stays so until the end of the scan, and the
    other lines of the block are those of the input.  When the word is an
    allowed continuation, nothing is appended and the flag stays.  On the
    two texts the separator lands after the last line of the block. *)
Theorem pending_block_closed_at_next_top_level_line :
  (forall (ls : str) (before body after : list str) (kw next : str),
      _indent kw = 0 ->
      opens_block (varname_match kw) = true ->
      Forall (fun l => _indent l <> 0) body ->
      _indent next = 0 ->
      let lines := before ++ kw :: body ++ next :: after in
      let p := length before + length body in
      let reached := scan_upto ls lines (S p) in
      let passed := scan_upto ls lines (S (S p)) in
      let final := keyword_scan ls lines in
      maybe reached = true
      /\ nextexcept reached = allowed_continuations (varname_match kw)
      /\ nth_error (lines_of reached) p = Some (nth p lines [])
      /\ (forall i, length before <= i < p ->
                    nth_error (lines_of final) i = nth_error lines i)
      /\ (mem (varname_match next)
              (allowed_continuations (varname_match kw)) = false ->
          nth_error (lines_of passed) p = Some (nth p lines [] ++ ls)
          /\ maybe (close_block ls (S p) (varname_match next) reached) = false
          /\ maybe passed = opens_block (varname_match next)
          /\ nth_error (lines_of final) p = Some (nth p lines [] ++ ls))
      /\ (mem (varname_match next)
              (allowed_continuations (varname_match kw)) = true ->
          maybe passed = true
          /\ nth_error (lines_of final) p = Some (nth p lines [])))
  /\ reindent (lit "if True:" ++ [LF] ++ lit "    pass" ++ [LF]
                 ++ lit "x = 1" ++ [LF]) 0 [LF]
     = Ok (Some (lit "if True:" ++ [LF] ++ lit "    pass" ++ [LF] ++ [LF]
                   ++ lit "x = 1" ++ [LF]))
  /\ reindent (lit "if True:" ++ [LF] ++ lit "    a = 1" ++ [LF]
                 ++ lit "    b = 2" ++ [LF] ++ lit "x = 1") 0 [LF]
     = Ok (Some (lit "if True:" ++ [LF] ++ lit "    a = 1" ++ [LF]
                   ++ lit "    b = 2" ++ [LF] ++ [LF] ++ lit "x = 1")).
Proof.
  split; [|split; vm_compute; reflexivity].
  intros ls before body after kw next Hkw Hopen Hbody Hnext lines p
         reached passed final.
  destruct (nth_block before body after kw next) as (Hk & Hn & Hb & Hlen).
  fold lines in Hk, Hn, Hb, Hlen. fold p in Hn, Hlen.
  pose proof (eq_refl : p = length before + length body) as Hp.
  destruct (scan_upto_pending ls before body after kw next Hkw Hopen Hbody
                              (length body) (le_n _)) as (Hflag & Hnx).
  fold lines in Hflag, Hnx.
  replace (S (length before) + length body) with (S p) in Hflag, Hnx
    by (rewrite Hp; reflexivity).
  fold reached in Hflag, Hnx.
  clearbody p lines.
  assert (Hprev : nth_error (lines_of reached) p = Some (nth p lines [])).
  { unfold reached. rewrite scan_upto_ahead by lia.
    apply nth_error_nth'. lia. }
  assert (Hstep : passed
                  = open_block (varname_match next)
                               (close_block ls (S p) (varname_match next)
                                            reached)).
  { unfold passed. rewrite scan_upto_top_level by (rewrite Hn; exact Hnext).
    rewrite Hn. reflexivity. }
  assert (Hfinal : nth_error (lines_of final) p
                   = nth_error (lines_of passed) p).
  { apply scan_upto_stable; lia. }
  split; [exact Hflag|]. split; [exact Hnx|]. split; [exact Hprev|].
  split; [|split].
  - intros i Hi. unfold final. rewrite scan_upto_all.
    rewrite (scan_upto_stable ls lines (S (S i))) by lia.
    rewrite scan_upto_indented; [apply scan_upto_ahead; lia|].
    rewrite Forall_forall in Hbody. apply Hbody, Hb. lia.
  - intros Hword.
    assert (Hclosed : close_block ls (S p) (varname_match next) reached
                      = {| lines_of := append_at p ls (lines_of reached);
                           maybe := false;
                           nextexcept := nextexcept reached |}).
    { unfold close_block. rewrite Hflag, Hnx, Hword. reflexivity. }
    assert (Hline : nth_error (lines_of passed) p
                    = Some (nth p lines [] ++ ls)).
    { rewrite Hstep, open_block_lines, Hclosed. simpl.
      apply append_at_same, Hprev. }
    split; [exact Hline|]. split; [rewrite Hclosed; reflexivity|].
    split; [|rewrite Hfinal; exact Hline].
    rewrite Hstep, Hclosed.
    destruct (opens_block (varname_match next)) eqn:E.
    + rewrite open_block_sets_flag by exact E. reflexivity.
    + rewrite open_block_none by exact E. reflexivity.
  - intros Hword.
    assert (Hclosed : close_block ls (S p) (varname_match next) reached
                      = reached).
    { unfold close_block. rewrite Hflag, Hnx, Hword. reflexivity. }
    split.
    + rewrite Hstep, Hclosed.
      destruct (opens_block (varname_match next)) eqn:E.
      * rewrite open_block_sets_flag by exact E. reflexivity.
      * rewrite open_block_none by exact E. exact Hflag.
    + rewrite Hfinal, Hstep, open_block_lines, Hclosed. exact Hprev.
Qed.

Lemma pending_block_closed_witness :
  let lines := [lit "a = 0"; lit "if True:"; lit "    a = 1"; lit "    b = 2";
                lit "x = 1"; lit "y = 2"] in
  nth_error (lines_of (keyword_scan [LF] lines)) 3
  = Some (lit "    b = 2" ++ [LF])
  /\ maybe (scan_upto [LF] lines 4) = true
  /\ maybe (scan_upto [LF] lines 5) = false
  /\ nth_error (lines_of (keyword_scan [LF] lines)) 2 = Some (lit "    a = 1").
Proof.
  intros lines.
  destruct (proj1 pending_block_closed_at_next_top_level_line
                  [LF] [lit "a = 0"] [lit "    a = 1"; lit "    b = 2"]
                  [lit "y = 2"] (lit "if True:") (lit "x = 1")
                  eq_refl eq_refl
                  ltac:(repeat constructor; discriminate) eq_refl)
    as (Hflag & _ & _ & Hbody & Hclose & _).
  destruct (Hclose eq_refl) as (_ & _ & Hpassed & Hfinal).
  split; [exact Hfinal|]. split; [exact Hflag|]. split; [exact Hpassed|].
  apply (Hbody 2). simpl. lia.
Defined.

End ReindentLinesFacts.

(** ** Brace matching *)

Module BraceFacts.
Import Py PyFacts Brace.

(** *** Searching a range *)

Lemma find_seq_first (p : nat -> bool) (s n : nat) :
  match List.find p (seq s n) with
  | Some i => s <= i < s + n /\ p i = true
              /\ forall j, s <= j < i -> p j = false
  | None => forall j, s <= j < s + n -> p j = false
  end.
Proof.
  revert s. induction n as [|n IH]; intros s; simpl.
  - intros j Hj. lia.
  - destruct (p s) eqn:E.
    + split; [lia|]. split; [exact E|]. intros j Hj. lia.
    + specialize (IH (S s)). destruct (List.find p (seq (S s) n)) as [i|].
      * destruct IH as (Hi & Hp & Hm). split; [lia|]. split; [exact Hp|].
        intros j Hj. destruct (Nat.eq_dec j s) as [->|Hne]; [exact E|].
        apply Hm. lia.
      * intros j Hj. destruct (Nat.eq_dec j s) as [->|Hne]; [exact E|].
        apply IH. lia.
Qed.

Lemma find_seq_last (p : nat -> bool) (s n : nat) :
  match List.find p (rev (seq s n)) with
  | Some i => s <= i < s + n /\ p i = true
              /\ forall j, i < j < s + n -> p j = false
  | None => forall j, s <= j < s + n -> p j = false
  end.
Proof.
  induction n as [|n IH].
  - simpl. intros j Hj. lia.
  - rewrite seq_S, rev_unit. simpl. destruct (p (s + n)) eqn:E.
    + split; [lia|]. split; [exact E|]. intros j Hj. lia.
    + destruct (List.find p (rev (seq s n))) as [i|].
      * destruct IH as (Hi & Hp & Hm). split; [lia|]. split; [exact Hp|].
        intros j Hj. destruct (Nat.eq_dec j (s + n)) as [->|Hne]; [exact E|].
        apply Hm. lia.
      * intros j Hj. destruct (Nat.eq_dec j (s + n)) as [->|Hne]; [exact E|].
        apply IH. lia.
Qed.

Lemma occurs_at_char (text : str) (c : ascii) (i : nat) :
  occurs_at text [c] i = true <-> nth_error text i = Some c.
Proof.
  unfold occurs_at. revert i. induction text as [|a text IH]; intros i.
  - destruct i; simpl; split; discriminate.
  - destruct i as [|i]; simpl.
    + rewrite andb_true_r, eqc_true. split; [intros <-|intros [=]]; auto.
    + apply IH.
Qed.

Lemma occurs_at_char_false (text : str) (c : ascii) (i : nat) :
  occurs_at text [c] i = false <-> nth_error text i <> Some c.
Proof.
  rewrite <- occurs_at_char. destruct (occurs_at text [c] i); split;
    congruence.
Qed.

(** [text.find(c, s, e)] for a character and bounds within the text. *)
Lemma py_find_char (text : str) (c : ascii) (s e : nat) (stop : option Z) :
  (stop = Some (Z.of_nat e) /\ e <= length text
   \/ stop = None /\ e = length text) ->
  (py_find text [c] (Z.of_nat s) stop = (-1)%Z
   /\ forall j, s <= j < e -> nth_error text j <> Some c)
  \/ (exists i, py_find text [c] (Z.of_nat s) stop = Z.of_nat i
                /\ s <= i < e /\ nth_error text i = Some c
                /\ forall j, s <= j < i -> nth_error text j <> Some c).
Proof.
  intros Hstop. unfold py_find, candidates.
  assert (Hs : Z.to_nat (adjust_start (Z.of_nat (length text)) (Z.of_nat s))
               = s).
  { unfold adjust_start. destruct (Z.ltb_spec (Z.of_nat s) 0); lia. }
  assert (He : Z.to_nat (adjust_end (Z.of_nat (length text)) stop) = e).
  { destruct Hstop as [[-> H]|[-> H]]; simpl; [|lia].
    destruct (Z.ltb_spec (Z.of_nat (length text)) (Z.of_nat e)); [lia|].
    destruct (Z.ltb_spec (Z.of_nat e) 0); lia. }
  rewrite Hs, He. simpl length.
  pose proof (find_seq_first (occurs_at text [c]) s (S e - (s + 1))) as H.
  destruct (List.find _ _) as [i|].
  - right. exists i. destruct H as (Hi & Hp & Hm).
    split; [reflexivity|]. split; [lia|].
    split; [apply occurs_at_char; exact Hp|].
    intros j Hj. apply occurs_at_char_false. apply Hm. exact Hj.
  - left. split; [reflexivity|]. intros j Hj.
    apply occurs_at_char_false. apply H. lia.
Qed.

(** [text.rfind(c, s, e)] for a character and bounds within the text. *)
Lemma py_rfind_char (text : str) (c : ascii) (s e : nat) :
  e <= length text ->
  (py_rfind text [c] (Z.of_nat s) (Some (Z.of_nat e)) = (-1)%Z
   /\ forall j, s <= j < e -> nth_error text j <> Some c)
  \/ (exists i, py_rfind text [c] (Z.of_nat s) (Some (Z.of_nat e))
                = Z.of_nat i
                /\ s <= i < e /\ nth_error text i = Some c
                /\ forall j, i < j < e -> nth_error text j <> Some c).
Proof.
  intros Hstop. unfold py_rfind, candidates.
  assert (Hs : Z.to_nat (adjust_start (Z.of_nat (length text)) (Z.of_nat s))
               = s).
  { unfold adjust_start. destruct (Z.ltb_spec (Z.of_nat s) 0); lia. }
  assert (He : Z.to_nat (adjust_end (Z.of_nat (length text))
                                    (Some (Z.of_nat e))) = e).
  { simpl.
    destruct (Z.ltb_spec (Z.of_nat (length text)) (Z.of_nat e)); [lia|].
    destruct (Z.ltb_spec (Z.of_nat e) 0); lia. }
  rewrite Hs, He. simpl length.
  pose proof (find_seq_last (occurs_at text [c]) s (S e - (s + 1))) as H.
  destruct (List.find _ _) as [i|].
  - right. exists i. destruct H as (Hi & Hp & Hm).
    split; [reflexivity|]. split; [lia|].
    split; [apply occurs_at_char; exact Hp|].
    intros j Hj. apply occurs_at_char_false. apply Hm. lia.
  - left. split; [reflexivity|]. intros j Hj.
    apply occurs_at_char_false. apply H. lia.
Qed.

(** *** Counting in a range *)

Lemma firstn_add {A} (n1 n2 : nat) (l : list A) :
  firstn (n1 + n2) l = firstn n1 l ++ firstn n2 (skipn n1 l).
Proof.
  revert l. induction n1 as [|n1 IH]; intros l; [reflexivity|].
  destruct l as [|a l]; simpl.
  - rewrite firstn_nil. reflexivity.
  - rewrite IH. reflexivity.
Qed.

Lemma occurrences_split (x : ascii) (text : str) (a m b : nat) :
  a <= m <= b ->
  occurrences x text a b = occurrences x text a m + occurrences x text m b.
Proof.
  intros H. unfold occurrences.
  replace (b - a) with ((m - a) + (b - m)) by lia.
  rewrite firstn_add, count_occ_app, skipn_skipn.
  replace (m - a + a) with m by lia. reflexivity.
Qed.

Lemma count_firstn_none (x : ascii) (n : nat) (l : str) :
  (forall j, j < n -> nth_error l j <> Some x) ->
  count_occ ascii_dec (firstn n l) x = 0.
Proof.
  revert l. induction n as [|n IH]; intros l H; [reflexivity|].
  destruct l as [|a l]; [reflexivity|]. simpl.
  destruct (ascii_dec a x) as [->|Hne].
  - exfalso. apply (H 0); [lia|reflexivity].
  - apply IH. intros j Hj. apply (H (S j)). lia.
Qed.

Lemma occurrences_none (x : ascii) (text : str) (a b : nat) :
  (forall j, a <= j < b -> nth_error text j <> Some x) ->
  occurrences x text a b = 0.
Proof.
  intros H. unfold occurrences. apply count_firstn_none.
  intros j Hj. rewrite nth_error_skipn. apply H. lia.
Qed.

Lemma occurrences_one (x : ascii) (text : str) (i : nat) :
  nth_error text i = Some x -> occurrences x text i (S i) = 1.
Proof.
  intros H. unfold occurrences. replace (S i - i) with 1 by lia.
  rewrite <- (Nat.add_0_r i) in H. rewrite <- nth_error_skipn in H.
  destruct (skipn i text) as [|a l]; [discriminate|].
  simpl in H. inversion H. subst a. simpl.
  destruct (ascii_dec x x); congruence.
Qed.

(** *** The search for the closing brace *)

Lemma brace_pair_forward (o c : ascii) :
  brace_pair o c ->
  o <> c /\ getitem (bracemap true) [o] = Returns [c].
Proof.
  intros [H|[H|H]]; inversion H; subst; split;
    solve [discriminate | reflexivity].
Qed.

Lemma brace_pair_backward (o c : ascii) :
  brace_pair o c ->
  o <> c /\ getitem (bracemap false) [c] = Returns [o].
Proof.
  intros [H|[H|H]]; inversion H; subst; split;
    solve [discriminate | reflexivity].
Qed.

Lemma forward_loop (o c : ascii) (text : str) (position : Z)
      (fuel io ic k : nat) :
  o <> c -> getitem (bracemap true) [o] = Returns [c] ->
  1 <= io <= ic -> ic <= S (length text) ->
  S (length text) < ic + fuel ->
  occurrences o text 1 io = k ->
  occurrences c text 1 ic = k ->
  (forall j, 1 <= j < ic -> nth_error text j = Some c ->
             occurrences c text 1 j < occurrences o text 1 j) ->
  exists r,
    brace_loop fuel text position [o] true (Z.of_nat io) (Z.of_nat ic)
    = Some (Returns r)
    /\ match r with
       | Some p => exists i, p = (position + Z.of_nat i)%Z /\ closes o c text i
       | None => forall i, ~ closes o c text i
       end.
Proof.
  intros Hoc Hget. revert io ic k.
  induction fuel as [|fuel IH]; intros io ic k Hio Hic Hfuel Ho Hc Hinv; [lia|].
  cbn [brace_loop]. rewrite Hget. cbv beta iota zeta.
  destruct (py_find_char text c ic (length text) None) as
    [[E Hnone]|(i & E & Hi & Hti & Hfirst)]; [right; auto| |]; rewrite E.
  - (* no closing brace is left *)
    simpl. exists None. split; [reflexivity|].
    intros i (H1 & Hti & Heq & _).
    destruct (Nat.lt_ge_cases i ic) as [Hlt|Hge].
    + specialize (Hinv i (conj H1 Hlt) Hti). lia.
    + apply (Hnone i); [|exact Hti]. split; [exact Hge|].
      apply nth_error_Some. congruence.
  - replace (-1 <? Z.of_nat i)%Z with true by (symmetry; apply Z.ltb_lt; lia).
    assert (Hci : occurrences c text 1 i = k).
    { rewrite (occurrences_split c text 1 ic i) by lia.
      rewrite (occurrences_none c text ic i); [lia|].
      intros j Hj. apply Hfirst. exact Hj. }
    destruct (py_find_char text o io i (Some (Z.of_nat i))) as
      [[E' Hnone]|(q & E' & Hq & Htq & Hfirst')]; [left; split; [auto|lia]| |];
      rewrite E'.
    + (* no opening brace is pending: this one closes *)
      simpl. exists (Some (position + Z.of_nat i)%Z). split; [reflexivity|].
      exists i. split; [reflexivity|]. unfold closes.
      split; [lia|]. split; [exact Hti|]. split.
      * rewrite Hci. rewrite (occurrences_split o text 1 io i) by lia.
        rewrite (occurrences_none o text io i) by exact Hnone. lia.
      * intros j Hj Htj. destruct (Nat.lt_ge_cases j ic) as [Hlt|Hge].
        -- apply Hinv; [lia|exact Htj].
        -- exfalso. apply (Hfirst j); [lia|exact Htj].
    + (* an opening brace is pending: it takes this closing brace *)
      replace (-1 <? Z.of_nat q)%Z with true
        by (symmetry; apply Z.ltb_lt; lia).
      replace (Z.of_nat q + 1)%Z with (Z.of_nat (S q)) by lia.
      replace (Z.of_nat i + 1)%Z with (Z.of_nat (S i)) by lia.
      assert (Hoq : occurrences o text 1 (S q) = S k).
      { rewrite (occurrences_split o text 1 io (S q)) by lia.
        rewrite (occurrences_split o text io q (S q)) by lia.
        rewrite (occurrences_none o text io q) by exact Hfirst'.
        rewrite (occurrences_one o text q Htq). lia. }
      apply (IH (S q) (S i) (S k)).
      * lia.
      * lia.
      * lia.
      * exact Hoq.
      * rewrite (occurrences_split c text 1 i (S i)) by lia.
        rewrite (occurrences_one c text i Hti). lia.
      * intros j Hj Htj. destruct (Nat.lt_ge_cases j ic) as [Hlt|Hge].
        -- apply Hinv; [lia|exact Htj].
        -- destruct (Nat.eq_dec j i) as [->|Hne].
           ++ rewrite Hci.
              rewrite (occurrences_split o text 1 (S q) i) by lia. lia.
           ++ exfalso. apply (Hfirst j); [lia|exact Htj].
Qed.

Lemma forward_search_returns (o c : ascii) (text : str) (position : Z) :
  brace_pair o c ->
  exists r, find_brace_match text position [o] true = Some (Returns r).
Proof.
  intros Hp. destruct (brace_pair_forward o c Hp) as [Hoc Hget].
  unfold find_brace_match. change 1%Z with (Z.of_nat 1).
  destruct (forward_loop o c text position (S (length text)) 1 1 0 Hoc Hget
                         ltac:(lia) ltac:(lia) ltac:(lia) eq_refl eq_refl
                         ltac:(intros; lia))
    as (r & Hr & _).
  exists r. exact Hr.
Qed.

(** X6: forwards, for each of the three pairs of braces, the search
    returns, and what it returns is the position of the closing brace
    that matches the brace at the head of the text: the first one behind
    it with as many opening as closing braces of its kind in between.
    It returns [None] when the text has no such brace. *)
Theorem find_brace_match_forward (o c : ascii) (text : str) (position : Z) :
  brace_pair o c ->
  exists r,
    find_brace_match text position [o] true = Some (Returns r)
    /\ match r with
       | Some p => exists i, p = (position + Z.of_nat i)%Z /\ closes o c text i
       | None => forall i, ~ closes o c text i
       end.
Proof.
  intros Hp. destruct (brace_pair_forward o c Hp) as [Hoc Hget].
  unfold find_brace_match. change 1%Z with (Z.of_nat 1).
  apply (forward_loop o c text position (S (length text)) 1 1 0 Hoc Hget).
  - lia.
  - lia.
  - lia.
  - reflexivity.
  - reflexivity.
  - intros j Hj. lia.
Qed.

Lemma find_brace_match_forward_witness :
  exists r,
    find_brace_match (lit "(a(b)c)d)") 10 (lit "(") true = Some (Returns r)
    /\ match r with
       | Some p => exists i, p = (10 + Z.of_nat i)%Z
                             /\ closes "("%char ")"%char (lit "(a(b)c)d)") i
       | None => forall i, ~ closes "("%char ")"%char (lit "(a(b)c)d)") i
       end.
Proof.
  apply (find_brace_match_forward "("%char ")"%char (lit "(a(b)c)d)") 10).
  left. reflexivity.
Defined.

(** *** The search for the opening brace *)

Lemma backward_loop (o c : ascii) (text : str) (position : Z)
      (fuel eo ec k : nat) :
  o <> c -> getitem (bracemap false) [c] = Returns [o] ->
  ec <= eo -> eo <= length text ->
  ec < fuel ->
  occurrences c text eo (length text) = k ->
  occurrences o text ec (length text) = k ->
  (forall j, ec <= j -> nth_error text j = Some o ->
             occurrences o text (S j) (length text)
             < occurrences c text (S j) (length text)) ->
  exists r,
    brace_loop fuel text position [c] false
               (Z.of_nat eo - 1) (Z.of_nat ec - 1)
    = Some (Returns r)
    /\ match r with
       | Some p => exists i,
           p = (position - (Z.of_nat (length text) - Z.of_nat i))%Z
           /\ opens o c text i
       | None => forall i, ~ opens o c text i
       end.
Proof.
  intros Hoc Hget. revert eo ec k.
  induction fuel as [|fuel IH]; intros eo ec k Hec Heo Hfuel Hc Ho Hinv;
    [lia|].
  cbn [brace_loop]. rewrite Hget. cbv beta iota zeta.
  replace (Z.of_nat ec - 1 + 1)%Z with (Z.of_nat ec) by lia.
  replace (Z.of_nat eo - 1 + 1)%Z with (Z.of_nat eo) by lia.
  change 0%Z with (Z.of_nat 0).
  destruct (py_rfind_char text o 0 ec) as
    [[E Hnone]|(i & E & Hi & Hti & Hlast)]; [lia| |]; rewrite E.
  - (* no opening brace is left *)
    simpl. exists None. split; [reflexivity|].
    intros i (Hti & Heq & _).
    destruct (Nat.lt_ge_cases i ec) as [Hlt|Hge].
    + apply (Hnone i); [lia|exact Hti].
    + specialize (Hinv i Hge Hti). lia.
  - replace (-1 <? Z.of_nat i)%Z with true by (symmetry; apply Z.ltb_lt; lia).
    assert (Hlen : i < length text) by (apply nth_error_Some; congruence).
    assert (Hoi : occurrences o text (S i) (length text) = k).
    { rewrite (occurrences_split o text (S i) ec (length text)) by lia.
      rewrite (occurrences_none o text (S i) ec); [lia|].
      intros j Hj. apply Hlast. lia. }
    destruct (py_rfind_char text c i eo) as
      [[E' Hnone]|(q & E' & Hq & Htq & Hlast')]; [lia| |]; rewrite E'.
    + (* no closing brace is pending: this one opens *)
      simpl. exists (Some (position - (Z.of_nat (length text) - Z.of_nat i))%Z).
      split; [reflexivity|]. exists i. split; [reflexivity|]. unfold opens.
      split; [exact Hti|]. split.
      * rewrite Hoi.
        rewrite (occurrences_split c text (S i) eo (length text)) by lia.
        rewrite (occurrences_none c text (S i) eo); [lia|].
        intros j Hj. apply Hnone. lia.
      * intros j Hj Htj. destruct (Nat.lt_ge_cases j ec) as [Hlt|Hge].
        -- exfalso. apply (Hlast j); [lia|exact Htj].
        -- apply Hinv; [lia|exact Htj].
    + (* a closing brace is pending: it takes this opening brace *)
      replace (-1 <? Z.of_nat q)%Z with true
        by (symmetry; apply Z.ltb_lt; lia).
      assert (Hqi : i < q).
      { destruct (Nat.eq_dec q i) as [->|Hne]; [congruence|lia]. }
      assert (Hcq : occurrences c text q (length text) = S k).
      { rewrite (occurrences_split c text q (S q) (length text)) by lia.
        rewrite (occurrences_split c text (S q) eo (length text)) by lia.
        rewrite (occurrences_none c text (S q) eo)
          by (intros j Hj; apply Hlast'; lia).
        rewrite (occurrences_one c text q Htq). lia. }
      apply (IH q i (S k)).
      * lia.
      * lia.
      * lia.
      * exact Hcq.
      * rewrite (occurrences_split o text i (S i) (length text)) by lia.
        rewrite (occurrences_one o text i Hti). lia.
      * intros j Hj Htj. destruct (Nat.lt_ge_cases j ec) as [Hlt|Hge].
        -- destruct (Nat.eq_dec j i) as [->|Hne].
           ++ rewrite Hoi.
              rewrite (occurrences_split c text (S i) q (length text))
                by lia. lia.
           ++ exfalso. apply (Hlast j); [lia|exact Htj].
        -- apply Hinv; [lia|exact Htj].
Qed.

Lemma backward_search_returns (o c : ascii) (text : str) (position : Z) :
  brace_pair o c ->
  exists r, find_brace_match text position [c] false = Some (Returns r).
Proof.
  intros Hp. destruct (brace_pair_backward o c Hp) as [Hoc Hget].
  unfold find_brace_match.
  assert (Hz : forall x, occurrences x text (length text) (length text) = 0).
  { intros x. unfold occurrences. rewrite Nat.sub_diag. reflexivity. }
  assert (Hend : forall j, length text <= j -> nth_error text j = Some o ->
                           occurrences o text (S j) (length text)
                           < occurrences c text (S j) (length text)).
  { intros j Hj Htj. exfalso.
    assert (j < length text) by (apply nth_error_Some; congruence). lia. }
  destruct (backward_loop o c text position (S (length text))
                          (length text) (length text) 0 Hoc Hget
                          ltac:(lia) ltac:(lia) ltac:(lia) (Hz c) (Hz o) Hend)
    as (r & Hr & _).
  exists r. exact Hr.
Qed.

(** X7: backwards, for each of the three pairs of braces, the search
    returns, and what it returns is the position of the opening brace
    that matches the brace behind the text: the last one with as many
    closing as opening braces of its kind behind it, counted back from
    [position] by its distance to the end of the text.  It returns
    [None] when the text has no such brace. *)
Theorem find_brace_match_backward (o c : ascii) (text : str) (position : Z) :
  brace_pair o c ->
  exists r,
    find_brace_match text position [c] false = Some (Returns r)
    /\ match r with
       | Some p => exists i,
           p = (position - (Z.of_nat (length text) - Z.of_nat i))%Z
           /\ opens o c text i
       | None => forall i, ~ opens o c text i
       end.
Proof.
  intros Hp. destruct (brace_pair_backward o c Hp) as [Hoc Hget].
  unfold find_brace_match.
  apply (backward_loop o c text position (S (length text))
                       (length text) (length text) 0 Hoc Hget).
  - lia.
  - lia.
  - lia.
  - unfold occurrences. rewrite Nat.sub_diag. reflexivity.
  - unfold occurrences. rewrite Nat.sub_diag. reflexivity.
  - intros j Hj Htj. exfalso.
    assert (j < length text) by (apply nth_error_Some; congruence). lia.
Qed.

Lemma find_brace_match_backward_witness :
  exists r,
    find_brace_match (lit "x[a[b]c") 7 (lit "]") false = Some (Returns r)
    /\ match r with
       | Some p => exists i,
           p = (7 - (Z.of_nat (length (lit "x[a[b]c")) - Z.of_nat i))%Z
           /\ opens "["%char "]"%char (lit "x[a[b]c") i
       | None => forall i, ~ opens "["%char "]"%char (lit "x[a[b]c") i
       end.
Proof.
  apply (find_brace_match_backward "["%char "]"%char (lit "x[a[b]c") 7).
  right. left. reflexivity.
Defined.

(** *** Braces that are not in the table *)

Lemma getitem_missing (forward : bool) (brace : str) :
  mem brace (map fst (bracemap forward)) = false ->
  getitem (bracemap forward) brace = RaisesKeyError.
Proof.
  assert (Hsym : forall a b, str_eqb a b = str_eqb b a).
  { intros a b. destruct (str_eqb a b) eqn:E1, (str_eqb b a) eqn:E2; auto.
    - apply str_eqb_true in E1. subst b.
      assert (str_eqb a a = true) by (apply str_eqb_true; reflexivity).
      congruence.
    - apply str_eqb_true in E2. subst b.
      assert (str_eqb a a = true) by (apply str_eqb_true; reflexivity).
      congruence. }
  destruct forward; unfold mem, existsb, bracemap, getitem, map, fst;
    intros H; rewrite !orb_false_iff in H;
    destruct H as (H1 & H2 & H3 & _);
    rewrite (Hsym _ brace), H1, (Hsym _ brace), H2, (Hsym _ brace), H3;
    reflexivity.
Qed.

(** X8: a brace that is not a key of the table of its direction raises
    [KeyError] at the first round of the loop, whatever the text; and
    [cursor_position_changed] only searches for a brace that is a key:
    from there the search always returns. *)
Theorem find_brace_match_key_error :
  (forall (text : str) (position : Z) (brace : str) (forward : bool),
      mem brace (map fst (bracemap forward)) = false ->
      find_brace_match text position brace forward = Some RaisesKeyError)
  /\ (forall (text : str) (pos1 : Z) (before after : str),
         cursor_brace_match text pos1 before after = None
         \/ exists r, cursor_brace_match text pos1 before after
                      = Some (Some (Returns r))).
Proof.
  split.
  - intros text position brace forward H. unfold find_brace_match.
    cbn [brace_loop]. rewrite (getitem_missing forward brace H). reflexivity.
  - intros text pos1 before after. unfold cursor_brace_match.
    destruct (mem text [lit ")"; lit "]"; lit "}"]) eqn:Eb.
    + right. unfold mem, existsb in Eb. rewrite !orb_true_iff in Eb.
      destruct Eb as [H|[H|[H|H]]]; [| | |discriminate];
        apply str_eqb_true in H; subst text.
      * destruct (backward_search_returns "("%char ")"%char before pos1)
          as (r & Hr); [left; reflexivity|]. exists r. f_equal. exact Hr.
      * destruct (backward_search_returns "["%char "]"%char before pos1)
          as (r & Hr); [right; left; reflexivity|]. exists r. f_equal. exact Hr.
      * destruct (backward_search_returns "{"%char "}"%char before pos1)
          as (r & Hr); [right; right; reflexivity|]. exists r. f_equal. exact Hr.
    + destruct (mem text [lit "("; lit "["; lit "{"]) eqn:Ef; [|left; auto].
      right. unfold mem, existsb in Ef. rewrite !orb_true_iff in Ef.
      destruct Ef as [H|[H|[H|H]]]; [| | |discriminate];
        apply str_eqb_true in H; subst text.
      * destruct (forward_search_returns "("%char ")"%char after pos1)
          as (r & Hr); [left; reflexivity|]. exists r. f_equal. exact Hr.
      * destruct (forward_search_returns "["%char "]"%char after pos1)
          as (r & Hr); [right; left; reflexivity|]. exists r. f_equal. exact Hr.
      * destruct (forward_search_returns "{"%char "}"%char after pos1)
          as (r & Hr); [right; right; reflexivity|]. exists r. f_equal. exact Hr.
Qed.

Lemma find_brace_match_key_error_witness :
  find_brace_match (lit "<a>") 0 (lit "<") true = Some RaisesKeyError.
Proof.
  apply (proj1 find_brace_match_key_error (lit "<a>") 0%Z (lit "<") true).
  reflexivity.
Defined.

End BraceFacts.

(** ** Extra selections *)

Module SelectionsFacts.
Import Py PyFacts Selections.

Section Editor.

Variable Selection : Type.
Implicit Types (d : list (str * list Selection)) (w : editor Selection).

Lemma str_eqb_refl (a : str) : str_eqb a a = true.
Proof. apply str_eqb_true. reflexivity. Qed.

Lemma str_eqb_false (a b : str) : str_eqb a b = false <-> a <> b.
Proof.
  rewrite <- str_eqb_true. destruct (str_eqb a b); split; congruence.
Qed.

Lemma gather_fold d (acc : list Selection) :
  fold_left gather d acc
  = concat (rev (map snd (filter (fun item => str_eqb (fst item) current_line)
                                 d)))
    ++ acc ++ others current_line d.
Proof.
  revert acc. unfold others.
  induction d as [|[k v] d IH]; intros acc; simpl.
  - rewrite app_nil_r. reflexivity.
  - rewrite IH. destruct (str_eqb k current_line); simpl.
    + rewrite concat_app. simpl. rewrite app_nil_r, <- !app_assoc.
      reflexivity.
    + rewrite <- !app_assoc. reflexivity.
Qed.

Lemma filter_key_missing d (key : str) :
  ~ In key (map fst d) ->
  filter (fun item => str_eqb (fst item) key) d = [].
Proof.
  induction d as [|[k v] d IH]; simpl; intros H; [reflexivity|].
  destruct (str_eqb k key) eqn:E.
  - apply str_eqb_true in E. exfalso. apply H. left. exact E.
  - apply IH. intros Hin. apply H. right. exact Hin.
Qed.

Lemma filter_key d (key : str) :
  is_dict d ->
  concat (rev (map snd (filter (fun item => str_eqb (fst item) key) d)))
  = dict_get d key [].
Proof.
  unfold is_dict. induction d as [|[k v] d IH]; simpl; intros H;
    [reflexivity|].
  inversion H as [|? ? Hk Hd]; subst.
  destruct (str_eqb k key) eqn:E.
  - apply str_eqb_true in E. subst k.
    rewrite (filter_key_missing d key Hk). simpl. apply app_nil_r.
  - apply IH. exact Hd.
Qed.

Lemma update_shown w :
  is_dict (extra_selections_dict w) ->
  extraSelections (update_extra_selections w)
  = get_extra_selections current_line w
    ++ others current_line (extra_selections_dict w).
Proof.
  intros H. unfold update_extra_selections, get_extra_selections. simpl.
  rewrite gather_fold, (filter_key _ _ H). reflexivity.
Qed.

Lemma dict_set_keys d (key : str) (value : list Selection) :
  map fst (dict_set d key value)
  = if existsb (fun k => str_eqb k key) (map fst d)
    then map fst d else map fst d ++ [key].
Proof.
  induction d as [|[k v] d IH]; simpl; [reflexivity|].
  destruct (str_eqb k key) eqn:E; simpl; [reflexivity|].
  rewrite IH. destruct (existsb _ (map fst d)); reflexivity.
Qed.

Lemma dict_set_is_dict d (key : str) (value : list Selection) :
  is_dict d -> is_dict (dict_set d key value).
Proof.
  unfold is_dict. rewrite dict_set_keys. intros H.
  destruct (existsb _ (map fst d)) eqn:E; [exact H|].
  apply NoDup_app; [exact H|repeat constructor; intros []|].
  intros x Hx [Hk|[]]. subst x.
  assert (existsb (fun k => str_eqb k key) (map fst d) = true); [|congruence].
  apply existsb_exists. exists key. split; [exact Hx|apply str_eqb_refl].
Qed.

Lemma dict_get_set d (key key' : str) (value default : list Selection) :
  dict_get (dict_set d key value) key' default
  = if str_eqb key key' then value else dict_get d key' default.
Proof.
  induction d as [|[k v] d IH]; simpl.
  - reflexivity.
  - destruct (str_eqb k key) eqn:E; simpl.
    + apply str_eqb_true in E. rewrite E.
      destruct (str_eqb key key'); reflexivity.
    + rewrite IH. destruct (str_eqb k key') eqn:E'; [|reflexivity].
      destruct (str_eqb key key') eqn:E2; [|reflexivity].
      apply str_eqb_true in E', E2. subst key' k.
      rewrite str_eqb_refl in E. discriminate.
Qed.

Lemma dict_get_in d (key : str) (value : list Selection) :
  is_dict d -> In (key, value) d -> dict_get d key [] = value.
Proof.
  unfold is_dict. induction d as [|[k v] d IH]; simpl; intros H Hin;
    [destruct Hin|].
  inversion H as [|? ? Hk Hd]; subst. destruct Hin as [Hin|Hin].
  - inversion Hin; subst. rewrite str_eqb_refl. reflexivity.
  - destruct (str_eqb k key) eqn:E; [|apply IH; assumption].
    apply str_eqb_true in E. subst k. exfalso. apply Hk.
    apply in_map_iff. exists (key, value). split; [reflexivity|exact Hin].
Qed.

Lemma dict_get_item d (key : str) (x : Selection) :
  In x (dict_get d key []) -> In (key, dict_get d key []) d.
Proof.
  induction d as [|[k v] d IH]; simpl; intros H; [destruct H|].
  destruct (str_eqb k key) eqn:E.
  - apply str_eqb_true in E. subst k. left. reflexivity.
  - right. apply IH. exact H.
Qed.

Lemma others_in d (key : str) (x : Selection) :
  is_dict d ->
  In x (others key d)
  <-> exists key', key' <> key /\ In x (dict_get d key' []).
Proof.
  intros Hd. unfold others. rewrite in_concat. split.
  - intros (l & Hl & Hx). apply in_map_iff in Hl.
    destruct Hl as ([k v] & Hv & Hin). simpl in Hv. subst l.
    apply filter_In in Hin. destruct Hin as [Hin Hk]. simpl in Hk.
    apply negb_true_iff in Hk. apply str_eqb_false in Hk.
    exists k. split; [exact Hk|].
    rewrite (dict_get_in d k v Hd Hin). exact Hx.
  - intros (key' & Hne & Hx). exists (dict_get d key' []).
    split; [|exact Hx]. apply in_map_iff.
    exists (key', dict_get d key' []). split; [reflexivity|].
    apply filter_In. split; [eapply dict_get_item; exact Hx|].
    simpl. apply negb_true_iff. apply str_eqb_false. exact Hne.
Qed.

Lemma shown_in w (x : Selection) :
  is_dict (extra_selections_dict w) ->
  In x (extraSelections (update_extra_selections w))
  <-> exists key, In x (get_extra_selections key w).
Proof.
  intros Hd. rewrite (update_shown w Hd), in_app_iff, (others_in _ _ _ Hd).
  unfold get_extra_selections. split.
  - intros [H|(key & _ & H)]; eauto.
  - intros (key & H). destruct (str_eqb key current_line) eqn:E.
    + apply str_eqb_true in E. subst key. left. exact H.
    + apply str_eqb_false in E. right. eauto.
Qed.

(** X9: whatever the order in which the dict yields its keys, the
    selections of the current line are the first of the list the widget
    is given, before those of all other keys; after
    [highlight_current_line] the list is the new selection, followed by
    the selections of the other keys. *)
Theorem current_line_is_shown_first w (selection : Selection) :
  is_dict (extra_selections_dict w) ->
  extraSelections (update_extra_selections w)
  = get_extra_selections current_line w
    ++ others current_line (extra_selections_dict w)
  /\ extraSelections (highlight_current_line selection w)
     = selection
       :: others current_line
                 (extra_selections_dict (highlight_current_line selection w)).
Proof.
  intros Hd. split; [apply update_shown; exact Hd|].
  unfold highlight_current_line. rewrite update_shown.
  - unfold get_extra_selections, set_extra_selections. simpl.
    rewrite dict_get_set, str_eqb_refl. reflexivity.
  - simpl. apply dict_set_is_dict. exact Hd.
Qed.

(** X10: clearing a key leaves a dict in which that key has no selection
    and every other key has the selections it had, and the widget is
    given exactly the selections of the other keys. *)
Theorem clear_extra_selections_keeps_others w (key : str) :
  is_dict (extra_selections_dict w) ->
  is_dict (extra_selections_dict (clear_extra_selections key w))
  /\ get_extra_selections key (clear_extra_selections key w) = []
  /\ (forall key', key' <> key ->
        get_extra_selections key' (clear_extra_selections key w)
        = get_extra_selections key' w)
  /\ (forall x, In x (extraSelections (clear_extra_selections key w))
                <-> exists key', key' <> key
                                 /\ In x (get_extra_selections key' w)).
Proof.
  intros Hd.
  assert (Hd' : is_dict (extra_selections_dict (set_extra_selections key [] w)))
    by (simpl; apply dict_set_is_dict; exact Hd).
  unfold clear_extra_selections.
  split; [exact Hd'|]. split; [|split].
  - unfold get_extra_selections. simpl. rewrite dict_get_set, str_eqb_refl.
    reflexivity.
  - intros key' Hne. unfold get_extra_selections. simpl.
    rewrite dict_get_set.
    destruct (str_eqb key key') eqn:E; [|reflexivity].
    apply str_eqb_true in E. congruence.
  - intros x. rewrite (shown_in _ x Hd'). unfold get_extra_selections.
    simpl. split.
    + intros (key' & H). rewrite dict_get_set in H.
      destruct (str_eqb key key') eqn:E; [destruct H|].
      apply str_eqb_false in E. exists key'. split; [congruence|exact H].
    + intros (key' & Hne & H). exists key'. rewrite dict_get_set.
      destruct (str_eqb key key') eqn:E; [|exact H].
      apply str_eqb_true in E. congruence.
Qed.

End Editor.

Lemma current_line_is_shown_first_witness :
  let w := {| extra_selections_dict :=
                [(lit "brace_matching", [1; 2]); (current_line, [3])];
              extraSelections := [] |} in
  extraSelections (update_extra_selections w) = [3; 1; 2]
  /\ extraSelections (highlight_current_line 4 w) = [4; 1; 2].
Proof.
  intros w. apply (current_line_is_shown_first nat w 4).
  repeat constructor; simpl; intuition discriminate.
Defined.

Lemma clear_extra_selections_keeps_others_witness :
  let w := {| extra_selections_dict :=
                [(lit "brace_matching", [1; 2]); (current_line, [3])];
              extraSelections := [3; 1; 2] |} in
  let w' := clear_extra_selections (lit "brace_matching") w in
  is_dict (extra_selections_dict w')
  /\ get_extra_selections (lit "brace_matching") w' = []
  /\ (forall key', key' <> lit "brace_matching" ->
        get_extra_selections key' w' = get_extra_selections key' w)
  /\ (forall x, In x (extraSelections w')
                <-> exists key', key' <> lit "brace_matching"
                                 /\ In x (get_extra_selections key' w)).
Proof.
  intros w w'. apply (clear_extra_selections_keeps_others nat w).
  repeat constructor; simpl; intuition discriminate.
Defined.

End SelectionsFacts.

(** ** The completion list *)

Module CompletionFacts.
Import Py PyFacts Completion.

(** *** The current row *)

Lemma lower_char_idem (c : ascii) : lower_char (lower_char c) = lower_char c.
Proof. destruct c as [[] [] [] [] [] [] [] []]; reflexivity. Qed.

Lemma lower_idem (s : str) : lower (lower s) = lower s.
Proof.
  unfold lower. rewrite map_map. apply map_ext. apply lower_char_idem.
Qed.

Lemma folded_idem (cs : bool) (s : str) :
  folded cs (folded cs s) = folded cs s.
Proof. destruct cs; [reflexivity|apply lower_idem]. Qed.

Lemma update_loop_spec (cs : bool) (text : str) (row : nat)
      (completions : list str) :
  match update_loop cs (folded cs text) row completions with
  | Some r =>
      row <= r < row + length completions
      /\ candidate cs text (nth (r - row) completions []) = true
      /\ forall j, j < r - row ->
                   candidate cs text (nth j completions []) = false
  | None =>
      forall j, j < length completions ->
                candidate cs text (nth j completions []) = false
  end.
Proof.
  revert row. induction completions as [|c l IH]; intros row.
  - simpl. intros j Hj. lia.
  - cbn [update_loop]. fold (folded cs c). fold (folded cs (folded cs text)).
    rewrite folded_idem. fold (candidate cs text c).
    destruct (candidate cs text c) eqn:E.
    + replace (row - row) with 0 by lia. simpl.
      split; [lia|]. split; [exact E|]. intros j Hj. lia.
    + specialize (IH (S row)).
      destruct (update_loop cs (folded cs text) (S row) l) as [r|].
      * destruct IH as (Hr & Hc & Hm).
        replace (r - row) with (S (r - S row)) by lia.
        split; [simpl; lia|]. split; [exact Hc|].
        intros [|j] Hj; [exact E|]. simpl. apply Hm. lia.
      * intros [|j] Hj; [exact E|]. simpl. apply IH. simpl in Hj. lia.
Qed.

Lemma update_loop_folded (cs : bool) (text : str) (row : nat)
      (completions : list str) :
  update_loop cs text row completions
  = update_loop cs (folded cs text) row completions.
Proof.
  destruct completions as [|c l]; [reflexivity|].
  cbn [update_loop]. fold (folded cs text). fold (folded cs (folded cs text)).
  rewrite folded_idem. reflexivity.
Qed.

(** X11: [update_current] makes the first completion that begins with the
    text typed so far the current row, both taken in lower case unless
    the widget is case sensitive, and hides the widget when no
    completion begins with it or when no text was typed; with a text
    and no list yet, [enumerate(None)] raises [TypeError]. *)
Theorem update_current_selects_first_candidate (w : completion_widget) :
  (completion_text w = [] -> update_current w = Updated (hide w))
  /\ (completion_text w <> [] -> completion_list w = None ->
      update_current w = RaisesTypeError)
  /\ (forall completions,
        completion_text w <> [] ->
        completion_list w = Some completions ->
        (exists row,
            update_current w = Updated (setCurrentRow row w)
            /\ row < length completions
            /\ candidate (case_sensitive w) (completion_text w)
                         (nth row completions []) = true
            /\ forall j, j < row ->
                 candidate (case_sensitive w) (completion_text w)
                           (nth j completions []) = false)
        \/ (update_current w = Updated (hide w)
            /\ forall j, j < length completions ->
                 candidate (case_sensitive w) (completion_text w)
                           (nth j completions []) = false)).
Proof.
  unfold update_current. split; [|split].
  - intros ->. reflexivity.
  - intros Ht ->. destruct (completion_text w); [congruence|reflexivity].
  - intros l Ht ->. destruct (completion_text w) as [|t0 t] eqn:Et;
      [congruence|]. rewrite update_loop_folded.
    pose proof (update_loop_spec (case_sensitive w) (t0 :: t) 0 l) as H.
    destruct (update_loop _ _ 0 l) as [r|].
    + left. exists r. rewrite Nat.sub_0_r in H.
      destruct H as (Hr & Hc & Hm). split; [reflexivity|].
      split; [lia|]. split; [exact Hc|exact Hm].
    + right. split; [reflexivity|exact H].
Qed.

Lemma update_current_selects_first_candidate_witness :
  let w := {| completion_list := Some [lit "Alpha"; lit "beta"; lit "Bet"];
              case_sensitive := false; currentRow := 0; visible := true;
              textedit_focus := false; completion_text := lit "BE" |} in
  (exists row,
      update_current w = Updated (setCurrentRow row w)
      /\ row < 3
      /\ candidate false (lit "BE")
                   (nth row [lit "Alpha"; lit "beta"; lit "Bet"] []) = true
      /\ forall j, j < row ->
           candidate false (lit "BE")
                     (nth j [lit "Alpha"; lit "beta"; lit "Bet"] []) = false)
  \/ (update_current w = Updated (hide w)
      /\ forall j, j < 3 ->
           candidate false (lit "BE")
                     (nth j [lit "Alpha"; lit "beta"; lit "Bet"] []) = false).
Proof.
  intros w.
  apply (proj2 (proj2 (update_current_selects_first_candidate w))
               [lit "Alpha"; lit "beta"; lit "Bet"]).
  - discriminate.
  - reflexivity.
Defined.

(** *** The order of the list *)

Lemma str_ltb_asym (a b : str) : str_ltb a b = true -> str_ltb b a = false.
Proof.
  revert b. induction a as [|x a IH]; intros [|y b]; simpl; auto.
  destruct (Nat.ltb_spec (nat_of_ascii x) (nat_of_ascii y)),
           (Nat.ltb_spec (nat_of_ascii y) (nat_of_ascii x));
    try lia; auto.
Qed.

(** When [b] is not below [a] and [c] not below [b], [c] is not below
    [a]. *)
Lemma str_le_trans (a b c : str) :
  str_ltb b a = false -> str_ltb c b = false -> str_ltb c a = false.
Proof.
  revert b c. induction a as [|x a IH]; intros [|y b] [|z c]; simpl; auto;
    try discriminate.
  destruct (Nat.ltb_spec (nat_of_ascii y) (nat_of_ascii x)),
           (Nat.ltb_spec (nat_of_ascii x) (nat_of_ascii y)),
           (Nat.ltb_spec (nat_of_ascii z) (nat_of_ascii y)),
           (Nat.ltb_spec (nat_of_ascii y) (nat_of_ascii z)),
           (Nat.ltb_spec (nat_of_ascii z) (nat_of_ascii x)),
           (Nat.ltb_spec (nat_of_ascii x) (nat_of_ascii z));
    try lia; try discriminate; auto.
  apply IH.
Qed.

Section Sorting.

Variable str_lower : str -> str.
Variable set_of : list str -> list str.
Hypothesis set_of_NoDup : forall l, NoDup (set_of l).
Hypothesis set_of_In : forall l x, In x (set_of l) <-> In x l.

Lemma insert_sorted_In (x y : str) (s : list str) :
  In y (insert_sorted str_lower x s) <-> y = x \/ In y s.
Proof.
  induction s as [|z s IH]; simpl.
  - intuition.
  - destruct (str_ltb _ _); simpl; rewrite ?IH; intuition.
Qed.

Lemma insert_sorted_NoDup (x : str) (s : list str) :
  ~ In x s -> NoDup s -> NoDup (insert_sorted str_lower x s).
Proof.
  induction s as [|z s IH]; simpl; intros Hx Hs.
  - constructor; auto.
  - destruct (str_ltb _ _).
    + inversion Hs as [|? ? Hz Hs']; subst. constructor.
      * rewrite insert_sorted_In. intros [->|H]; [apply Hx; auto|auto].
      * apply IH; auto.
    + constructor; auto.
Qed.

Lemma insert_sorted_sorted (x : str) (s : list str) :
  StronglySorted (key_le str_lower) s ->
  StronglySorted (key_le str_lower) (insert_sorted str_lower x s).
Proof.
  induction s as [|z s IH]; simpl; intros Hs.
  - constructor; constructor.
  - inversion Hs as [|? ? Hs' Hz]; subst.
    destruct (str_ltb (str_lower z) (str_lower x)) eqn:E.
    + constructor; [apply IH; exact Hs'|].
      apply Forall_forall. intros y Hy. apply insert_sorted_In in Hy.
      destruct Hy as [->|Hy].
      * unfold key_le. apply str_ltb_asym. exact E.
      * rewrite Forall_forall in Hz. apply Hz. exact Hy.
    + constructor; [exact Hs|]. constructor; [exact E|].
      eapply Forall_impl; [|exact Hz]. intros y Hy. unfold key_le in *.
      eapply str_le_trans; [exact E|exact Hy].
Qed.

Lemma sorted_In (xs : list str) (y : str) :
  In y (sorted str_lower xs) <-> In y xs.
Proof.
  induction xs as [|x xs IH]; simpl; [tauto|].
  rewrite insert_sorted_In, IH. intuition.
Qed.

Lemma sorted_NoDup (xs : list str) :
  NoDup xs -> NoDup (sorted str_lower xs).
Proof.
  induction 1 as [|x xs Hx _ IH]; simpl; [constructor|].
  apply insert_sorted_NoDup; [|exact IH]. rewrite sorted_In. exact Hx.
Qed.

Lemma sorted_sorted (xs : list str) :
  StronglySorted (key_le str_lower) (sorted str_lower xs).
Proof.
  induction xs as [|x xs IH]; simpl; [constructor|].
  apply insert_sorted_sorted. exact IH.
Qed.

Lemma mem_In (x : str) (l : list str) : mem x l = true <-> In x l.
Proof.
  unfold mem. rewrite existsb_exists. split.
  - intros (y & Hy & E). apply str_eqb_true in E. subst y. exact Hy.
  - intros H. exists x. split; [exact H|]. apply str_eqb_true. reflexivity.
Qed.

Lemma others_filter (completions : list str) (x : str) :
  In x (filter (fun comp => negb (mem comp (filter underscored completions)))
               completions)
  <-> In x completions /\ underscored x = false.
Proof.
  rewrite filter_In. split; intros [Hin H]; split; auto.
  - destruct (underscored x) eqn:E; [|reflexivity].
    apply negb_true_iff in H.
    assert (mem x (filter underscored completions) = true); [|congruence].
    apply mem_In. apply filter_In. auto.
  - apply negb_true_iff. destruct (mem x _) eqn:E; [|reflexivity].
    apply mem_In in E. apply filter_In in E. destruct E. congruence.
Qed.

(** X12: [show_completion_list] returns at once for an empty list and for
    the list made of the completion text alone.  Otherwise, in whatever
    order the two sets yield their elements, the list it hands on has
    each completion once, the completions that begin with an underscore
    behind all others, and each of the two groups in the order of
    [str_lower]. *)
Theorem show_completion_list_order (completions : list str)
        (completion_text self_completion_text : str) :
  (completions = [] \/ completions = [completion_text] ->
   show_completion_list str_lower set_of completions completion_text
                        self_completion_text
   = (self_completion_text, None))
  /\ (completions <> [] -> completions <> [completion_text] ->
      exists plain under,
        show_completion_list str_lower set_of completions completion_text
                             self_completion_text
        = (completion_text, Some (plain ++ under))
        /\ NoDup (plain ++ under)
        /\ (forall x, In x (plain ++ under) <-> In x completions)
        /\ Forall (fun x => underscored x = false) plain
        /\ Forall (fun x => underscored x = true) under
        /\ StronglySorted (key_le str_lower) plain
        /\ StronglySorted (key_le str_lower) under).
Proof.
  unfold show_completion_list. split.
  - intros [->| ->]; [reflexivity|]. simpl.
    assert (E : str_eqb completion_text completion_text = true)
      by (apply str_eqb_true; reflexivity).
    rewrite E. reflexivity.
  - intros Hne Hone.
    assert (E0 : (length completions =? 0) = false).
    { destruct completions; [congruence|reflexivity]. }
    assert (E1 : is_only completions completion_text = false).
    { destruct completions as [|c [|c' l]]; try reflexivity. simpl.
      destruct (str_eqb c completion_text) eqn:E; [|reflexivity].
      apply str_eqb_true in E. congruence. }
    rewrite E0, E1. simpl orb. cbv iota zeta.
    set (under := filter underscored completions).
    set (plain := filter (fun comp => negb (mem comp under)) completions).
    assert (Hplain : forall x, In x (sorted str_lower (set_of plain))
                               <-> In x completions /\ underscored x = false).
    { intros x. rewrite sorted_In, set_of_In. apply others_filter. }
    assert (Hunder : forall x, In x (sorted str_lower (set_of under))
                               <-> In x completions /\ underscored x = true).
    { intros x. rewrite sorted_In, set_of_In. apply filter_In. }
    exists (sorted str_lower (set_of plain)),
           (sorted str_lower (set_of under)).
    split; [reflexivity|]. split; [|split; [|split; [|split; [|split]]]].
    + apply NoDup_app.
      * apply sorted_NoDup, set_of_NoDup.
      * apply sorted_NoDup, set_of_NoDup.
      * intros x Hx Hx'. apply Hplain in Hx. apply Hunder in Hx'.
        destruct Hx, Hx'. congruence.
    + intros x. rewrite in_app_iff, Hplain, Hunder.
      destruct (underscored x); intuition congruence.
    + apply Forall_forall. intros x Hx. apply Hplain in Hx. tauto.
    + apply Forall_forall. intros x Hx. apply Hunder in Hx. tauto.
    + apply sorted_sorted.
    + apply sorted_sorted.
Qed.

End Sorting.

Lemma show_completion_list_order_witness :
  let set_of := nodup (list_eq_dec ascii_dec) in
  let completions := [lit "_x"; lit "b"; lit "A"; lit "b"] in
  exists plain under,
    show_completion_list lower set_of completions (lit "b") (lit "old")
    = (lit "b", Some (plain ++ under))
    /\ NoDup (plain ++ under)
    /\ (forall x, In x (plain ++ under) <-> In x completions)
    /\ Forall (fun x => underscored x = false) plain
    /\ Forall (fun x => underscored x = true) under
    /\ StronglySorted (key_le lower) plain
    /\ StronglySorted (key_le lower) under.
Proof.
  intros set_of completions.
  apply (proj2 (show_completion_list_order
                  lower set_of
                  (fun l => NoDup_nodup (list_eq_dec ascii_dec) l)
                  (fun l x => nodup_In (list_eq_dec ascii_dec) l x)
                  completions (lit "b") (lit "old"))).
  - discriminate.
  - discriminate.
Defined.

End CompletionFacts.

(** ** The text cursor *)

Module CursorFacts.
Import Py PyFacts Cursor.
Local Open Scope Z_scope.

Lemma indent_pos_bounds (start_position : Z) (text : str) :
  start_position <= indent_pos start_position text
  <= start_position + Z.of_nat (length text).
Proof.
  unfold indent_pos. pose proof (lstrip_length text). lia.
Qed.

Lemma setPosition_in_range (last pos : Z) (mode : MoveMode)
      (c : QTextCursor) :
  0 <= pos <= last ->
  setPosition last pos mode c
  = match mode with
    | MoveAnchor => {| anchor := pos; position := pos |}
    | KeepAnchor => {| anchor := anchor c; position := pos |}
    end.
Proof.
  intros H. unfold setPosition.
  destruct (Z.ltb_spec pos 0); [lia|].
  destruct (Z.ltb_spec last pos); [lia|]. reflexivity.
Qed.

Lemma stdkey_home_position (last start_position : Z) (text : str)
      (shift : bool) (c : QTextCursor) :
  0 <= start_position ->
  start_position + Z.of_nat (length text) <= last ->
  position (stdkey_home last start_position text shift false c)
  = (if position c =? indent_pos start_position text
     then start_position else indent_pos start_position text)
  /\ anchor (stdkey_home last start_position text shift false c)
     = (if shift then anchor c
        else position (stdkey_home last start_position text shift false c)).
Proof.
  intros H0 H1. pose proof (indent_pos_bounds start_position text) as Hb.
  unfold stdkey_home. cbv iota.
  destruct (position c =? indent_pos start_position text); simpl negb;
    cbv iota; rewrite setPosition_in_range by lia;
    destruct shift; simpl; auto.
Qed.

(** X13: the HOME key without Ctrl moves the cursor to the indentation of
    the line, and from the indentation to the start of the line: the
    cursor stays on the line, a third press does what the first did, and
    the anchor follows the cursor unless Shift is held. *)
Theorem smart_home_alternates (last start_position : Z) (text : str)
        (shift : bool) (c : QTextCursor) :
  0 <= start_position ->
  start_position + Z.of_nat (length text) <= last ->
  let home := stdkey_home last start_position text shift false in
  position (home c)
  = (if position c =? indent_pos start_position text
     then start_position else indent_pos start_position text)
  /\ anchor (home c) = (if shift then anchor c else position (home c))
  /\ start_position <= position (home c)
     <= start_position + Z.of_nat (length text)
  /\ position (home (home (home c))) = position (home c).
Proof.
  intros H0 H1 home. subst home.
  pose proof (indent_pos_bounds start_position text) as Hb.
  pose proof (stdkey_home_position last start_position text shift) as Hp.
  destruct (Hp c H0 H1) as [P1 A1].
  set (c1 := stdkey_home last start_position text shift false c) in *.
  destruct (Hp c1 H0 H1) as [P2 _].
  set (c2 := stdkey_home last start_position text shift false c1) in *.
  destruct (Hp c2 H0 H1) as [P3 _].
  set (c3 := stdkey_home last start_position text shift false c2) in *.
  split; [exact P1|]. split; [exact A1|]. split.
  - rewrite P1. destruct (position c =? _); lia.
  - rewrite P3, P2, P1.
    destruct (position c =? indent_pos start_position text) eqn:E.
    + destruct (start_position =? indent_pos start_position text) eqn:E2.
      * apply Z.eqb_eq in E2. rewrite <- E2, Z.eqb_refl. reflexivity.
      * rewrite Z.eqb_refl. reflexivity.
    + rewrite Z.eqb_refl.
      destruct (start_position =? indent_pos start_position text) eqn:E2.
      * apply Z.eqb_eq in E2. rewrite <- E2. reflexivity.
      * reflexivity.
Qed.

Lemma smart_home_alternates_witness :
  let text := lit "    x = 1" in
  let c := {| anchor := 25; position := 25 |} in
  let home := stdkey_home 100 20 text false false in
  position (home c) = (if 25 =? indent_pos 20 text
                       then 20 else indent_pos 20 text)
  /\ anchor (home c) = position (home c)
  /\ 20 <= position (home c) <= 20 + Z.of_nat (length text)
  /\ position (home (home (home c))) = position (home c).
Proof.
  intros text c.
  apply (smart_home_alternates 100 20 text false c).
  - lia.
  - vm_compute. discriminate.
Defined.

(** X14: [truncate_selection] keeps the part of the selection that lies
    behind [position_from] and puts the cursor at its end, when the
    selection ends there or behind; when it ends before, the new
    selection runs from that end to [position_from]. *)
Theorem truncate_selection_bounds (last position_from : Z)
        (c : QTextCursor) :
  in_document last c ->
  0 <= position_from <= last ->
  let c' := truncate_selection last position_from c in
  (position_from <= selectionEnd c ->
   anchor c' = Z.max position_from (selectionStart c)
   /\ position c' = selectionEnd c)
  /\ (selectionEnd c < position_from ->
      selectionStart c' = selectionEnd c
      /\ selectionEnd c' = position_from).
Proof.
  intros [Ha Hp] Hf c'. subst c'.
  unfold truncate_selection, set_selection, selectionStart, selectionEnd.
  destruct (Z.ltb_spec (Z.min (anchor c) (position c))
                       (Z.max (anchor c) (position c))) as [Hlt|Hge];
    rewrite !setPosition_in_range by lia; simpl; split; intros H;
    split; lia.
Qed.

Lemma truncate_selection_bounds_witness :
  let c := {| anchor := 12; position := 3 |} in
  let c' := truncate_selection 20 5 c in
  (5 <= selectionEnd c ->
   anchor c' = Z.max 5 (selectionStart c) /\ position c' = selectionEnd c)
  /\ (selectionEnd c < 5 ->
      selectionStart c' = selectionEnd c /\ selectionEnd c' = 5).
Proof.
  intros c.
  apply (truncate_selection_bounds 20 5 c).
  - unfold in_document. simpl. lia.
  - lia.
Defined.

End CursorFacts.

(** ** The console *)

Module ShellFacts.
Import Py PyFacts Ansi AnsiFacts Shell.

(** *** Error output *)

Lemma splitlines_concat (s : str) : concat (splitlines_keepends s) = s.
Proof.
  induction s as [|c s IH]; [reflexivity|]. simpl.
  destruct (ends_line c s).
  - simpl. rewrite IH. reflexivity.
  - destruct (splitlines_keepends s) as [|line lines].
    + simpl in IH. subst s. reflexivity.
    + simpl in *. rewrite IH. reflexivity.
Qed.

Lemma traceback_link_text (text : str) :
  traceback_link text = true -> lit "  " ++ skipn 2 text = text.
Proof.
  unfold traceback_link. intros H. apply andb_true_iff in H.
  destruct H as [H _]. apply startswith_app in H.
  rewrite H. reflexivity.
Qed.

Lemma error_runs_cons (w : console) (text : str) (lines : list str) :
  error_runs w (text :: lines)
  = (if traceback_link text
     then [(lit "  ", default_format w);
           (skipn 2 text, traceback_link_style_format w)]
     else [(text, error_style_format w)])
    ++ error_runs w lines.
Proof. reflexivity. Qed.

Lemma error_runs_text (w : console) (lines : list str) :
  concat (map fst (error_runs w lines)) = concat lines.
Proof.
  induction lines as [|text lines IH]; [reflexivity|].
  rewrite error_runs_cons, map_app, concat_app, IH.
  cbn [concat]. f_equal. destruct (traceback_link text) eqn:E.
  - cbn [map fst concat]. rewrite app_nil_r.
    apply (traceback_link_text text E).
  - cbn [map fst concat]. apply app_nil_r.
Qed.

Lemma with_document_twice (d d' : list (str * option QTextCharFormat))
      (w : console) :
  with_document d' (with_document d w) = with_document d' w.
Proof. reflexivity. Qed.

Lemma with_document_same (w : console) : with_document (document w) w = w.
Proof. destruct w. reflexivity. Qed.

Lemma error_runs_with_document (d : list (str * option QTextCharFormat))
      (w : console) (lines : list str) :
  error_runs (with_document d w) lines = error_runs w lines.
Proof. reflexivity. Qed.

Lemma error_loop_spec (lines : list str) (b : bool) (w : console) :
  error_loop lines b w
  = Return (b || existsb traceback_link lines)
           (with_document (document w ++ error_runs w lines) w).
Proof.
  revert b w. induction lines as [|text lines IH]; intros b w.
  - simpl. rewrite orb_false_r, app_nil_r, with_document_same. reflexivity.
  - cbn [error_loop]. unfold mbind at 1. unfold error_line.
    unfold mbind at 1. unfold get at 1. fold (traceback_link text).
    destruct (traceback_link text) eqn:E.
    + unfold insert_default, insertText, mbind, get, modify, ret.
      rewrite IH. cbn [document with_document].
      rewrite !error_runs_with_document, !with_document_twice.
      rewrite error_runs_cons, E, <- !app_assoc. cbn [existsb]. rewrite E.
      f_equal. destruct b; reflexivity.
    + unfold insertText, mbind, modify, ret.
      rewrite IH. cbn [document with_document].
      rewrite !error_runs_with_document, !with_document_twice.
      rewrite error_runs_cons, E, <- !app_assoc. cbn [existsb]. rewrite E.
      f_equal. destruct b; reflexivity.
Qed.

Lemma form_feed_loop_console (fuel : nat) (text : str) (w : console) :
  snd (form_feed_loop fuel text w) = w
  \/ snd (form_feed_loop fuel text w) = clear w.
Proof.
  revert text w. induction fuel as [|fuel IH]; intros text w; simpl;
    [left; reflexivity|].
  destruct (find FF text) as [i|]; [|left; reflexivity].
  right. destruct (IH (skipn (i + 1) text) (clear w)) as [H|H]; rewrite H;
    reflexivity.
Qed.

(** X15: an error text is written whole and as it is: after the form
    feeds, the runs of the [error] branch put together are the text; a
    line that names a file of a traceback ([traceback_link]) is written
    as two spaces in the default format and the rest as a link, every
    other line in the format of errors.  The call returns, leaves the
    ANSI handler as it was, and emits [traceback_available] once when
    the text has such a line, and not otherwise. *)
Theorem error_text_is_written_whole (text : str) (prompt : bool)
        (w : console) :
  let t := fst (form_feed_loop (S (length text)) text w) in
  let w0 := snd (form_feed_loop (S (length text)) text w) in
  exists w',
    append_text_to_shell text true prompt w = Return tt w'
    /\ document w' = document w0 ++ error_runs w0 (splitlines_keepends t)
    /\ concat (map fst (error_runs w0 (splitlines_keepends t))) = t
    /\ ansi_handler w' = ansi_handler w
    /\ emitted w'
       = emitted w
         ++ (if existsb traceback_link (splitlines_keepends t)
             then [traceback_available] else []).
Proof.
  intros t w0. subst t w0. unfold append_text_to_shell.
  unfold mbind at 1. unfold get at 1.
  pose proof (form_feed_loop_console (S (length text)) text w) as Hw.
  destruct (form_feed_loop (S (length text)) text w) as [t w0].
  cbn [fst snd] in *.
  unfold mbind at 1. unfold modify at 1.
  unfold mbind at 1. unfold mbind at 1. rewrite error_loop_spec.
  cbn [orb].
  assert (Hh : ansi_handler w0 = ansi_handler w)
    by (destruct Hw as [-> | ->]; reflexivity).
  assert (He : emitted w0 = emitted w)
    by (destruct Hw as [-> | ->]; reflexivity).
  destruct (existsb traceback_link (splitlines_keepends t)).
  - eexists. split; [reflexivity|]. cbn. rewrite Hh, He.
    split; [reflexivity|]. split; [|split; reflexivity].
    rewrite error_runs_text. apply splitlines_concat.
  - eexists. split; [reflexivity|]. cbn. rewrite Hh, He, app_nil_r.
    split; [reflexivity|]. split; [|split; reflexivity].
    rewrite error_runs_text. apply splitlines_concat.
Qed.

(** *** The text between the sequences *)

Lemma mbind_returns {S A B} (m : M S A) (k : A -> M S B) (s s' : S) (b : B) :
  mbind m k s = Return b s' ->
  exists a s1, m s = Return a s1 /\ k a s1 = Return b s'.
Proof.
  unfold mbind. destruct (m s) as [a s1|e s1]; [|discriminate].
  intros H. exists a, s1. auto.
Qed.

Lemma set_codes_document (codes : list Z) (w : console) :
  document (state_of (for_each (fun code => on_handler (set_code code))
                               codes w))
  = document w.
Proof.
  apply (preserves_for_each (fun s => document s = document w)
                            (fun code => on_handler (set_code code)) codes);
    [|reflexivity].
  intros code s Hs. unfold on_handler.
  destruct (set_code code (ansi_handler s)); exact Hs.
Qed.

Lemma at_sequence_returns (run g : str) (k : M console unit)
      (w w' : console) :
  at_sequence run g k w = Return tt w' ->
  exists w1,
    document w1 = document w ++ [(run, default_format w)]
    /\ k w1 = Return tt w'.
Proof.
  unfold at_sequence. intros H.
  apply mbind_returns in H. destruct H as ([] & wa & Ha & H).
  unfold insert_default, insertText, mbind, get, modify in Ha.
  inversion Ha as [Hwa]. clear Ha.
  apply mbind_returns in H. destruct H as (codes & wb & Hb & H).
  assert (wb = wa).
  { unfold lift_result in Hb. destruct (parse_codes g); inversion Hb; auto. }
  subst wb. clear Hb.
  apply mbind_returns in H. destruct H as ([] & wc & Hc & H).
  pose proof (set_codes_document codes wa) as Hd. rewrite Hc in Hd.
  simpl in Hd.
  apply mbind_returns in H. destruct H as ([] & wd & Hd' & H).
  unfold take_handler_format, modify in Hd'. inversion Hd' as [Hwd].
  exists wd. split; [|exact H]. subst wa wd. simpl in Hd. rewrite <- Hd.
  destruct (get_format (ansi_handler wc)); reflexivity.
Qed.

Lemma stream_runs (n : nat) :
  forall (s run : str) (w w' : console),
    length s <= n ->
    stream 0 run s w = Return tt w' ->
    exists runs seqs,
      document w' = document w ++ runs
      /\ length runs = S (length seqs)
      /\ Forall is_sequence seqs
      /\ run ++ s = interleave (map fst runs) seqs.
Proof.
  induction n as [|n IH]; intros s run w w' Hlen H.
  - destruct s; [|simpl in Hlen; lia]. simpl in H.
    unfold insert_default, insertText, mbind, get, modify in H.
    inversion H. exists [(run, default_format w)], []. simpl.
    rewrite app_nil_r. auto.
  - destruct s as [|c s].
    + simpl in H.
      unfold insert_default, insertText, mbind, get, modify in H.
      inversion H. exists [(run, default_format w)], []. simpl.
      rewrite app_nil_r. auto.
    + destruct (COLOR_PATTERN_match (c :: s)) as [[k g]|] eqn:E.
      * rewrite (stream_match c s run k g w E) in H.
        apply COLOR_PATTERN_match_spec in E.
        destruct E as (soh & stx & rest & Es & Hm & Hl & _ & Hk).
        destruct (sequence_cons soh stx g) as (c0 & t & Eseq).
        rewrite Eseq in Es, Hk. simpl in Es. inversion Es. subst c0 s k.
        simpl length in H. rewrite Nat.sub_1_r in H. simpl Nat.pred in H.
        rewrite (at_sequence_ext run g _ (stream 0 [] rest))
          in H by (intros w1; apply stream_skip).
        apply at_sequence_returns in H. destruct H as (w1 & Hd & H).
        apply IH in H.
        -- destruct H as (runs & seqs & Hr & Hn & Hs & Ht).
           exists ((run, default_format w) :: runs),
                  (sequence soh g stx :: seqs).
           split; [rewrite Hr, Hd, <- app_assoc; reflexivity|].
           split; [simpl; lia|]. split.
           ++ constructor; [|exact Hs]. exists soh, g, stx. auto.
           ++ cbn [map fst interleave]. rewrite <- Ht, Eseq. reflexivity.
        -- simpl in Hlen. rewrite length_app in Hlen. lia.
      * rewrite (stream_no_match c s run w E) in H.
        apply IH in H; [|simpl in Hlen; lia].
        destruct H as (runs & seqs & Hr & Hn & Hs & Ht).
        exists runs, seqs. rewrite <- app_assoc in Ht. auto.
Qed.

(** X16: the colour branch drops nothing but the escape sequences: when it
    returns, the runs it has written are one more than the sequences it
    has met, and the text is these runs in their order with a sequence
    behind each but the last. *)
Theorem decode_drops_only_sequences (text : str) (w w' : console) :
  decode text w = Return tt w' ->
  exists runs seqs,
    document w' = document w ++ runs
    /\ length runs = S (length seqs)
    /\ Forall is_sequence seqs
    /\ text = interleave (map fst runs) seqs.
Proof.
  rewrite decode_stream. intros H.
  apply (stream_runs (length text) text [] w w' (Nat.le_refl _) H).
Qed.

Lemma decode_drops_only_sequences_witness :
  let text := lit "a" ++ sequence true (lit "31") false ++ lit "b"
              ++ sequence false (lit "0") true ++ lit "c" in
  exists runs seqs,
    document (state_of (decode text sample_console))
    = document sample_console ++ runs
    /\ length runs = S (length seqs)
    /\ Forall is_sequence seqs
    /\ text = interleave (map fst runs) seqs.
Proof.
  intros text.
  apply (decode_drops_only_sequences
           text sample_console (state_of (decode text sample_console))).
  vm_compute. reflexivity.
Defined.

(** *** The cached format *)

Lemma set_style_result (h h' : handler) (base : QTextCharFormat) :
  base_format h = Some base ->
  set_style h = Return tt h' ->
  exists fg bg,
    foreground_choice h base = Some fg
    /\ background_choice h base = Some bg
    /\ h' = set_current_format
              (Some (restyle h base (starting_format h base) fg bg)) h.
Proof.
  intros Hb H. rewrite (set_style_with_base h base Hb) in H.
  destruct (foreground_choice h base) as [fg|]; [|discriminate].
  destruct (background_choice h base) as [bg|]; [|discriminate].
  inversion H. exists fg, bg. auto.
Qed.

(** X17: [set_style] is idempotent: when it has returned, a second call
    with the same attributes returns too and leaves the handler as it
    is. *)
Theorem set_style_idempotent (h h' : handler) (base : QTextCharFormat) :
  base_format h = Some base ->
  set_style h = Return tt h' ->
  set_style h' = Return tt h'.
Proof.
  intros Hb H.
  destruct (set_style_result h h' base Hb H) as (fg & bg & Hf & Hg & Eh).
  assert (Hb' : base_format h' = Some base) by (subst h'; exact Hb).
  rewrite (set_style_with_base h' base Hb').
  assert (Hf' : foreground_choice h' base = Some fg)
    by (subst h'; exact Hf).
  assert (Hg' : background_choice h' base = Some bg)
    by (subst h'; exact Hg).
  rewrite Hf', Hg'. subst h'. reflexivity.
Qed.

Lemma set_style_idempotent_witness :
  let h := set_base_format (Some (style_format 0 false false false))
                           (apply_code 31 sample_handler) in
  set_style (state_of (set_style h)) = Return tt (state_of (set_style h)).
Proof.
  intros h.
  apply (set_style_idempotent h (state_of (set_style h))
                              (style_format 0 false false false)).
  - reflexivity.
  - vm_compute. reflexivity.
Defined.

(** X18: [set_style] takes the font of the cached format and sets its
    three flags only, and [set_pythonshell_font] leaves the cached
    format alone: after a change of font, the style computed for the
    next escape sequence still has the font family of the format cached
    before, not that of the new base format. *)
Theorem font_change_keeps_cached_family
        (font0 : option QFont) (w : console) (cur : QTextCharFormat)
        (h' : handler) :
  current_format (ansi_handler w) = Some cur ->
  set_style (ansi_handler (set_pythonshell_font font0 w)) = Return tt h' ->
  exists f,
    current_format h' = Some f
    /\ family (font f) = family (font cur)
    /\ base_format h'
       = Some (apply_style default_style
                           (match font0 with
                            | Some q => q
                            | None => application_font
                            end)
                           (light_background w) true).
Proof.
  intros Hc H.
  set (base := apply_style default_style
                           (match font0 with
                            | Some q => q
                            | None => application_font
                            end)
                           (light_background w) true).
  assert (Hb : base_format (ansi_handler (set_pythonshell_font font0 w))
               = Some base) by reflexivity.
  destruct (set_style_result _ h' base Hb H) as (fg & bg & _ & _ & Eh).
  subst h'. eexists. split; [reflexivity|]. split; [|reflexivity].
  unfold starting_format. simpl current_format. rewrite Hc. reflexivity.
Qed.

Lemma font_change_keeps_cached_family_witness :
  let w := state_of (append_text_to_shell ([ESC] ++ lit "[1mX") false false
                                          sample_console) in
  let q := {| family := lit "Courier"; font_italic := false;
              font_bold := false; font_underline := false |} in
  exists f,
    current_format (state_of (set_style (ansi_handler
                                           (set_pythonshell_font (Some q) w))))
    = Some f
    /\ family (font f) = family application_font
    /\ base_format (state_of (set_style (ansi_handler
                                           (set_pythonshell_font (Some q) w))))
       = Some (apply_style default_style q (light_background w) true).
Proof.
  intros w q.
  apply (font_change_keeps_cached_family
           (Some q) w
           (setFont (setBold true application_font)
                    (apply_style default_style application_font true true))
           (state_of (set_style (ansi_handler
                                   (set_pythonshell_font (Some q) w))))).
  - vm_compute. reflexivity.
  - vm_compute. reflexivity.
Defined.

(** X19: after [set_pythonshell_font] a text without escape character is
    written as one run in the new format of the default style, whatever
    the sequences before had selected; the handler keeps the colours and
    flags they had set. *)
Theorem font_change_resets_plain_text_format
        (font0 : option QFont) (w : console) (text : str) :
  ~ In ESC text ->
  let w1 := set_pythonshell_font font0 w in
  decode text w1
  = Return tt
           (with_document
              (document w
                 ++ [(text,
                      Some (apply_style default_style
                                        (match font0 with
                                         | Some q => q
                                         | None => application_font
                                         end)
                                        (light_background w) true))])
              w1)
  /\ foreground_color (ansi_handler w1) = foreground_color (ansi_handler w)
  /\ background_color (ansi_handler w1) = background_color (ansi_handler w)
  /\ bold (ansi_handler w1) = bold (ansi_handler w)
  /\ italic (ansi_handler w1) = italic (ansi_handler w)
  /\ underline (ansi_handler w1) = underline (ansi_handler w).
Proof.
  intros H w1. split; [|repeat split].
  rewrite decode_stream, (stream_plain text [] w1 H). reflexivity.
Qed.

Lemma font_change_resets_plain_text_format_witness :
  let w := state_of (append_text_to_shell ([ESC] ++ lit "[31mX") false false
                                          sample_console) in
  let w1 := set_pythonshell_font None w in
  decode (lit "Y") w1
  = Return tt
           (with_document
              (document w
                 ++ [(lit "Y",
                      Some (apply_style default_style application_font
                                        (light_background w) true))])
              w1)
  /\ foreground_color (ansi_handler w1) = foreground_color (ansi_handler w)
  /\ background_color (ansi_handler w1) = background_color (ansi_handler w)
  /\ bold (ansi_handler w1) = bold (ansi_handler w)
  /\ italic (ansi_handler w1) = italic (ansi_handler w)
  /\ underline (ansi_handler w1) = underline (ansi_handler w).
Proof.
  intros w.
  apply (font_change_resets_plain_text_format None w (lit "Y")).
  intros [H|[]]. discriminate.
Defined.

End ShellFacts.
